(** * AnglE: loss terms, tokenization guard, batch collator, pooler, config

    A shallow embedding of [src/angle.py].  Tensors are lists (of lists);
    32-bit integer tensors carry their wrap-around; Python exceptions are
    the [Err] results of a small error monad; dictionaries are finite maps. *)

From Stdlib Require Import ZArith Reals Lra.
From stdpp Require Import gmap strings list.

Local Open Scope Z_scope.

(** ** Python exceptions and the error monad *)

Inductive exn : Type :=
| IndexError
| ValueError
| KeyError
| AssertionError
| TypeError
| RuntimeError
| NotImplementedError.

Inductive result (A : Type) : Type :=
| Ok (a : A)
| Err (e : exn).
Arguments Ok {A} a.
Arguments Err {A} e.

#[global] Instance result_ret : MRet result := λ A a, Ok a.
#[global] Instance result_bind : MBind result := λ A B k m,
  match m with
  | Ok a => k a
  | Err e => Err e
  end.

(** A Python [for] loop whose body may raise. *)
Fixpoint for_each {S A} (body : S → A → result S) (s : S) (xs : list A) : result S :=
  match xs with
  | [] => Ok s
  | x :: xs' => s' ← body s x; for_each body s' xs'
  end.

Lemma mapM_result_cons {A B} (f : A → result B) (x : A) (l : list A) :
  mapM f (x :: l) = (y ← f x; ys ← mapM f l; Ok (y :: ys)).
Proof. done. Qed.

(** A loop over a list raises only what its body raises on some element. *)
Lemma mapM_result_Err {A B} (f : A → result B) (l : list A) (e : exn) :
  mapM f l = Err e → ∃ x, x ∈ l ∧ f x = Err e.
Proof.
  induction l as [|x l IH]; [done|]. rewrite mapM_result_cons.
  destruct (f x) as [y|e'] eqn:Hx; cbn [mbind result_bind].
  - destruct (mapM f l) as [ys|e''] eqn:Hl; cbn [mbind result_bind]; [done|].
    intros [= ->]. destruct (IH eq_refl) as (x' & Hin & Hx').
    exists x'. split; [by apply elem_of_cons; right | done].
  - intros [= ->]. exists x. split; [by apply elem_of_cons; left | done].
Qed.

Lemma mapM_result_Ok {A B} (f : A → result B) (l : list A) (ys : list B) :
  mapM f l = Ok ys ↔ Forall2 (λ x y, f x = Ok y) l ys.
Proof.
  revert ys. induction l as [|x l IH]; intros ys.
  - split; [intros [= <-]; constructor | by intros ->%Forall2_nil_inv_l].
  - rewrite mapM_result_cons. split.
    + destruct (f x) as [y|e] eqn:Hx; cbn [mbind result_bind]; [|done].
      destruct (mapM f l) as [ys'|e] eqn:Hl; cbn [mbind result_bind]; [|done].
      intros [= <-]. constructor; [done|]. by apply IH.
    + intros (y & ys' & Hx & Hl & ->)%Forall2_cons_inv_l.
      rewrite Hx. cbn [mbind result_bind].
      apply IH in Hl. by rewrite Hl.
Qed.

Lemma mapM_result_total {A B} (f : A → result B) (l : list A) :
  Forall (λ x, ∃ y, f x = Ok y) l → ∃ ys, mapM f l = Ok ys.
Proof.
  induction 1 as [|x l [y Hx] _ [ys IH]]; [by eexists|].
  rewrite mapM_result_cons, Hx. cbn [mbind result_bind]. rewrite IH. by eexists.
Qed.

(** Entry [(i, j)] of a matrix; [None] outside it. *)
Definition entry (m : list (list Z)) (i j : nat) : option Z :=
  row ← m !! i; row !! j.

(** ** In-batch negative loss: the target matrix *)

Module TargetMatrix.

(** Signed 32-bit wrap-around of [torch.int32] arithmetic. *)
Definition wrap32 (z : Z) : Z := (z + 2 ^ 31) mod 2 ^ 32 - 2 ^ 31.

Definition add32 (a b : Z) : Z := wrap32 (a + b).
Definition sub32 (a b : Z) : Z := wrap32 (a - b).
Definition mul32 (a b : Z) : Z := wrap32 (a * b).

(** [(t == 0).int()] *)
Definition eq0 (y : Z) : Z := if decide (y = 0) then 1 else 0.

(** Broadcasting a column of length 1 or [n] against [n] indices; any other
    length makes the in-place product raise. *)
Definition broadcast (n : nat) (y : list Z) : option (list Z) :=
  if decide (length y = n) then Some y
  else match y with
       | [y0] => Some (replicate n y0)
       | _ => None
       end.

(** [idxs + 1 - idxs % 2 * 2] *)
Definition partner32 (i : Z) : Z := sub32 (add32 i 1) (mul32 (i mod 2) 2).

(** [make_target_matrix], with [n = y_pred.shape[0]] and [y_true] the label
    column after [y_true.int()].  [idxs_2] is computed from [idxs] before
    [idxs_1], a view of [idxs], is updated in place. *)
Definition make_target_matrix (n : nat) (y_true : list Z) : option (list (list Z)) :=
  match broadcast n y_true with
  | None => None
  | Some y =>
      let idxs := Z.of_nat <$> seq 0 n in
      let idxs_1 := idxs in
      let idxs_2 := partner32 <$> idxs in
      let idxs_1 := zip_with mul32 idxs_1 y in
      let idxs_1 := zip_with (λ a b, add32 a (mul32 (eq0 b) (-2))) idxs_1 y in
      let idxs_2 := zip_with mul32 idxs_2 y in
      let idxs_2 := zip_with (λ a b, add32 a (mul32 (eq0 b) (-1))) idxs_2 y in
      Some ((λ r, (λ c, if decide (c = r) then 1 else 0) <$> idxs_1) <$> idxs_2)
  end.

(** The designated partner of a row under the interleaving rule. *)
Definition partner (i : nat) : nat :=
  if Nat.even i then S i else pred i.

(** The label-presence flag of a row. *)
Definition flag (y : Z) : bool := negb (y =? 0).

(** The target as the specification words it: partner and equal flags. *)
Definition spec_target (y_true : list Z) (i j : nat) : Z :=
  match y_true !! i, y_true !! j with
  | Some yi, Some yj =>
      if decide (j = partner i ∧ flag yi = flag yj) then 1 else 0
  | _, _ => 0
  end.

Lemma wrap32_small z : -2 ^ 31 ≤ z < 2 ^ 31 → wrap32 z = z.
Proof.
  intros Hz. unfold wrap32.
  rewrite Z.mod_small by lia. lia.
Qed.

(** Removes the wrap-around of in-range values, innermost first. *)
Ltac unwrap32 :=
  repeat match goal with
  | |- context [wrap32 ?z] =>
      lazymatch z with
      | context [wrap32 _] => fail
      | _ => rewrite (wrap32_small z) by lia
      end
  end.

Lemma partner32_partner (i : nat) :
  Z.of_nat i < 2 ^ 31 - 1 → partner32 (Z.of_nat i) = Z.of_nat (partner i).
Proof.
  intros Hi. unfold partner32, partner, add32, sub32, mul32.
  assert (Hm : Z.of_nat i mod 2 = if Nat.even i then 0 else 1).
  { destruct (Nat.even i) eqn:He.
    - apply Nat.even_spec in He as [k ->]. rewrite Nat2Z.inj_mul.
      rewrite Z.mul_comm. apply Z_mod_mult.
    - assert (Ho : Nat.odd i = true) by (rewrite <- Nat.negb_even, He; done).
      apply Nat.odd_spec in Ho as [k ->].
      rewrite Nat2Z.inj_add, Nat2Z.inj_mul. rewrite Z.add_comm, Z.mul_comm.
      rewrite Z_mod_plus_full. done. }
  rewrite Hm. destruct (Nat.even i) eqn:He.
  - unwrap32. lia.
  - assert (i ≠ 0%nat) by (intros ->; done).
    unwrap32. lia.
Qed.

Lemma idxs_lookup (n j : nat) :
  (j < n)%nat → (Z.of_nat <$> seq 0 n) !! j = Some (Z.of_nat j).
Proof.
  intros Hj. rewrite list_lookup_fmap, lookup_seq_lt by done. done.
Qed.

Lemma make_target_matrix_entry (n : nat) (y : list Z) (i j : nat) (yi yj : Z) :
  length y = n → y !! i = Some yi → y !! j = Some yj →
  ∃ m, make_target_matrix n y = Some m ∧
    entry m i j = Some
      (if decide (add32 (mul32 (Z.of_nat j) yj) (mul32 (eq0 yj) (-2))
                  = add32 (mul32 (partner32 (Z.of_nat i)) yi) (mul32 (eq0 yi) (-1)))
       then 1 else 0).
Proof.
  intros Hlen Hi Hj.
  assert (i < n)%nat by (rewrite <- Hlen; by eapply lookup_lt_Some).
  assert (j < n)%nat by (rewrite <- Hlen; by eapply lookup_lt_Some).
  unfold make_target_matrix, broadcast. rewrite decide_True by done.
  eexists; split; [reflexivity|]. unfold entry.
  rewrite list_lookup_fmap, !lookup_zip_with, list_lookup_fmap, idxs_lookup by done.
  rewrite Hi. simpl.
  rewrite list_lookup_fmap, !lookup_zip_with, idxs_lookup by done.
  rewrite Hj. simpl. done.
Qed.

Lemma make_target_matrix_shape (n : nat) (y : list Z) (m : list (list Z)) :
  make_target_matrix n y = Some m →
  length m = n ∧ Forall (λ row, length row = n) m.
Proof.
  unfold make_target_matrix. destruct (broadcast n y) as [yb|] eqn:Hb; [|done].
  assert (Hyb : length yb = n).
  { unfold broadcast in Hb. case_decide; [by simplify_eq|].
    destruct y as [|y0 [|]]; simplify_eq. by rewrite length_replicate. }
  intros [= <-]. split.
  - rewrite length_fmap, !length_zip_with, length_fmap, length_fmap, length_seq. lia.
  - apply Forall_fmap, Forall_forall. intros r _. simpl.
    rewrite length_fmap, !length_zip_with, length_fmap, length_seq. lia.
Qed.

(** The two encodings on 0/1 labels: a label-1 row keeps its (partner) index,
    a label-0 row gets the sentinel -2 as a column and -1 as a row. *)
Lemma column_code (j : nat) (yj : Z) :
  Z.of_nat j < 2 ^ 31 → yj = 0 ∨ yj = 1 →
  add32 (mul32 (Z.of_nat j) yj) (mul32 (eq0 yj) (-2))
  = if decide (yj = 1) then Z.of_nat j else -2.
Proof.
  intros Hj [-> | ->]; unfold add32, mul32, eq0;
    repeat case_decide; try lia;
    rewrite ?Z.mul_0_r, ?Z.mul_1_r, ?Z.mul_1_l, ?Z.mul_0_l; unwrap32; lia.
Qed.

Lemma row_code (i : nat) (yi : Z) :
  Z.of_nat i < 2 ^ 31 - 1 → yi = 0 ∨ yi = 1 →
  add32 (mul32 (partner32 (Z.of_nat i)) yi) (mul32 (eq0 yi) (-1))
  = if decide (yi = 1) then Z.of_nat (partner i) else -1.
Proof.
  intros Hi Hy. rewrite partner32_partner by done.
  assert (Z.of_nat (partner i) < 2 ^ 31).
  { unfold partner. destruct (Nat.even i); lia. }
  destruct Hy as [-> | ->]; unfold add32, mul32, eq0;
    repeat case_decide; try lia;
    rewrite ?Z.mul_0_r, ?Z.mul_1_r, ?Z.mul_1_l, ?Z.mul_0_l; unwrap32; lia.
Qed.

(** C1 (as amended): on 0/1 labels the target is the n×n matrix with
    target[i][j] = 1 exactly when j is the partner of i (i+1 for even i,
    i-1 for odd i) and rows i and j both carry label 1; every other entry,
    every pair of label-0 rows included, is 0. *)
Theorem make_target_matrix_binary_labels (n : nat) (y_true : list Z) :
  length y_true = n → Z.of_nat n < 2 ^ 31 →
  Forall (λ v, v = 0 ∨ v = 1) y_true →
  ∃ m, make_target_matrix n y_true = Some m ∧
       length m = n ∧ Forall (λ row, length row = n) m ∧
       ∀ i j yi yj, y_true !! i = Some yi → y_true !! j = Some yj →
         entry m i j
         = Some (if decide (j = partner i ∧ yi = 1 ∧ yj = 1) then 1 else 0).
Proof.
  intros Hlen Hn Hbin.
  destruct (make_target_matrix n y_true) as [m|] eqn:Hm.
  - exists m. split; [done|].
    destruct (make_target_matrix_shape _ _ _ Hm) as [Hrows Hcols].
    split; [done|]. split; [done|].
    intros i j yi yj Hi Hj.
    destruct (make_target_matrix_entry n y_true i j yi yj Hlen Hi Hj)
      as (m' & Hm' & He).
    rewrite Hm in Hm'. injection Hm' as <-. rewrite He. clear He.
    assert (i < n)%nat by (rewrite <- Hlen; by eapply lookup_lt_Some).
    assert (j < n)%nat by (rewrite <- Hlen; by eapply lookup_lt_Some).
    assert (Hyi : yi = 0 ∨ yi = 1).
    { eapply (proj1 (Forall_forall _ _) Hbin), list_elem_of_lookup_2, Hi. }
    assert (Hyj : yj = 0 ∨ yj = 1).
    { eapply (proj1 (Forall_forall _ _) Hbin), list_elem_of_lookup_2, Hj. }
    rewrite column_code, row_code by lia. f_equal.
    assert (0 ≤ Z.of_nat (partner i)) by lia.
    repeat case_decide; try done; try lia; destruct_and?; try lia.
    all: exfalso; naive_solver lia.
  - exfalso. unfold make_target_matrix, broadcast in Hm.
    by rewrite decide_True in Hm by done.
Qed.

Lemma make_target_matrix_binary_labels_witness :
  ∃ m, make_target_matrix 4 [1; 1; 0; 0] = Some m ∧
       length m = 4%nat ∧ Forall (λ row, length row = 4%nat) m ∧
       ∀ i j yi yj, [1; 1; 0; 0] !! i = Some yi → [1; 1; 0; 0] !! j = Some yj →
         entry m i j
         = Some (if decide (j = partner i ∧ yi = 1 ∧ yj = 1) then 1 else 0).
Proof.
  apply (make_target_matrix_binary_labels 4 [1; 1; 0; 0]).
  - reflexivity.
  - lia.
  - repeat first [apply Forall_nil_2 | apply Forall_cons_2; [lia|]].
Defined.

(** C1 (as stated) fails: two partnered label-0 rows get target 0, because the
    column sentinel -2 never equals the row sentinel -1, although the
    specification counts both-negative partners as matching. *)
Lemma both_negative_partners_do_not_match :
  (m ← make_target_matrix 2 [0; 0]; entry m 0 1) = Some 0
  ∧ spec_target [0; 0] 0 1 = 1.
Proof. split; vm_compute; reflexivity. Qed.

(** Labels other than 0 and 1 scale the indices: with labels [2; 2; 1; 1]
    row 3 is matched with row 1, which is not its partner. *)
Lemma scaled_labels_match_a_stranger :
  (m ← make_target_matrix 4 [2; 2; 1; 1]; entry m 3 1) = Some 1
  ∧ partner 3 = 2%nat.
Proof. split; vm_compute; reflexivity. Qed.

End TargetMatrix.

(** ** The three loss terms

    Float tensors are lists of exact reals: the model computes what the
    source computes up to float32 rounding, overflow and underflow.  Labels
    are a 2N×1 tensor, embeddings a 2N×d tensor.  A shape that makes an
    elementwise operation impossible is reported as [RuntimeError];
    broadcasting of singleton dimensions is not modelled. *)

Module Loss.

Local Open Scope R_scope.

(** [t[::2]] and [t[1::2]] *)
Fixpoint evens {A} (l : list A) : list A :=
  match l with
  | x :: _ :: l' => x :: evens l'
  | _ => l
  end.

Definition odds {A} (l : list A) : list A := evens (tail l).

Definition rsum (l : list R) : R := foldr Rplus 0 l.

Definition dot (u v : list R) : R := rsum (zip_with Rmult u v).

Definition norm2 (v : list R) : R := sqrt (rsum ((λ x, x * x) <$> v)).

(** [F.normalize(v, p=2)]: [v / max(‖v‖, eps)] with the default [eps = 1e-12]. *)
Definition normalize (v : list R) : list R :=
  (λ x, x / Rmax (norm2 v) 1e-12) <$> v.

(** [torch.logsumexp(t, dim=0)] *)
Definition logsumexp (l : list R) : R := ln (rsum (exp <$> l)).

(** [t[:, 0]] *)
Definition column0 (t : list (list R)) : result (list R) :=
  mapM (λ row, match row with
               | y :: _ => Ok y
               | [] => Err IndexError
               end) t.

(** [(y[:, None] < y[None, :]).float()] *)
Definition order_matrix (y : list R) : list (list R) :=
  (λ yi, (λ yj, if Rlt_dec yi yj then 1 else 0) <$> y) <$> y.

(** The closing lines shared by [cosine_loss] and [angle_loss]: pairwise
    differences, the offset of the unordered pairs, the leading zero and the
    log-sum-exp. *)
Definition ranking_loss (y_true : list (list R)) (y_pred : list R) : result R :=
  if decide (length y_true = length y_pred
             ∧ Forall (λ row, length row = length y_pred) y_true)
  then
    let diff := (λ si, (λ sj, si - sj) <$> y_pred) <$> y_pred in
    let masked := zip_with (zip_with (λ d o, d - (1 - o) * 1e12)) diff y_true in
    Ok (logsumexp (0 :: concat masked))
  else Err RuntimeError.

Definition cosine_loss (y_true y_pred : list (list R)) (tau : R) : result R :=
  y ← column0 (evens y_true);
  let y_true := order_matrix y in
  let y_pred := normalize <$> y_pred in
  if decide (length (evens y_pred) = length (odds y_pred)) then
    let y_pred := zip_with (λ u v, dot u v * tau) (evens y_pred) (odds y_pred) in
    ranking_loss y_true y_pred
  else Err RuntimeError.

(** [torch.chunk(t, 2, dim=1)] for an even, positive number of columns; any
    other width is reported as [RuntimeError]. *)
Definition chunk2 (t : list (list R)) : result (list (list R) * list (list R)) :=
  if decide (Forall (λ row, Nat.even (length row) = true ∧ row ≠ []) t) then
    Ok ((λ row, take (length row / 2) row) <$> t,
        (λ row, drop (length row / 2) row) <$> t)
  else Err RuntimeError.

Definition angle_loss (y_true y_pred : list (list R)) (tau : R) : result R :=
  y ← column0 (evens y_true);
  let y_true := order_matrix y in
  '(y_pred_re, y_pred_im) ← chunk2 y_pred;
  let a := evens y_pred_re in
  let b := evens y_pred_im in
  let c := odds y_pred_re in
  let d := odds y_pred_im in
  if decide (length a = length c) then
    let pair_angle (a b c d : list R) : R :=
      let z := rsum (zip_with Rplus ((λ x, x ^ 2) <$> c) ((λ x, x ^ 2) <$> d)) in
      let re := (λ x, x / z) <$>
                zip_with Rplus (zip_with Rmult a c) (zip_with Rmult b d) in
      let im := (λ x, x / z) <$>
                zip_with Rminus (zip_with Rmult b c) (zip_with Rmult a d) in
      let dz := sqrt (rsum (zip_with Rplus ((λ x, x ^ 2) <$> a) ((λ x, x ^ 2) <$> b))) in
      let dw := sqrt (rsum (zip_with Rplus ((λ x, x ^ 2) <$> c) ((λ x, x ^ 2) <$> d))) in
      let re := (λ x, x / (dz / dw)) <$> re in
      let im := (λ x, x / (dz / dw)) <$> im in
      Rabs (rsum (re ++ im)) * tau in
    let y_pred :=
      zip_with (λ '(a, b) '(c, d), pair_angle a b c d) (zip a b) (zip c d) in
    ranking_loss y_true y_pred
  else Err RuntimeError.

(** [t.int()] on a float: truncation toward zero. *)
Definition trunc (x : R) : Z :=
  if Rle_dec 0 x then Int_part x else (- Int_part (- x))%Z.

(** [F.log_softmax(t, dim=1)] on one row. *)
Definition log_softmax (row : list R) : list R :=
  (λ x, x - logsumexp row) <$> row.

(** [categorical_crossentropy(y_true, y_pred, from_logits=True)] *)
Definition categorical_crossentropy (y_true y_pred : list (list R)) : list R :=
  zip_with (λ t p, - rsum (zip_with Rmult (log_softmax p) t)) y_true y_pred.

Definition mean (l : list R) : R := rsum l / INR (length l).

Definition in_batch_negative_loss (y_true y_pred : list (list R)) (tau : R)
    (similar_matrix : option (list (list R))) (negative_weights : R) : result R :=
  let n := length y_pred in
  labels ← (column0 y_true : result (list R));
  let make_target_matrix (y : list Z) : result (list (list R)) :=
    match TargetMatrix.make_target_matrix n y with
    | Some m => Ok (fmap (M:=list) IZR <$> m)
    | None => Err RuntimeError
    end in
  neg_mask ← make_target_matrix
               ((λ y, if Req_dec_T y 0 then 1%Z else 0%Z) <$> (labels : list R));
  y_true ← make_target_matrix (trunc <$> (labels : list R));
  y_true ← match similar_matrix with
           | None => Ok y_true
           | Some sm =>
               if decide (length sm = n ∧ Forall (λ row, length row = n) sm)
               then Ok (zip_with (zip_with Rplus) y_true sm)
               else Err RuntimeError
           end;
  let y_pred := normalize <$> y_pred in
  let similarities :=
    imap (λ i u, imap (λ j v, (dot u v - (if decide (i = j) then 1 else 0) * 1e12) * tau)
                      y_pred) y_pred in
  let similarities :=
    if Rlt_dec 0 negative_weights
    then zip_with (zip_with (λ s m, s + m * negative_weights)) similarities neg_mask
    else similarities in
  Ok (mean (categorical_crossentropy y_true similarities)).

(** *** AngleLoss

    A call is run in a monad that records which loss terms were computed and
    stops at the first exception. *)

Inductive term : Type := Cosine | InBatchNegative | Angle.

Definition traced (A : Type) : Type := list term → result A * list term.

#[global] Instance traced_ret : MRet traced := λ A a log, (Ok a, log).
#[global] Instance traced_bind : MBind traced := λ A B k m log,
  match m log with
  | (Ok a, log') => k a log'
  | (Err e, log') => (Err e, log')
  end.

(** Evaluating the call of one loss term. *)
Definition compute (t : term) (value : result R) : traced R :=
  λ log, (value, log ++ [t]).

Record AngleLoss : Type := {
  w1 : R;
  w2 : R;
  w3 : R;
  cosine_tau : R;
  ibn_tau : R;
  angle_tau : R
}.

(** [AngleLoss.__init__] with its defaults. *)
Definition AngleLoss_init (w1 w2 w3 : R) : AngleLoss :=
  {| w1 := w1; w2 := w2; w3 := w3;
     cosine_tau := 20; ibn_tau := 20; angle_tau := 1 |}.

Definition AngleLoss_call (self : AngleLoss) (y_true y_pred : list (list R))
    (similar_matrix : option (list (list R))) : traced R :=
  let loss := 0 in
  loss ← (if Rlt_dec 0 (w1 self) then
            t ← compute Cosine (cosine_loss y_true y_pred (cosine_tau self));
            mret (loss + w1 self * t)
          else mret loss);
  loss ← (if Rlt_dec 0 (w2 self) then
            t ← compute InBatchNegative
                  (in_batch_negative_loss y_true y_pred (ibn_tau self) similar_matrix 0);
            mret (loss + w2 self * t)
          else mret loss);
  loss ← (if Rlt_dec 0 (w3 self) then
            t ← compute Angle (angle_loss y_true y_pred (angle_tau self));
            mret (loss + w3 self * t)
          else mret loss);
  mret loss.

(** The total loss as the specification words it: the weighted sum in which
    exactly the terms of weight 0 are left out. *)
Definition spec_total (self : AngleLoss) (y_true y_pred : list (list R))
    (similar_matrix : option (list (list R))) : result R :=
  let weighted (w : R) (value : result R) (loss : R) : result R :=
    if Req_dec_T w 0 then Ok loss else t ← value; Ok (loss + w * t) in
  loss ← weighted (w1 self) (cosine_loss y_true y_pred (cosine_tau self)) 0;
  loss ← weighted (w2 self)
           (in_batch_negative_loss y_true y_pred (ibn_tau self) similar_matrix 0) loss;
  weighted (w3 self) (angle_loss y_true y_pred (angle_tau self)) loss.

(** *** The cosine term on gold scores [0, 1] with a zero similarity gap *)

Lemma order_matrix_01 : order_matrix [0; 1] = [[0; 1]; [0; 0]].
Proof.
  unfold order_matrix. simpl.
  destruct (Rlt_dec 0 0); [lra|].
  destruct (Rlt_dec 0 1); [|lra].
  destruct (Rlt_dec 1 0); [lra|].
  destruct (Rlt_dec 1 1); [lra|]. done.
Qed.

(** In exact arithmetic the three masked entries still contribute
    [exp(-1e12)] each. *)
Lemma ranking_loss_gold01 (s : R) :
  ranking_loss (order_matrix [0; 1]) [s; s] = Ok (ln (2 + 3 * exp (- 1e12))).
Proof.
  rewrite order_matrix_01. unfold ranking_loss.
  rewrite decide_True by (split; [done | repeat constructor]).
  f_equal. unfold logsumexp. f_equal. simpl.
  replace (s - s - (1 - 0) * 1e12) with (- 1e12) by lra.
  replace (s - s - (1 - 1) * 1e12) with 0 by lra.
  rewrite exp_0. lra.
Qed.

Lemma normalize_unit : normalize [1] = [1].
Proof.
  unfold normalize, norm2, rsum. simpl.
  replace (1 * 1 + 0) with 1 by lra. rewrite sqrt_1.
  rewrite Rmax_left by lra. f_equal. lra.
Qed.

Lemma cosine_loss_gold01 (tau : R) :
  cosine_loss [[0]; [0]; [1]; [1]] [[1]; [1]; [1]; [1]] tau
  = Ok (ln (2 + 3 * exp (- 1e12))).
Proof.
  unfold cosine_loss. simpl. rewrite !normalize_unit. simpl.
  apply ranking_loss_gold01.
Qed.

Lemma masked_terms_positive : ln 2 < ln (2 + 3 * exp (- 1e12)).
Proof.
  pose proof (exp_pos (- 1e12)).
  apply ln_increasing; lra.
Qed.

Lemma ln2_positive : 0 < ln 2.
Proof. rewrite <- ln_1. apply ln_increasing; lra. Qed.

(** *** What a call of AngleLoss returns and computes *)

(** The share of one term in the total: nothing unless its weight is positive. *)
Definition contribution (w t : R) : R := if Rlt_dec 0 w then w * t else 0.

Definition weight (self : AngleLoss) (t : term) : R :=
  match t with
  | Cosine => w1 self
  | InBatchNegative => w2 self
  | Angle => w3 self
  end.

(** The terms a call computes, in order. *)
Definition computed (self : AngleLoss) : list term :=
  (if Rlt_dec 0 (w1 self) then [Cosine] else [])
  ++ (if Rlt_dec 0 (w2 self) then [InBatchNegative] else [])
  ++ (if Rlt_dec 0 (w3 self) then [Angle] else []).

Lemma AngleLoss_call_closed_form self y_true y_pred similar_matrix (c i a : R) :
  (0 < w1 self → cosine_loss y_true y_pred (cosine_tau self) = Ok c) →
  (0 < w2 self →
   in_batch_negative_loss y_true y_pred (ibn_tau self) similar_matrix 0 = Ok i) →
  (0 < w3 self → angle_loss y_true y_pred (angle_tau self) = Ok a) →
  ∃ v, AngleLoss_call self y_true y_pred similar_matrix [] = (Ok v, computed self)
       ∧ v = contribution (w1 self) c + contribution (w2 self) i
             + contribution (w3 self) a.
Proof.
  intros Hc Hi Ha.
  unfold AngleLoss_call, computed, contribution, compute, mbind, traced_bind,
    mret, traced_ret.
  destruct (Rlt_dec 0 (w1 self)) as [H1|H1];
    destruct (Rlt_dec 0 (w2 self)) as [H2|H2];
    destruct (Rlt_dec 0 (w3 self)) as [H3|H3];
    rewrite ?(Hc H1), ?(Hi H2), ?(Ha H3); simpl;
    rewrite ?(Hc H1), ?(Hi H2), ?(Ha H3); simpl;
    rewrite ?(Hc H1), ?(Hi H2), ?(Ha H3); simpl;
    (eexists; split; [reflexivity | lra]).
Qed.

Lemma contribution_nonneg_weight (w t : R) : 0 <= w → contribution w t = w * t.
Proof.
  intros Hw. unfold contribution. destruct (Rlt_dec 0 w); [done|].
  replace w with 0 by lra. lra.
Qed.

Lemma contribution_nonpos_weight (w t : R) : w <= 0 → contribution w t = 0.
Proof. intros Hw. unfold contribution. destruct (Rlt_dec 0 w); lra. Qed.

Lemma computed_positive self (t : term) : t ∈ computed self ↔ 0 < weight self t.
Proof.
  unfold computed. rewrite !elem_of_app.
  destruct (Rlt_dec 0 (w1 self)), (Rlt_dec 0 (w2 self)), (Rlt_dec 0 (w3 self));
    destruct t; simpl weight; rewrite ?elem_of_cons, ?elem_of_nil;
    intuition (try discriminate; auto).
Qed.

(** C3 (as amended): a call returns the sum of [w·term] over the terms whose
    weight is strictly positive and computes exactly those terms, so a term
    of weight 0 or less is never computed; for non-negative weights this is
    w1·cosine + w2·in-batch-negative + w3·angle, and with weights 1, 0, 0 it
    is the cosine term itself, the only term computed. *)
Theorem AngleLoss_call_sums_positive_terms
    self y_true y_pred similar_matrix (c i a : R) :
  (0 < w1 self → cosine_loss y_true y_pred (cosine_tau self) = Ok c) →
  (0 < w2 self →
   in_batch_negative_loss y_true y_pred (ibn_tau self) similar_matrix 0 = Ok i) →
  (0 < w3 self → angle_loss y_true y_pred (angle_tau self) = Ok a) →
  ∃ v, AngleLoss_call self y_true y_pred similar_matrix [] = (Ok v, computed self)
       ∧ v = contribution (w1 self) c + contribution (w2 self) i
             + contribution (w3 self) a
       ∧ (∀ t, t ∈ computed self ↔ 0 < weight self t)
       ∧ (0 <= w1 self → 0 <= w2 self → 0 <= w3 self →
          v = w1 self * c + w2 self * i + w3 self * a)
       ∧ (w1 self = 1 → w2 self = 0 → w3 self = 0 →
          v = c ∧ computed self = [Cosine]).
Proof.
  intros Hc Hi Ha.
  destruct (AngleLoss_call_closed_form self y_true y_pred similar_matrix c i a
              Hc Hi Ha) as (v & Hcall & Hv).
  exists v. split; [done|]. split; [done|].
  split; [apply computed_positive|]. split.
  - intros H1 H2 H3. rewrite Hv.
    by rewrite !contribution_nonneg_weight.
  - intros H1 H2 H3. split.
    + rewrite Hv, contribution_nonneg_weight, !contribution_nonpos_weight by lra.
      rewrite H1. lra.
    + unfold computed. rewrite H1, H2, H3.
      destruct (Rlt_dec 0 1); [|lra]. destruct (Rlt_dec 0 0); [lra|]. done.
Qed.

Lemma AngleLoss_call_sums_positive_terms_witness :
  ∃ v, AngleLoss_call (AngleLoss_init 1 0 0)
         [[0]; [0]; [1]; [1]] [[1]; [1]; [1]; [1]] None []
       = (Ok v, computed (AngleLoss_init 1 0 0))
       ∧ v = contribution 1 (ln (2 + 3 * exp (- 1e12))) + contribution 0 0
             + contribution 0 0
       ∧ (∀ t, t ∈ computed (AngleLoss_init 1 0 0)
               ↔ 0 < weight (AngleLoss_init 1 0 0) t)
       ∧ (0 <= 1 → 0 <= 0 → 0 <= 0 →
          v = 1 * ln (2 + 3 * exp (- 1e12)) + 0 * 0 + 0 * 0)
       ∧ (1 = 1 → 0 = 0 → 0 = 0 →
          v = ln (2 + 3 * exp (- 1e12)) ∧ computed (AngleLoss_init 1 0 0) = [Cosine]).
Proof.
  apply (AngleLoss_call_sums_positive_terms (AngleLoss_init 1 0 0)
           [[0]; [0]; [1]; [1]] [[1]; [1]; [1]; [1]] None
           (ln (2 + 3 * exp (- 1e12))) 0 0).
  - intros _. apply cosine_loss_gold01.
  - simpl. lra.
  - simpl. lra.
Defined.

(** C3 (as stated) fails for a negative weight: with weights -1, 0, 0 the
    guard [w1 > 0] skips the cosine term and the call returns 0, whereas the
    weighted sum that leaves out only the terms of weight 0 is
    [-1 · cosine_loss], which is negative here. *)
Lemma negative_weight_term_is_skipped :
  AngleLoss_call (AngleLoss_init (-1) 0 0)
    [[0]; [0]; [1]; [1]] [[1]; [1]; [1]; [1]] None [] = (Ok 0, [])
  ∧ spec_total (AngleLoss_init (-1) 0 0)
      [[0]; [0]; [1]; [1]] [[1]; [1]; [1]; [1]] None
    = Ok (- ln (2 + 3 * exp (- 1e12)))
  ∧ - ln (2 + 3 * exp (- 1e12)) < 0.
Proof.
  split; [|split].
  - unfold AngleLoss_call, mbind, traced_bind, mret, traced_ret. simpl.
    destruct (Rlt_dec 0 (-1)); [lra|]. destruct (Rlt_dec 0 0); [lra|]. done.
  - unfold spec_total, AngleLoss_init. cbn [w1 w2 w3 cosine_tau].
    destruct (Req_dec_T (-1) 0); [lra|]. destruct (Req_dec_T 0 0); [|lra].
    rewrite cosine_loss_gold01. simpl. f_equal. lra.
  - pose proof masked_terms_positive. pose proof ln2_positive. lra.
Qed.

(** C10: with all three weights at most 0 no term is computed and the call
    returns 0. *)
Theorem AngleLoss_call_nonpositive_weights self y_true y_pred similar_matrix :
  w1 self <= 0 → w2 self <= 0 → w3 self <= 0 →
  AngleLoss_call self y_true y_pred similar_matrix [] = (Ok 0, []).
Proof.
  intros H1 H2 H3.
  unfold AngleLoss_call, mbind, traced_bind, mret, traced_ret.
  destruct (Rlt_dec 0 (w1 self)); [lra|].
  destruct (Rlt_dec 0 (w2 self)); [lra|].
  destruct (Rlt_dec 0 (w3 self)); [lra|]. done.
Qed.

Lemma AngleLoss_call_nonpositive_weights_witness :
  AngleLoss_call (AngleLoss_init 0 (-1) (-1 / 2))
    [[0]; [0]; [1]; [1]] [[1; 0]; [1; 0]; [0; 1]; [1; 1]] None [] = (Ok 0, []).
Proof.
  apply (AngleLoss_call_nonpositive_weights (AngleLoss_init 0 (-1) (-1 / 2)));
    simpl; lra.
Defined.

End Loss.

(** ** Tokenized pairs *)

(** The output of the tokenizer for one text (a [BatchEncoding]). *)
Record encoding : Type := {
  enc_input_ids : list Z;
  enc_attention_mask : list Z;
  enc_token_type_ids : option (list Z)
}.

(** The dictionary [AngleDataTokenizer.__call__] returns and the collator
    reads: one concatenated text pair. *)
Record feature : Type := {
  input_ids : list Z;
  attention_mask : list Z;
  token_type_ids : option (list Z);
  labels : list Z;
  seperate_ids : list Z
}.

(** [l[-1]] *)
Definition index_last {A} (l : list A) : result A :=
  match last l with
  | Some x => Ok x
  | None => Err IndexError
  end.

(** [l.index(x)]; [None] stands for [ValueError]. *)
Definition index_of (x : Z) (l : list Z) : option nat :=
  fst <$> list_find (λ y, y = x) l.

(** [l[:k]] for a stop that may be negative. *)
Definition slice_to {A} (l : list A) (k : Z) : list A :=
  if decide (k < 0) then take (Z.to_nat (Z.max 0 (Z.of_nat (length l) + k))) l
  else take (Z.to_nat k) l.

(** ** The tokenization adapter: the template-truncation guard *)

Module Tokenizer.

(** What the adapter prints. *)
Inductive message : Type :=
| BadData (token_ids prompt_ids : list Z)
| FixedIt
| NewData (token_ids prompt_ids : list Z)
| FailedToFix.

(** The backward loop of [fix_bad_data] over the tokens not yet visited, last
    one first: it stops at the first token that is not in the template. *)
Fixpoint scan_back (rev_token_ids prompt_ids : list Z) (bad_index : Z) : Z :=
  match rev_token_ids with
  | [] => bad_index
  | t :: rest =>
      match index_of t prompt_ids with
      | Some k => scan_back rest prompt_ids (Z.of_nat k)
      | None => bad_index
      end
  end.

Definition fix_bad_data (token_ids prompt_ids : list Z) : list Z :=
  let bad_index := scan_back (reverse token_ids) prompt_ids (-1) in
  if decide (bad_index = -1) then token_ids
  else
    let to_fix_ids := drop (Z.to_nat bad_index) prompt_ids in
    slice_to token_ids (Z.of_nat (length token_ids) - Z.of_nat (length to_fix_ids))
    ++ to_fix_ids.

Definition set_input_ids (tok : encoding) (ids : list Z) : encoding :=
  {| enc_input_ids := ids;
     enc_attention_mask := enc_attention_mask tok;
     enc_token_type_ids := enc_token_type_ids tok |}.

(** The guard on one side of the pair.  The repaired sequence is stored
    before it is checked; [AssertionError] is the only exception caught. *)
Definition check_template_end (tok : encoding) (prompt_ids : list Z)
    : result (encoding * list message) :=
  t ← index_last (enc_input_ids tok);
  p ← index_last prompt_ids;
  if decide (t ≠ p) then
    let bad := BadData (enc_input_ids tok) prompt_ids in
    let tok := set_input_ids tok (fix_bad_data (enc_input_ids tok) prompt_ids) in
    if decide (length (enc_input_ids tok) = length (enc_attention_mask tok)) then
      t' ← index_last (enc_input_ids tok);
      p' ← index_last prompt_ids;
      if decide (t' = p')
      then Ok (tok, [bad; FixedIt; NewData (enc_input_ids tok) prompt_ids])
      else Ok (tok, [bad; FailedToFix])
    else Ok (tok, [bad; FailedToFix])
  else Ok (tok, []).

(** [tok[key] = val + tok2[key]] for the optional key. *)
Definition concat_token_type_ids (t1 t2 : option (list Z)) : result (option (list Z)) :=
  match t1, t2 with
  | Some a, Some b => Ok (Some (a ++ b))
  | Some _, None => Err KeyError
  | None, _ => Ok None
  end.

(** [AngleDataTokenizer.__call__] from the second tokenization on: [tok1] and
    [tok2] are what the tokenizer returned for the two texts, [prompt_ids] the
    tokens of the template when one is configured. *)
Definition tokenize_pair (prompt_ids : option (list Z)) (tok1 tok2 : encoding)
    (label : Z) : result (feature * list message) :=
  '(tok1, log1) ← match prompt_ids with
                  | Some p => check_template_end tok1 p
                  | None => Ok (tok1, [])
                  end;
  '(tok2, log2) ← match prompt_ids with
                  | Some p => check_template_end tok2 p
                  | None => Ok (tok2, [])
                  end;
  tt_ids ← concat_token_type_ids (enc_token_type_ids tok1) (enc_token_type_ids tok2);
  Ok ({| input_ids := enc_input_ids tok1 ++ enc_input_ids tok2;
         attention_mask := enc_attention_mask tok1 ++ enc_attention_mask tok2;
         token_type_ids := tt_ids;
         labels := [label];
         seperate_ids := replicate (length (enc_input_ids tok1)) 0
                         ++ replicate (length (enc_input_ids tok2)) 1 |},
      log1 ++ log2).

Lemma index_of_lt (x : Z) (l : list Z) (k : nat) :
  index_of x l = Some k → (k < length l)%nat.
Proof.
  unfold index_of. destruct (list_find _ l) as [[i y]|] eqn:Hf; [|done].
  intros [= <-]. apply list_find_Some in Hf as (Hi & _). by eapply lookup_lt_Some.
Qed.

Lemma scan_back_range (r p : list Z) (b : Z) :
  scan_back r p b = b ∨ 0 ≤ scan_back r p b < Z.of_nat (length p).
Proof.
  revert b. induction r as [|t r IH]; intros b; simpl; [by left|].
  destruct (index_of t p) as [k|] eqn:Hk; [|by left].
  right. apply index_of_lt in Hk.
  destruct (IH (Z.of_nat k)) as [-> | ?]; lia.
Qed.

Lemma last_drop {A} (l : list A) (k : nat) :
  (k < length l)%nat → last (drop k l) = last l.
Proof.
  intros Hk. rewrite !last_lookup, lookup_drop, length_drop. f_equal. lia.
Qed.

(** Either nothing is changed, or the sequence now ends with a non-empty
    suffix of the template. *)
Lemma fix_bad_data_cases (token_ids prompt_ids : list Z) :
  fix_bad_data token_ids prompt_ids = token_ids
  ∨ ∃ k, (k < length prompt_ids)%nat
       ∧ fix_bad_data token_ids prompt_ids
         = slice_to token_ids
             (Z.of_nat (length token_ids) - Z.of_nat (length (drop k prompt_ids)))
           ++ drop k prompt_ids.
Proof.
  unfold fix_bad_data.
  destruct (scan_back_range (reverse token_ids) prompt_ids (-1)) as [-> | Hr].
  - left. by rewrite decide_True.
  - case_decide; [by left|]. right.
    exists (Z.to_nat (scan_back (reverse token_ids) prompt_ids (-1))).
    split; [lia | done].
Qed.

Lemma fix_bad_data_last (token_ids prompt_ids : list Z) (p : Z) :
  last prompt_ids = Some p →
  fix_bad_data token_ids prompt_ids = token_ids
  ∨ last (fix_bad_data token_ids prompt_ids) = Some p.
Proof.
  intros Hp. destruct (fix_bad_data_cases token_ids prompt_ids) as [? | (k & Hk & ->)];
    [by left|].
  right. rewrite last_app, last_drop, Hp by done. done.
Qed.

(** The failure path of the guard: when, after the attempted repair, the
    lengths of input_ids and attention_mask disagree or the final token
    still differs from the template's, the guard raises nothing, prints the
    failure warning and is left with the sequence the repair returned, which
    was stored before the checks; that sequence is the original one whenever
    the final token still differs. *)
Theorem failed_repair_keeps_repair_output (tok : encoding) (prompt_ids : list Z)
    (t p : Z) :
  last (enc_input_ids tok) = Some t → last prompt_ids = Some p → t ≠ p →
  length (fix_bad_data (enc_input_ids tok) prompt_ids) ≠ length (enc_attention_mask tok)
  ∨ last (fix_bad_data (enc_input_ids tok) prompt_ids) ≠ Some p →
  check_template_end tok prompt_ids
  = Ok (set_input_ids tok (fix_bad_data (enc_input_ids tok) prompt_ids),
        [BadData (enc_input_ids tok) prompt_ids; FailedToFix])
  ∧ (last (fix_bad_data (enc_input_ids tok) prompt_ids) ≠ Some p →
     fix_bad_data (enc_input_ids tok) prompt_ids = enc_input_ids tok).
Proof.
  intros Ht Hp Hne Hfail.
  assert (Hkeep : last (fix_bad_data (enc_input_ids tok) prompt_ids) ≠ Some p →
                  fix_bad_data (enc_input_ids tok) prompt_ids = enc_input_ids tok).
  { intros Hl. by destruct (fix_bad_data_last (enc_input_ids tok) prompt_ids p Hp). }
  split; [|done].
  unfold check_template_end, index_last. rewrite Ht, Hp. simpl.
  rewrite decide_True by done. simpl.
  case_decide as Hlen; [|done].
  destruct Hfail as [? | Hl]; [done|].
  unfold set_input_ids in *. simpl in *.
  rewrite (Hkeep Hl), Ht. simpl.
  by rewrite decide_False by done.
Qed.

Lemma failed_repair_keeps_repair_output_witness :
  check_template_end
    {| enc_input_ids := [5; 6]; enc_attention_mask := [1; 1];
       enc_token_type_ids := None |} [7; 8]
  = Ok (set_input_ids
          {| enc_input_ids := [5; 6]; enc_attention_mask := [1; 1];
             enc_token_type_ids := None |}
          (fix_bad_data [5; 6] [7; 8]),
        [BadData [5; 6] [7; 8]; FailedToFix])
  ∧ (last (fix_bad_data [5; 6] [7; 8]) ≠ Some 8 →
     fix_bad_data [5; 6] [7; 8] = [5; 6]).
Proof.
  apply (failed_repair_keeps_repair_output
           {| enc_input_ids := [5; 6]; enc_attention_mask := [1; 1];
              enc_token_type_ids := None |} [7; 8] 6 8).
  - reflexivity.
  - reflexivity.
  - lia.
  - right. vm_compute. discriminate.
Defined.

(** C6: the guard misses the failure path it attempts.  The output of
    [fix_bad_data] is stored in [input_ids] before the two assertions run,
    and the [except] branch only prints.  A sequence [7, 8] cut short under
    the template [7, 8, 9, 10] is replaced by the whole template, the length
    assertion fails against the mask of length 2, the failure is printed,
    and the sequence kept is the spliced one of length 4, not the original
    one the claim keeps. *)
Lemma failed_repair_does_not_keep_original :
  check_template_end
    {| enc_input_ids := [7; 8]; enc_attention_mask := [1; 1];
       enc_token_type_ids := None |} [7; 8; 9; 10]
  = Ok ({| enc_input_ids := [7; 8; 9; 10]; enc_attention_mask := [1; 1];
           enc_token_type_ids := None |},
        [BadData [7; 8] [7; 8; 9; 10]; FailedToFix])
  ∧ [7; 8; 9; 10] ≠ [7; 8].
Proof. split; [vm_compute; reflexivity | discriminate]. Qed.

End Tokenizer.

(** ** The batch collator *)

Module Collator.

(** One row of the batch before padding: a text of a pair. *)
Record new_feature : Type := {
  nf_input_ids : list Z;
  nf_attention_mask : list Z;
  nf_token_type_ids : option (list Z);
  nf_labels : list Z
}.

(** The collated batch.  The entries of [similar_matrix] are the floats 0.0
    and 1.0, written as integers. *)
Record batch : Type := {
  b_input_ids : list (list Z);
  b_attention_mask : list (list Z);
  b_token_type_ids : option (list (list Z));
  b_labels : list (list Z);
  b_similar_matrix : list (list Z)
}.

(** [enumerate(l, start)] *)
Fixpoint enumerate {A} (start : nat) (l : list A) : list (nat * A) :=
  match l with
  | [] => []
  | x :: l' => (start, x) :: enumerate (S start) l'
  end.

(** [d[key].append(pos)] on a [defaultdict(list)] *)
Definition dict_append (key : list Z) (pos : nat)
    (d : gmap (list Z) (list nat)) : gmap (list Z) (list nat) :=
  <[key := default [] (d !! key) ++ [pos]]> d.

(** The two rows a feature is split into at [first_one_idx]. *)
Definition first_row (k : nat) (f : feature) : new_feature :=
  {| nf_input_ids := take k (input_ids f);
     nf_attention_mask := take k (attention_mask f);
     nf_token_type_ids := take k <$> token_type_ids f;
     nf_labels := labels f |}.

Definition second_row (k : nat) (f : feature) : new_feature :=
  {| nf_input_ids := drop k (input_ids f);
     nf_attention_mask := drop k (attention_mask f);
     nf_token_type_ids := drop k <$> token_type_ids f;
     nf_labels := labels f |}.

Definition loop_state : Type :=
  bool * list new_feature * gmap (list Z) (list nat).

(** The body of the loop over [enumerate(features, 1)]. *)
Definition split_feature (st : loop_state) (x : nat * feature) : result loop_state :=
  let '(_, new_features, batch_text_set) := st in
  let '(i, f) := x in
  if decide (length (seperate_ids f) = length (input_ids f)
             ∧ length (input_ids f) = length (attention_mask f)) then
    has_token_type_ids ←
      match token_type_ids f with
      | Some type_ids =>
          if decide (length type_ids = length (input_ids f)) then Ok true
          else Err AssertionError
      | None => Ok false
      end;
    match index_of 1 (seperate_ids f) with
    | Some first_one_idx =>
        let new_feature := first_row first_one_idx f in
        let new_features := new_features ++ [new_feature] in
        let batch_text_set :=
          dict_append (nf_input_ids new_feature) (2 * (i - 1)) batch_text_set in
        let new_feature := second_row first_one_idx f in
        let new_features := new_features ++ [new_feature] in
        let batch_text_set :=
          dict_append (nf_input_ids new_feature) (2 * (i - 1) + 1) batch_text_set in
        Ok (has_token_type_ids, new_features, batch_text_set)
    | None => Err ValueError
    end
  else Err AssertionError.

(** The splitting loop, from the value [has_token_type_ids] has before it. *)
Definition split_features (has_token_type_ids : bool) (features : list feature)
    : result loop_state :=
  for_each split_feature (has_token_type_ids, [], ∅) (enumerate 1 features).

(** [np.zeros((rows, cols))] *)
Definition zeros (rows cols : nat) : list (list Z) := replicate rows (replicate cols 0).

(** [m[i, j] = v] on a numpy array; an index out of range raises. *)
Definition mat_set (m : list (list Z)) (i j : nat) (v : Z) : result (list (list Z)) :=
  match m !! i with
  | Some row =>
      if decide (j < length row)%nat then Ok (<[i := <[j := v]> row]> m)
      else Err IndexError
  | None => Err IndexError
  end.

(** The two inner loops over the positions that share one text. *)
Definition mark_ids (ids : list nat) (m : list (list Z)) : result (list (list Z)) :=
  for_each (λ m i,
    for_each (λ m j, if decide (i = j) then Ok m else mat_set m i j 1) m ids) m ids.

(** The loop over [batch_text_set.items()]. *)
Definition mark_similar (batch_text_set : gmap (list Z) (list nat))
    (m : list (list Z)) : result (list (list Z)) :=
  for_each (λ m '(_, ids),
    if bool_decide (ids ≠ []) then mark_ids ids m else Ok m)
    m (map_to_list batch_text_set).

(** [torch.Tensor(rows)]: the rows must have one length. *)
Definition tensor_of_rows (rows : list (list Z)) : result (list (list Z)) :=
  match rows with
  | [] => Ok []
  | r :: _ =>
      if decide (Forall (λ r', length r' = length r) rows) then Ok rows
      else Err ValueError
  end.

Section Call.

(** [self.tokenizer.pad] with the collator's padding settings, and the
    [compute_similar_matrix] field. *)
Variable pad : list (list Z) → list (list Z).
Variable compute_similar_matrix : bool.

Definition call (features : list feature) : result batch :=
  first ← match features with
          | f :: _ => Ok f
          | [] => Err IndexError
          end;
  let has_token_type_ids := bool_decide (is_Some (token_type_ids first)) in
  '(has_token_type_ids, new_features, batch_text_set) ←
    split_features has_token_type_ids features;
  let similar_matrix := zeros (length new_features) (length new_features) in
  similar_matrix ← (if compute_similar_matrix
                    then mark_similar batch_text_set similar_matrix
                    else Ok similar_matrix);
  let input_ids := pad (nf_input_ids <$> new_features) in
  let attention_mask := pad (nf_attention_mask <$> new_features) in
  token_type_ids ←
    (if has_token_type_ids : bool then
       type_ids ← mapM (λ nf, match nf_token_type_ids nf with
                              | Some ids => Ok ids
                              | None => Err KeyError
                              end) new_features;
       Ok (Some (pad type_ids))
     else Ok None);
  labels ← tensor_of_rows (nf_labels <$> new_features);
  Ok {| b_input_ids := input_ids;
        b_attention_mask := attention_mask;
        b_token_type_ids := token_type_ids;
        b_labels := labels;
        b_similar_matrix := similar_matrix |}.

End Call.

(** *** The similarity matrix *)

Definition get (m : list (list Z)) (i j : nat) : Z :=
  default 0 (entry m i j).

Definition square (n : nat) (m : list (list Z)) : Prop :=
  length m = n ∧ Forall (λ row, length row = n) m.

Lemma zeros_square (n : nat) : square n (zeros n n).
Proof.
  split; [apply length_replicate|].
  apply Forall_replicate, length_replicate.
Qed.

Lemma get_zeros (n a b : nat) : get (zeros n n) a b = 0.
Proof.
  unfold get, entry, zeros.
  destruct (replicate n (replicate n 0) !! a) as [row|] eqn:Ha; [|done].
  apply lookup_replicate in Ha as [-> _]. simpl.
  destruct (replicate n 0 !! b) as [v|] eqn:Hb; [|done].
  by apply lookup_replicate in Hb as [-> _].
Qed.

Lemma square_entry (n : nat) (m : list (list Z)) (a b : nat) :
  square n m → (a < n)%nat → (b < n)%nat →
  entry m a b = Some (get m a b).
Proof.
  intros [Hlen Hrows] Ha Hb. unfold get, entry.
  destruct (lookup_lt_is_Some_2 m a) as [row Hrow]; [lia|].
  rewrite Hrow. simpl.
  assert (length row = n).
  { eapply (proj1 (Forall_forall _ _) Hrows), list_elem_of_lookup_2, Hrow. }
  destruct (lookup_lt_is_Some_2 row b) as [v Hv]; [lia|].
  by rewrite Hv.
Qed.

Lemma mat_set_spec (n : nat) (m : list (list Z)) (i j : nat) (v : Z) :
  square n m → (i < n)%nat → (j < n)%nat →
  ∃ m', mat_set m i j v = Ok m' ∧ square n m'
        ∧ ∀ a b, get m' a b = if decide (a = i ∧ b = j) then v else get m a b.
Proof.
  intros [Hlen Hrows] Hi Hj. unfold mat_set.
  destruct (lookup_lt_is_Some_2 m i) as [row Hrow]; [lia|].
  assert (Hr : length row = n).
  { eapply (proj1 (Forall_forall _ _) Hrows), list_elem_of_lookup_2, Hrow. }
  rewrite Hrow, decide_True by lia.
  eexists. split; [done|]. split.
  - split; [by rewrite length_insert|].
    apply Forall_insert; [done|]. by rewrite length_insert.
  - intros a b. unfold get, entry.
    destruct (decide (a = i)) as [->|Hne].
    + rewrite list_lookup_insert_eq by lia. simpl. rewrite Hrow. simpl.
      destruct (decide (b = j)) as [->|Hneb].
      * rewrite list_lookup_insert_eq by lia. by rewrite decide_True.
      * rewrite list_lookup_insert_ne by done.
        by rewrite decide_False by (by intros [_ ?]).
    + rewrite list_lookup_insert_ne by done.
      by rewrite decide_False by (by intros [? _]).
Qed.

Lemma mark_row_spec (n i : nat) (js : list nat) (m : list (list Z)) :
  square n m → (i < n)%nat → Forall (λ j, j < n)%nat js →
  ∃ m', for_each (λ m j, if decide (i = j) then Ok m else mat_set m i j 1) m js
        = Ok m'
        ∧ square n m'
        ∧ ∀ a b, get m' a b
                 = if decide (a = i ∧ b ∈ js ∧ a ≠ b) then 1 else get m a b.
Proof.
  intros Hsq Hi Hjs. revert m Hsq.
  induction Hjs as [|j js Hj Hjs IH]; intros m Hsq.
  - exists m. split; [done|]. split; [done|]. intros a b.
    rewrite decide_False; [done|]. intros (_ & Hb & _). by apply elem_of_nil in Hb.
  - simpl. destruct (decide (i = j)) as [<-|Hij].
    + destruct (IH m Hsq) as (m' & Hrun & Hsq' & Hget).
      exists m'. split; [done|]. split; [done|]. intros a b. rewrite Hget.
      repeat case_decide; try done; exfalso; set_unfold; intuition congruence.
    + destruct (mat_set_spec n m i j 1 Hsq Hi Hj) as (m1 & -> & Hsq1 & Hget1).
      destruct (IH m1 Hsq1) as (m' & Hrun & Hsq' & Hget).
      exists m'. split; [done|]. split; [done|]. intros a b.
      rewrite Hget, Hget1.
      repeat case_decide; try done; exfalso; set_unfold; intuition congruence.
Qed.

Lemma mark_rows_spec (n : nat) (ids rows : list nat) (m : list (list Z)) :
  square n m → Forall (λ j, j < n)%nat ids → Forall (λ i, i < n)%nat rows →
  ∃ m', for_each (λ m i,
          for_each (λ m j, if decide (i = j) then Ok m else mat_set m i j 1) m ids)
          m rows = Ok m'
        ∧ square n m'
        ∧ ∀ a b, get m' a b
                 = if decide (a ∈ rows ∧ b ∈ ids ∧ a ≠ b) then 1 else get m a b.
Proof.
  intros Hsq Hids Hrows. revert m Hsq.
  induction Hrows as [|i rows Hi Hrows IH]; intros m Hsq.
  - exists m. split; [done|]. split; [done|]. intros a b.
    rewrite decide_False; [done|]. intros (Ha & _). by apply elem_of_nil in Ha.
  - simpl. destruct (mark_row_spec n i ids m Hsq Hi Hids) as (m1 & -> & Hsq1 & Hget1).
    destruct (IH m1 Hsq1) as (m' & Hrun & Hsq' & Hget).
    exists m'. split; [done|]. split; [done|]. intros a b.
    rewrite Hget, Hget1.
    repeat case_decide; try done; exfalso; set_unfold; intuition congruence.
Qed.

(** Two distinct positions listed under one text. *)
Definition listed_together (groups : list (list Z * list nat)) (a b : nat) : Prop :=
  Exists (λ g, a ∈ g.2 ∧ b ∈ g.2 ∧ a ≠ b) groups.

Lemma mark_groups_spec (n : nat) (groups : list (list Z * list nat))
    (m : list (list Z)) :
  square n m → Forall (λ g, Forall (λ i, i < n)%nat g.2) groups →
  ∃ m', for_each (λ m '(_, ids),
          if bool_decide (ids ≠ []) then mark_ids ids m else Ok m) m groups = Ok m'
        ∧ square n m'
        ∧ ∀ a b, get m' a b
                 = if decide (listed_together groups a b) then 1 else get m a b.
Proof.
  intros Hsq Hgroups. revert m Hsq.
  induction Hgroups as [|[key ids] groups Hids Hgroups IH]; intros m Hsq.
  - exists m. split; [done|]. split; [done|]. intros a b.
    rewrite decide_False; [done|]. intros H. by apply Exists_nil in H.
  - simpl in Hids.
    assert (∃ m1, (if bool_decide (ids ≠ []) then mark_ids ids m else Ok m)
                  = Ok m1
                  ∧ square n m1
                  ∧ ∀ a b, get m1 a b
                           = if decide (a ∈ ids ∧ b ∈ ids ∧ a ≠ b) then 1
                             else get m a b) as (m1 & Hm1 & Hsq1 & Hget1).
    { case_bool_decide as Hne.
      - by apply mark_rows_spec.
      - assert (ids = []) as -> by (by destruct ids).
        exists m. split; [done|]. split; [done|]. intros a b.
        rewrite decide_False; [done|]. intros (Ha & _). by apply elem_of_nil in Ha. }
    cbn [for_each]. rewrite Hm1. cbn [mbind result_bind].
    destruct (IH m1 Hsq1) as (m' & Hrun & Hsq' & Hget).
    exists m'. split; [done|]. split; [done|]. intros a b.
    rewrite Hget, Hget1.
    assert (Hiff : listed_together ((key, ids) :: groups) a b
                   ↔ (a ∈ ids ∧ b ∈ ids ∧ a ≠ b) ∨ listed_together groups a b).
    { unfold listed_together. by rewrite Exists_cons. }
    repeat case_decide; try done; exfalso; tauto.
Qed.

(** *** The splitting loop *)

(** What the loop needs of a feature. *)
Definition valid_feature (f : feature) : Prop :=
  length (seperate_ids f) = length (input_ids f)
  ∧ length (input_ids f) = length (attention_mask f)
  ∧ (∀ type_ids, token_type_ids f = Some type_ids →
       length type_ids = length (input_ids f))
  ∧ 1 ∈ seperate_ids f.

(** The position of the first segment id equal to 1 (0 when there is none). *)
Definition split_index (f : feature) : nat :=
  default 0%nat (index_of 1 (seperate_ids f)).

(** The rows of a list of features: two per feature, in order. *)
Definition rows_of (features : list feature) : list new_feature :=
  features ≫= λ f, [first_row (split_index f) f; second_row (split_index f) f].

(** The dictionary lists under each text exactly the rows that hold it. *)
Definition lists_positions (rows : list (list Z))
    (d : gmap (list Z) (list nat)) : Prop :=
  ∀ key p, p ∈ default [] (d !! key) ↔ rows !! p = Some key.

Lemma index_of_first (x : Z) (l : list Z) (k : nat) :
  index_of x l = Some k ↔
  l !! k = Some x ∧ ∀ j, (j < k)%nat → l !! j ≠ Some x.
Proof.
  unfold index_of. split.
  - destruct (list_find _ l) as [[i y]|] eqn:Hf; [|done].
    intros [= <-]. apply list_find_Some in Hf as (Hi & -> & Hbefore).
    split; [done|]. intros j Hj Hlook. by eapply Hbefore.
  - intros [Hk Hbefore].
    assert (Hf : list_find (λ y, y = x) l = Some (k, x)).
    { apply list_find_Some. split; [done|]. split; [done|].
      intros j y Hy Hj ->. by eapply Hbefore. }
    by rewrite Hf.
Qed.

Lemma index_of_is_Some (x : Z) (l : list Z) :
  x ∈ l ↔ is_Some (index_of x l).
Proof.
  unfold index_of. split.
  - intros Hin. destruct (list_find_elem_of (λ y, y = x) l x Hin eq_refl) as [[i y] Hf].
    rewrite Hf. by eexists.
  - intros [k Hk]. destruct (list_find _ l) as [[i y]|] eqn:Hf; [|done].
    apply list_find_Some in Hf as (Hi & -> & _).
    by eapply list_elem_of_lookup_2.
Qed.

Lemma lists_positions_append (rows : list (list Z)) (d : gmap (list Z) (list nat))
    (row : list Z) :
  lists_positions rows d →
  lists_positions (rows ++ [row]) (dict_append row (length rows) d).
Proof.
  intros Hd key p. unfold dict_append. specialize (Hd key p).
  destruct (decide (key = row)) as [->|Hne].
  - rewrite lookup_insert_eq. simpl. rewrite elem_of_app, list_elem_of_singleton, Hd.
    split.
    + intros [Hp | ->].
      * by rewrite lookup_app_l by (by eapply lookup_lt_Some).
      * by rewrite list_lookup_middle.
    + intros Hp. destruct (decide (p < length rows)%nat).
      * left. by rewrite lookup_app_l in Hp.
      * right. apply lookup_lt_Some in Hp. rewrite length_app in Hp. simpl in Hp. lia.
  - rewrite lookup_insert_ne by done. rewrite Hd. split.
    + intros Hp. by rewrite lookup_app_l by (by eapply lookup_lt_Some).
    + intros Hp. destruct (decide (p < length rows)%nat).
      * by rewrite lookup_app_l in Hp.
      * assert (p = length rows) as ->.
        { apply lookup_lt_Some in Hp. rewrite length_app in Hp. simpl in Hp. lia. }
        rewrite list_lookup_middle in Hp by done. congruence.
Qed.

Lemma lists_positions_empty : lists_positions [] ∅.
Proof.
  intros key p. rewrite lookup_empty. simpl. rewrite lookup_nil.
  split; [by intros ?%elem_of_nil | done].
Qed.

(** The value of [has_token_type_ids] after the loop: that of the last feature. *)
Definition final_flag (b : bool) (features : list feature) : bool :=
  match last features with
  | Some f => bool_decide (is_Some (token_type_ids f))
  | None => b
  end.

Lemma final_flag_cons (b : bool) (f : feature) (features : list feature) :
  final_flag b (f :: features)
  = final_flag (bool_decide (is_Some (token_type_ids f))) features.
Proof.
  unfold final_flag. destruct features as [|g features]; [done|].
  rewrite last_cons_cons.
  destruct (last (g :: features)) eqn:Hlast; [done|].
  by apply last_None in Hlast.
Qed.

Lemma split_feature_valid (b : bool) (nfs : list new_feature)
    (d : gmap (list Z) (list nat)) (i : nat) (f : feature) :
  valid_feature f →
  split_feature (b, nfs, d) (i, f)
  = Ok (bool_decide (is_Some (token_type_ids f)),
        (nfs ++ [first_row (split_index f) f]) ++ [second_row (split_index f) f],
        dict_append (drop (split_index f) (input_ids f)) (2 * (i - 1) + 1)
          (dict_append (take (split_index f) (input_ids f)) (2 * (i - 1)) d)).
Proof.
  intros (Hs & Ha & Ht & Hone). unfold split_feature, split_index.
  rewrite decide_True by done.
  apply index_of_is_Some in Hone as [k Hk]. rewrite Hk.
  destruct (token_type_ids f) as [type_ids|] eqn:Htt.
  - rewrite decide_True by (by apply Ht). done.
  - done.
Qed.

Lemma split_feature_Ok_inv (st st' : loop_state) (i : nat) (f : feature) :
  split_feature st (i, f) = Ok st' → valid_feature f.
Proof.
  destruct st as [[b nfs] d]. unfold split_feature, valid_feature.
  case_decide as Hlen; [|done]. destruct Hlen as [Hs Ha].
  destruct (token_type_ids f) as [type_ids|] eqn:Htt.
  - case_decide as Ht; [|done]. simpl.
    destruct (index_of 1 (seperate_ids f)) as [k|] eqn:Hk; [|done]. intros _.
    repeat split; try done.
    + by intros ? [= <-].
    + apply index_of_is_Some. by rewrite Hk.
  - simpl. destruct (index_of 1 (seperate_ids f)) as [k|] eqn:Hk; [|done]. intros _.
    repeat split; try done. apply index_of_is_Some. by rewrite Hk.
Qed.

Lemma split_feature_no_one (st : loop_state) (i : nat) (f : feature) :
  length (seperate_ids f) = length (input_ids f) →
  length (input_ids f) = length (attention_mask f) →
  (∀ type_ids, token_type_ids f = Some type_ids →
     length type_ids = length (input_ids f)) →
  1 ∉ seperate_ids f →
  split_feature st (i, f) = Err ValueError.
Proof.
  intros Hs Ha Ht Hno. destruct st as [[b nfs] d]. unfold split_feature.
  rewrite decide_True by done.
  assert (Hidx : index_of 1 (seperate_ids f) = None).
  { destruct (index_of 1 (seperate_ids f)) as [k|] eqn:Hk; [|done].
    exfalso. apply Hno, index_of_is_Some. by rewrite Hk. }
  rewrite Hidx.
  destruct (token_type_ids f) as [type_ids|] eqn:Htt; [|done].
  by rewrite decide_True by (by apply Ht).
Qed.

Lemma split_loop_valid (features : list feature) :
  ∀ (s : nat) (b : bool) (nfs : list new_feature) (d : gmap (list Z) (list nat)),
    Forall valid_feature features →
    (1 ≤ s)%nat → length nfs = (2 * (s - 1))%nat →
    lists_positions (nf_input_ids <$> nfs) d →
    ∃ d', for_each split_feature (b, nfs, d) (enumerate s features)
          = Ok (final_flag b features, nfs ++ rows_of features, d')
          ∧ lists_positions (nf_input_ids <$> (nfs ++ rows_of features)) d'.
Proof.
  induction features as [|f features IH]; intros s b nfs d Hvalid Hs Hlen Hd.
  - exists d. unfold rows_of. simpl. by rewrite app_nil_r.
  - apply Forall_cons in Hvalid as [Hf Hvalid].
    cbn [enumerate for_each]. rewrite split_feature_valid by done.
    cbn [mbind result_bind].
    destruct (IH (S s) (bool_decide (is_Some (token_type_ids f)))
                ((nfs ++ [first_row (split_index f) f])
                   ++ [second_row (split_index f) f])
                (dict_append (drop (split_index f) (input_ids f)) (2 * (s - 1) + 1)
                   (dict_append (take (split_index f) (input_ids f)) (2 * (s - 1)) d))
                Hvalid) as (d' & Hrun & Hd').
    + lia.
    + rewrite !length_app. simpl. lia.
    + assert (E1 : (2 * (s - 1))%nat = length (nf_input_ids <$> nfs)).
      { rewrite length_fmap. lia. }
      rewrite E1.
      assert (E2 : (length (nf_input_ids <$> nfs) + 1)%nat
                   = length ((nf_input_ids <$> nfs)
                               ++ [take (split_index f) (input_ids f)])).
      { rewrite length_app. simpl. lia. }
      rewrite E2, !fmap_app.
      by apply lists_positions_append, lists_positions_append.
    + exists d'. rewrite final_flag_cons.
      assert (Hrows : ((nfs ++ [first_row (split_index f) f])
                         ++ [second_row (split_index f) f]) ++ rows_of features
                      = nfs ++ rows_of (f :: features)).
      { by rewrite <- !app_assoc. }
      by rewrite Hrows in Hrun, Hd'.
Qed.

Lemma split_loop_Ok_inv (features : list feature) :
  ∀ (s : nat) (st st' : loop_state),
    for_each split_feature st (enumerate s features) = Ok st' →
    Forall valid_feature features.
Proof.
  induction features as [|f features IH]; intros s st st' Hrun; [done|].
  cbn [enumerate for_each] in Hrun.
  destruct (split_feature st (s, f)) as [st1|e] eqn:Hstep; [|done].
  cbn [mbind result_bind] in Hrun.
  apply Forall_cons. split.
  - by eapply split_feature_Ok_inv.
  - by eapply IH.
Qed.

Lemma rows_of_cons (f : feature) (features : list feature) :
  rows_of (f :: features)
  = first_row (split_index f) f :: second_row (split_index f) f :: rows_of features.
Proof. done. Qed.

Lemma rows_of_length (features : list feature) :
  length (rows_of features) = (2 * length features)%nat.
Proof.
  induction features as [|f features IH]; [done|].
  rewrite rows_of_cons. simpl. rewrite IH. lia.
Qed.

Lemma rows_of_lookup (features : list feature) (i : nat) (f : feature) :
  features !! i = Some f →
  rows_of features !! (2 * i)%nat = Some (first_row (split_index f) f)
  ∧ rows_of features !! (2 * i + 1)%nat = Some (second_row (split_index f) f).
Proof.
  revert i. induction features as [|g features IH]; intros i Hi; [done|].
  rewrite rows_of_cons. destruct i as [|i].
  - by injection Hi as ->.
  - simpl in Hi. destruct (IH i Hi) as [H1 H2].
    replace (2 * S i)%nat with (S (S (2 * i))) by lia.
    replace (S (S (2 * i)) + 1)%nat with (S (S (2 * i + 1))) by lia.
    done.
Qed.

(** The similarity matrix of rows whose positions the dictionary lists. *)
Lemma mark_similar_spec (rows : list (list Z)) (d : gmap (list Z) (list nat))
    (n : nat) :
  length rows = n → lists_positions rows d →
  ∃ m, mark_similar d (zeros n n) = Ok m
       ∧ square n m
       ∧ ∀ a b, (a < n)%nat → (b < n)%nat →
           get m a b = if decide (a ≠ b ∧ rows !! a = rows !! b) then 1 else 0.
Proof.
  intros Hn Hd.
  assert (Hmember : ∀ key ids p, (key, ids) ∈ map_to_list d → p ∈ ids →
                      rows !! p = Some key).
  { intros key ids p Hin Hp. apply elem_of_map_to_list in Hin.
    apply Hd. by rewrite Hin. }
  destruct (mark_groups_spec n (map_to_list d) (zeros n n) (zeros_square n))
    as (m & Hrun & Hsq & Hget).
  { apply Forall_forall. intros [key ids] Hin. apply Forall_forall. intros p Hp.
    rewrite <- Hn. eapply lookup_lt_Some, Hmember; done. }
  exists m. split; [done|]. split; [done|]. intros a b Ha Hb.
  rewrite Hget, get_zeros.
  assert (Hiff : listed_together (map_to_list d) a b
                 ↔ a ≠ b ∧ rows !! a = rows !! b).
  { unfold listed_together. rewrite Exists_exists. split.
    - intros ([key ids] & Hin & Hia & Hib & Hne). split; [done|].
      by rewrite (Hmember key ids a), (Hmember key ids b).
    - intros [Hne Heq].
      destruct (lookup_lt_is_Some_2 rows a) as [key Hkey]; [lia|].
      assert (Hpa : a ∈ default [] (d !! key)) by (by apply Hd).
      assert (Hpb : b ∈ default [] (d !! key)) by (apply Hd; congruence).
      destruct (d !! key) as [ids|] eqn:Hids; [|by apply elem_of_nil in Hpa].
      exists (key, ids). split; [by apply elem_of_map_to_list|]. done. }
  repeat case_decide; try done; exfalso; tauto.
Qed.

Lemma split_features_valid (b : bool) (features : list feature) :
  Forall valid_feature features →
  ∃ d, split_features b features = Ok (final_flag b features, rows_of features, d)
       ∧ lists_positions (nf_input_ids <$> rows_of features) d.
Proof.
  intros Hvalid.
  destruct (split_loop_valid features 1 b [] ∅ Hvalid) as (d & Hrun & Hd);
    [lia | done | apply lists_positions_empty |].
  by exists d.
Qed.

Lemma tensor_of_rows_Ok (rows t : list (list Z)) :
  tensor_of_rows rows = Ok t → t = rows.
Proof.
  unfold tensor_of_rows. destruct rows as [|r rows]; [by intros [= <-]|].
  case_decide; [by intros [= <-] | done].
Qed.

Lemma tensor_of_rows_same_length (rows : list (list Z)) (n : nat) :
  Forall (λ r, length r = n) rows → tensor_of_rows rows = Ok rows.
Proof.
  intros Hrows. unfold tensor_of_rows. destruct rows as [|r rows]; [done|].
  rewrite decide_True; [done|].
  apply Forall_cons in Hrows as Hr. destruct Hr as [Hr _].
  eapply Forall_impl; [exact Hrows|]. simpl. intros; congruence.
Qed.

(** What a successful call has done. *)
Lemma call_Ok_inv (pad : list (list Z) → list (list Z)) (c : bool)
    (features : list feature) (b : batch) :
  call pad c features = Ok b →
  features ≠ [] ∧ Forall valid_feature features
  ∧ b_input_ids b = pad (nf_input_ids <$> rows_of features)
  ∧ b_attention_mask b = pad (nf_attention_mask <$> rows_of features)
  ∧ b_labels b = nf_labels <$> rows_of features
  ∧ ∃ d, lists_positions (nf_input_ids <$> rows_of features) d
         ∧ (if c
            then mark_similar d (zeros (length (rows_of features))
                                       (length (rows_of features)))
            else Ok (zeros (length (rows_of features)) (length (rows_of features))))
           = Ok (b_similar_matrix b).
Proof.
  unfold call. destruct features as [|f features]; [done|].
  cbn [mbind result_bind].
  destruct (split_features _ (f :: features)) as [[[flag rows] d]|e] eqn:Hsplit;
    [|done].
  assert (Hvalid : Forall valid_feature (f :: features)).
  { by eapply split_loop_Ok_inv. }
  destruct (split_features_valid (bool_decide (is_Some (token_type_ids f)))
              (f :: features) Hvalid) as (d' & Hrun & Hd).
  rewrite Hrun in Hsplit. injection Hsplit as <- <- <-.
  cbn [mbind result_bind].
  destruct (if c then _ else _) as [m|e] eqn:Hm; [|done].
  cbn [mbind result_bind].
  destruct (if final_flag _ _ then _ else _) as [type_ids|e]; [|done].
  cbn [mbind result_bind].
  destruct (tensor_of_rows _) as [t|e] eqn:Ht; [|done].
  cbn [mbind result_bind]. intros [= <-]. simpl.
  apply tensor_of_rows_Ok in Ht as ->.
  repeat split; try done. by exists d'.
Qed.

(** A batch as the tokenization adapter produces it: not empty, every
    feature splittable, the same keys in every feature, one label each. *)
Definition valid_batch (features : list feature) : Prop :=
  features ≠ []
  ∧ Forall valid_feature features
  ∧ (Forall (λ f, is_Some (token_type_ids f)) features
     ∨ Forall (λ f, token_type_ids f = None) features)
  ∧ Forall (λ f, length (labels f) = 1%nat) features.

Lemma Forall_rows_of (P : new_feature → Prop) (features : list feature) :
  Forall (λ f, P (first_row (split_index f) f) ∧ P (second_row (split_index f) f))
    features →
  Forall P (rows_of features).
Proof.
  induction 1 as [|f features [H1 H2] _ IH]; [constructor|].
  rewrite rows_of_cons. by repeat constructor.
Qed.

Lemma type_ids_of_rows (rows : list new_feature) :
  Forall (λ nf, is_Some (nf_token_type_ids nf)) rows →
  ∃ type_ids, mapM (λ nf, match nf_token_type_ids nf with
                          | Some ids => Ok ids
                          | None => Err KeyError
                          end) rows = Ok type_ids.
Proof.
  induction 1 as [|nf rows [ids Hids] _ [type_ids IH]].
  - by eexists.
  - exists (ids :: type_ids). unfold mapM in *.
    rewrite Hids. cbn [mbind result_bind]. by rewrite IH.
Qed.

Lemma final_flag_no_type_ids (b : bool) (features : list feature) :
  features ≠ [] → Forall (λ f, token_type_ids f = None) features →
  final_flag b features = false.
Proof.
  intros Hne Hnone. unfold final_flag.
  destruct (last features) as [f|] eqn:Hlast; [|by apply last_None in Hlast].
  assert (Hf : token_type_ids f = None).
  { eapply (proj1 (Forall_forall _ _) Hnone).
    rewrite last_lookup in Hlast. by eapply list_elem_of_lookup_2. }
  rewrite Hf. apply bool_decide_eq_false. by intros [? ?].
Qed.

Lemma call_valid (pad : list (list Z) → list (list Z)) (c : bool)
    (features : list feature) :
  valid_batch features → ∃ b, call pad c features = Ok b.
Proof.
  intros (Hne & Hvalid & Hkeys & Hlabels). unfold call.
  destruct features as [|f features]; [done|]. cbn [mbind result_bind].
  destruct (split_features_valid (bool_decide (is_Some (token_type_ids f)))
              (f :: features) Hvalid) as (d & -> & Hd).
  cbn [mbind result_bind].
  destruct (mark_similar_spec _ d (length (rows_of (f :: features)))
              (length_fmap _ _) Hd) as (m & Hm & _).
  assert (Hmatrix : ∃ m', (if c
                          then mark_similar d
                                 (zeros (length (rows_of (f :: features)))
                                        (length (rows_of (f :: features))))
                          else Ok (zeros (length (rows_of (f :: features)))
                                         (length (rows_of (f :: features)))))
                         = Ok m').
  { destruct c; by eexists. }
  destruct Hmatrix as [m' ->]. cbn [mbind result_bind].
  assert (Htypes : ∃ t, (if final_flag (bool_decide (is_Some (token_type_ids f)))
                              (f :: features)
                         then type_ids ← mapM (λ nf, match nf_token_type_ids nf with
                                                     | Some ids => Ok ids
                                                     | None => Err KeyError
                                                     end) (rows_of (f :: features));
                              Ok (Some (pad type_ids))
                         else Ok None) = Ok t).
  { destruct Hkeys as [Hsome | Hnone].
    - destruct (type_ids_of_rows (rows_of (f :: features))) as [type_ids Hids].
      { apply Forall_rows_of. eapply Forall_impl; [exact Hsome|].
        intros g [ids Hg]. simpl. rewrite Hg. split; by eexists. }
      destruct (final_flag _ _); [|by eexists].
      rewrite Hids. by eexists.
    - rewrite final_flag_no_type_ids by done. by eexists. }
  destruct Htypes as [t ->]. cbn [mbind result_bind].
  rewrite (tensor_of_rows_same_length _ 1).
  - by eexists.
  - apply Forall_fmap, Forall_rows_of. eapply Forall_impl; [exact Hlabels|]. done.
Qed.

(** *** A sample tokenizer padding and a sample batch *)

(** Right padding to the longest row with the pad token id. *)
Definition pad_longest (pad_token_id : Z) (rows : list (list Z)) : list (list Z) :=
  let n := max_list (length <$> rows) in
  (λ row, row ++ replicate (n - length row) pad_token_id) <$> rows.

Definition sample_features : list feature :=
  [ {| input_ids := [101; 7; 102; 101; 9; 102];
       attention_mask := [1; 1; 1; 1; 1; 1];
       token_type_ids := None;
       labels := [1];
       seperate_ids := [0; 0; 0; 1; 1; 1] |};
    {| input_ids := [101; 9; 102; 101; 7; 8; 102];
       attention_mask := [1; 1; 1; 1; 1; 1; 1];
       token_type_ids := None;
       labels := [0];
       seperate_ids := [0; 0; 0; 1; 1; 1; 1] |} ].

Definition sample_batch : batch :=
  {| b_input_ids := [[101; 7; 102; 0]; [101; 9; 102; 0];
                     [101; 9; 102; 0]; [101; 7; 8; 102]];
     b_attention_mask := [[1; 1; 1; 0]; [1; 1; 1; 0]; [1; 1; 1; 0]; [1; 1; 1; 1]];
     b_token_type_ids := None;
     b_labels := [[1]; [1]; [0]; [0]];
     b_similar_matrix := [[0; 0; 0; 0]; [0; 0; 1; 0]; [0; 1; 0; 0]; [0; 0; 0; 0]] |}.

Lemma sample_call : call (pad_longest 0) true sample_features = Ok sample_batch.
Proof. vm_compute. reflexivity. Qed.

Lemma sample_valid : valid_batch sample_features.
Proof.
  split; [done|]. split; [|split].
  - repeat constructor; try done; set_unfold; auto 10.
  - right. by repeat constructor.
  - by repeat constructor.
Qed.

(** *** The claims about the collator *)

(** C4: in a batch the collator produces, whose input_ids are the padded
    rows, the similarity mask is a 2N×2N matrix of zeros and ones; with
    compute_similar_matrix enabled, entry (i, j) is 1 exactly when i ≠ j and
    rows i and j hold the same input_ids sequence; with the flag disabled
    every entry is 0; in both cases the diagonal is zero and the matrix is
    symmetric. *)
Theorem similar_matrix_marks_identical_rows (pad : list (list Z) → list (list Z))
    (compute_similar_matrix : bool) (features : list feature) (b : batch) :
  call pad compute_similar_matrix features = Ok b →
  b_input_ids b = pad (nf_input_ids <$> rows_of features)
  ∧ length (b_similar_matrix b) = (2 * length features)%nat
  ∧ Forall (λ row, length row = (2 * length features)%nat) (b_similar_matrix b)
  ∧ ∀ i j, (i < 2 * length features)%nat → (j < 2 * length features)%nat →
      entry (b_similar_matrix b) i j
      = Some (if decide (compute_similar_matrix = true ∧ i ≠ j
                         ∧ (nf_input_ids <$> rows_of features) !! i
                           = (nf_input_ids <$> rows_of features) !! j)
              then 1 else 0)
      ∧ entry (b_similar_matrix b) i i = Some 0
      ∧ entry (b_similar_matrix b) i j = entry (b_similar_matrix b) j i.
Proof.
  intros Hcall.
  destruct (call_Ok_inv pad compute_similar_matrix features b Hcall)
    as (_ & _ & Hinput & _ & _ & d & Hd & Hm).
  split; [exact Hinput|].
  rewrite rows_of_length in Hm.
  assert (Hspec : square (2 * length features) (b_similar_matrix b)
                  ∧ ∀ a c, (a < 2 * length features)%nat →
                      (c < 2 * length features)%nat →
                      get (b_similar_matrix b) a c
                      = if decide (compute_similar_matrix = true ∧ a ≠ c
                                   ∧ (nf_input_ids <$> rows_of features) !! a
                                     = (nf_input_ids <$> rows_of features) !! c)
                        then 1 else 0).
  { destruct compute_similar_matrix.
    - destruct (mark_similar_spec (nf_input_ids <$> rows_of features) d
                  (2 * length features)) as (m & Hrun & Hsq & Hget);
        [by rewrite length_fmap, rows_of_length | done |].
      rewrite Hrun in Hm. injection Hm as <-. split; [done|].
      intros a c Ha Hc. rewrite Hget by done.
      repeat case_decide; try done; exfalso; tauto.
    - injection Hm as <-. split; [apply zeros_square|].
      intros a c _ _. rewrite get_zeros.
      rewrite decide_False; [done|]. by intros [? _]. }
  destruct Hspec as [Hsq Hget].
  split; [apply Hsq|]. split; [apply Hsq|].
  intros i j Hi Hj.
  rewrite !(square_entry (2 * length features)) by done.
  rewrite !Hget by done. split; [done|]. split.
  - rewrite decide_False; [done|]. by intros (_ & ? & _).
  - f_equal. repeat case_decide; try done; exfalso; intuition congruence.
Qed.

Lemma similar_matrix_marks_identical_rows_witness :
  b_input_ids sample_batch
  = pad_longest 0 (nf_input_ids <$> rows_of sample_features)
  ∧ length (b_similar_matrix sample_batch) = (2 * length sample_features)%nat
  ∧ Forall (λ row, length row = (2 * length sample_features)%nat)
      (b_similar_matrix sample_batch)
  ∧ ∀ i j, (i < 2 * length sample_features)%nat →
      (j < 2 * length sample_features)%nat →
      entry (b_similar_matrix sample_batch) i j
      = Some (if decide (true = true ∧ i ≠ j
                         ∧ (nf_input_ids <$> rows_of sample_features) !! i
                           = (nf_input_ids <$> rows_of sample_features) !! j)
              then 1 else 0)
      ∧ entry (b_similar_matrix sample_batch) i i = Some 0
      ∧ entry (b_similar_matrix sample_batch) i j
        = entry (b_similar_matrix sample_batch) j i.
Proof.
  apply (similar_matrix_marks_identical_rows (pad_longest 0) true
           sample_features sample_batch).
  vm_compute. reflexivity.
Defined.

(** C5: for N valid features the splitting loop emits exactly 2N rows; row
    2i holds the tokens (and attention mask) of record i before the first
    segment id equal to 1, row 2i+1 holds the rest, and both rows carry
    record i's labels.  A call that returns pads exactly these rows, and a
    call on a valid batch returns. *)
Theorem collator_emits_two_rows_per_record (pad : list (list Z) → list (list Z))
    (compute_similar_matrix : bool) (features : list feature) :
  Forall valid_feature features →
  (∀ flag, ∃ d, split_features flag features
                = Ok (final_flag flag features, rows_of features, d))
  ∧ length (rows_of features) = (2 * length features)%nat
  ∧ (∀ i f, features !! i = Some f →
       ∃ k row1 row2,
         index_of 1 (seperate_ids f) = Some k
         ∧ rows_of features !! (2 * i)%nat = Some row1
         ∧ rows_of features !! (2 * i + 1)%nat = Some row2
         ∧ nf_input_ids row1 = take k (input_ids f)
         ∧ nf_input_ids row2 = drop k (input_ids f)
         ∧ nf_attention_mask row1 = take k (attention_mask f)
         ∧ nf_attention_mask row2 = drop k (attention_mask f)
         ∧ nf_labels row1 = labels f
         ∧ nf_labels row2 = labels f)
  ∧ (∀ b, call pad compute_similar_matrix features = Ok b →
       b_input_ids b = pad (nf_input_ids <$> rows_of features)
       ∧ b_attention_mask b = pad (nf_attention_mask <$> rows_of features)
       ∧ b_labels b = nf_labels <$> rows_of features)
  ∧ (valid_batch features →
     ∃ b, call pad compute_similar_matrix features = Ok b).
Proof.
  intros Hvalid. split; [|split; [|split; [|split]]].
  - intros flag. destruct (split_features_valid flag features Hvalid) as (d & Hd & _).
    by exists d.
  - apply rows_of_length.
  - intros i f Hi.
    assert (Hf : valid_feature f).
    { eapply (proj1 (Forall_forall _ _) Hvalid), list_elem_of_lookup_2, Hi. }
    destruct Hf as (_ & _ & _ & Hone).
    apply index_of_is_Some in Hone as [k Hk].
    destruct (rows_of_lookup features i f Hi) as [H1 H2].
    exists k, (first_row k f), (second_row k f).
    unfold split_index in H1, H2. rewrite Hk in H1, H2. done.
  - intros b Hcall.
    by destruct (call_Ok_inv pad compute_similar_matrix features b Hcall)
      as (_ & _ & ? & ? & ? & _).
  - apply call_valid.
Qed.

Lemma collator_emits_two_rows_per_record_witness :
  (∀ flag, ∃ d, split_features flag sample_features
                = Ok (final_flag flag sample_features, rows_of sample_features, d))
  ∧ length (rows_of sample_features) = (2 * length sample_features)%nat
  ∧ (∀ i f, sample_features !! i = Some f →
       ∃ k row1 row2,
         index_of 1 (seperate_ids f) = Some k
         ∧ rows_of sample_features !! (2 * i)%nat = Some row1
         ∧ rows_of sample_features !! (2 * i + 1)%nat = Some row2
         ∧ nf_input_ids row1 = take k (input_ids f)
         ∧ nf_input_ids row2 = drop k (input_ids f)
         ∧ nf_attention_mask row1 = take k (attention_mask f)
         ∧ nf_attention_mask row2 = drop k (attention_mask f)
         ∧ nf_labels row1 = labels f
         ∧ nf_labels row2 = labels f)
  ∧ (∀ b, call (pad_longest 0) true sample_features = Ok b →
       b_input_ids b = pad_longest 0 (nf_input_ids <$> rows_of sample_features)
       ∧ b_attention_mask b
         = pad_longest 0 (nf_attention_mask <$> rows_of sample_features)
       ∧ b_labels b = nf_labels <$> rows_of sample_features)
  ∧ (valid_batch sample_features →
     ∃ b, call (pad_longest 0) true sample_features = Ok b).
Proof.
  apply (collator_emits_two_rows_per_record (pad_longest 0) true sample_features).
  apply sample_valid.
Defined.

(** C9: a batch with a feature whose segment ids contain no 1 makes the
    collator raise (a [ValueError] when that feature is the first one and its
    lengths agree), so every batch the collator returns has a 1 in every
    feature; its rows are the features cut at the split index, which is the
    position of the first segment id equal to 1, and that position exists
    exactly when the segment ids contain a 1. *)
Theorem split_requires_a_segment_one (pad : list (list Z) → list (list Z))
    (compute_similar_matrix : bool) (features : list feature) :
  (Exists (λ f, 1 ∉ seperate_ids f) features →
   ∃ e, call pad compute_similar_matrix features = Err e)
  ∧ (∀ f rest,
       features = f :: rest →
       length (seperate_ids f) = length (input_ids f) →
       length (input_ids f) = length (attention_mask f) →
       (∀ type_ids, token_type_ids f = Some type_ids →
          length type_ids = length (input_ids f)) →
       1 ∉ seperate_ids f →
       call pad compute_similar_matrix features = Err ValueError)
  ∧ (∀ b, call pad compute_similar_matrix features = Ok b →
       Forall (λ f, 1 ∈ seperate_ids f) features
       ∧ b_input_ids b
         = pad (features ≫= λ f,
                  [take (split_index f) (input_ids f);
                   drop (split_index f) (input_ids f)]))
  ∧ (∀ f, 1 ∈ seperate_ids f ↔ is_Some (index_of 1 (seperate_ids f)))
  ∧ (∀ f k, index_of 1 (seperate_ids f) = Some k → split_index f = k)
  ∧ (∀ f k, index_of 1 (seperate_ids f) = Some k ↔
       seperate_ids f !! k = Some 1
       ∧ ∀ j, (j < k)%nat → seperate_ids f !! j ≠ Some 1).
Proof.
  assert (Hok : ∀ b, call pad compute_similar_matrix features = Ok b →
                  Forall (λ f, 1 ∈ seperate_ids f) features).
  { intros b Hcall.
    destruct (call_Ok_inv pad compute_similar_matrix features b Hcall)
      as (_ & Hvalid & _).
    eapply Forall_impl; [exact Hvalid|]. by intros f (_ & _ & _ & ?). }
  split; [|split; [|split; [|split; [|split]]]].
  - intros Hex. destruct (call pad compute_similar_matrix features) as [b|e] eqn:Hcall;
      [|by exists e].
    exfalso. apply Exists_exists in Hex as (f & Hin & Hno).
    by apply Hno, (proj1 (Forall_forall _ _) (Hok b eq_refl) f).
  - intros f rest -> Hs Ha Ht Hno. unfold call, split_features.
    cbn [mbind result_bind enumerate for_each].
    by rewrite split_feature_no_one.
  - intros b Hcall. split; [exact (Hok b Hcall)|].
    destruct (call_Ok_inv pad compute_similar_matrix features b Hcall)
      as (_ & _ & -> & _).
    f_equal. clear. induction features as [|f features IH]; [done|].
    rewrite rows_of_cons, !fmap_cons, IH. done.
  - intros f. apply index_of_is_Some.
  - intros f k Hk. unfold split_index. by rewrite Hk.
  - intros f k. apply index_of_first.
Qed.

End Collator.

(** ** The pooling adapter *)

Module Pooler.

(** [l[k]] for an index that may be negative. *)
Definition index_at {A} (l : list A) (k : Z) : result A :=
  let pos := if decide (k < 0) then Z.of_nat (length l) + k else k in
  if decide (pos < 0) then Err IndexError
  else match l !! Z.to_nat pos with
       | Some x => Ok x
       | None => Err IndexError
       end.

(** The fields of a pooler; [pad_token_id] is [model.config.pad_token_id]. *)
Record Pooler : Type := {
  pooling_strategy : option string;
  is_llm : bool;
  pad_token_id : option Z
}.

(** Reductions of one sequence of token vectors (a matrix tokens × hidden). *)
Definition sum_tokens (tokens : list (list R)) : list R :=
  match tokens with
  | [] => []
  | v :: rest => foldl (zip_with Rplus) v rest
  end.

(** [torch.mean(t, dim=1)] *)
Definition mean_tokens (tokens : list (list R)) : list R :=
  (λ x, x / INR (length tokens))%R <$> sum_tokens tokens.

(** [torch.max(t, dim=1)]: an empty reduction raises. *)
Definition max_tokens (tokens : list (list R)) : result (list R) :=
  match tokens with
  | [] => Err IndexError
  | v :: rest => Ok (foldl (zip_with Rmax) v rest)
  end.

(** [eq(input_ids, pad).long().argmax(-1) - 1] on one row: the position
    before the first pad token, -1 when the row has none. *)
Definition sequence_length (pad : Z) (row : list Z) : result Z :=
  match row with
  | [] => Err IndexError
  | _ => Ok (Z.of_nat (default 0%nat (index_of pad row)) - 1)
  end.

(** [Pooler.__call__]; [hidden] is what the backbone returned for the
    inputs (the last layer's hidden states on the decoder-only path, the
    last hidden state otherwise), [input_ids] is [inputs['input_ids']]. *)
Definition call (self : Pooler) (hidden : list (list (list R)))
    (input_ids : option (list (list Z))) : result (list (list R)) :=
  if is_llm self then
    let batch_size := length hidden in
    if bool_decide (pad_token_id self = None ∧ batch_size ≠ 1%nat)
    then Err ValueError
    else
      sequence_lengths ←
        match pad_token_id self, input_ids with
        | Some pad, Some ids =>
            if decide (length ids = batch_size)
            then mapM (sequence_length pad) ids
            else Err IndexError
        | _, _ => Ok (replicate batch_size (-1))
        end;
      mapM (λ '(tokens, k), index_at tokens k) (zip hidden sequence_lengths)
  else
    let outputs := hidden in
    if decide (pooling_strategy self = Some "cls") then
      mapM (λ tokens, index_at tokens 0) outputs
    else if decide (pooling_strategy self = Some "cls_avg") then
      mapM (λ tokens, cls ← index_at tokens 0;
              Ok ((λ x, x / 2)%R <$> zip_with Rplus cls (mean_tokens tokens)))
           outputs
    else if decide (pooling_strategy self = Some "last") then
      mapM (λ tokens, index_at tokens (-1)) outputs
    else if decide (pooling_strategy self = Some "avg") then
      Ok (mean_tokens <$> outputs)
    else if decide (pooling_strategy self = Some "max") then
      mapM max_tokens outputs
    else Err NotImplementedError.

(** The strategies [call] knows. *)
Definition known_strategy (s : option string) : Prop :=
  s = Some "cls" ∨ s = Some "cls_avg" ∨ s = Some "last" ∨ s = Some "avg"
  ∨ s = Some "max".

(** The exceptions the specification calls a ConfigurationError. *)
Definition configuration_error (e : exn) : Prop :=
  e = ValueError ∨ e = NotImplementedError.

Lemma index_at_Err {A} (l : list A) (k : Z) (e : exn) :
  index_at l k = Err e → e = IndexError.
Proof.
  unfold index_at. case_decide; [by intros [= <-]|].
  destruct (l !! _); [done | by intros [= <-]].
Qed.

Lemma index_at_in_range {A} (l : list A) (k : Z) :
  -1 ≤ k < Z.of_nat (length l) → l ≠ [] → ∃ x, index_at l k = Ok x.
Proof.
  intros Hk Hne. unfold index_at.
  assert (0 < length l)%nat by (destruct l; [done | simpl; lia]).
  destruct (decide (k < 0)).
  - rewrite decide_False by lia.
    destruct (lookup_lt_is_Some_2 l (Z.to_nat (Z.of_nat (length l) + k)))
      as [x ->]; [lia | by eexists].
  - rewrite decide_False by lia.
    destruct (lookup_lt_is_Some_2 l (Z.to_nat k)) as [x ->]; [lia | by eexists].
Qed.

Lemma sequence_length_Err (pad : Z) (row : list Z) (e : exn) :
  sequence_length pad row = Err e → e = IndexError.
Proof. destruct row; [by intros [= <-] | done]. Qed.

Lemma sequence_length_Ok (pad : Z) (row : list Z) (k : Z) :
  sequence_length pad row = Ok k → -1 ≤ k < Z.of_nat (length row).
Proof.
  destruct row as [|t row]; [done|]. intros [= <-].
  destruct (index_of pad (t :: row)) as [i|] eqn:Hi; simpl.
  - apply Collator.index_of_first in Hi as [Hi _].
    apply lookup_lt_Some in Hi. simpl in Hi. lia.
  - lia.
Qed.

Lemma max_tokens_Err (tokens : list (list R)) (e : exn) :
  max_tokens tokens = Err e → e = IndexError.
Proof. destruct tokens; [by intros [= <-] | done]. Qed.

(** The decoder-only path past its guard raises nothing but [IndexError]. *)
Lemma llm_body_Err (self : Pooler) (hidden : list (list (list R)))
    (input_ids : option (list (list Z))) (e : exn) :
  (sequence_lengths ←
     match pad_token_id self, input_ids with
     | Some pad, Some ids =>
         if decide (length ids = length hidden)
         then mapM (sequence_length pad) ids
         else Err IndexError
     | _, _ => Ok (replicate (length hidden) (-1))
     end;
   mapM (λ '(tokens, k), index_at tokens k) (zip hidden sequence_lengths)) = Err e →
  e = IndexError.
Proof.
  destruct (match pad_token_id self, input_ids with
            | Some pad, Some ids => _
            | _, _ => _
            end) as [ks|e'] eqn:Hks; cbn [mbind result_bind].
  - intros ([tokens k] & _ & Hx)%mapM_result_Err. by eapply index_at_Err.
  - intros [= <-]. destruct (pad_token_id self) as [pad|]; [|done].
    destruct input_ids as [ids|]; [|done].
    case_decide; [|by injection Hks as <-].
    apply mapM_result_Err in Hks as (row & _ & Hx). by eapply sequence_length_Err.
Qed.

(** Which exception a failing call raises. *)
Lemma call_Err (self : Pooler) (hidden : list (list (list R)))
    (input_ids : option (list (list Z))) (e : exn) :
  call self hidden input_ids = Err e →
  e = IndexError
  ∨ (e = ValueError ∧ is_llm self = true ∧ pad_token_id self = None
     ∧ length hidden ≠ 1%nat)
  ∨ (e = NotImplementedError ∧ is_llm self = false
     ∧ ¬ known_strategy (pooling_strategy self)).
Proof.
  unfold call. destruct (is_llm self).
  - case_bool_decide as Hguard.
    + intros [= <-]. right. left. by destruct Hguard.
    + intros ->%llm_body_Err. by left.
  - repeat case_decide.
    + intros (tokens & _ & Hx)%mapM_result_Err. left. by eapply index_at_Err.
    + intros (tokens & _ & Hx)%mapM_result_Err. left.
      destruct (index_at tokens 0) eqn:Hcls; [done|].
      injection Hx as <-. by eapply index_at_Err.
    + intros (tokens & _ & Hx)%mapM_result_Err. left. by eapply index_at_Err.
    + done.
    + intros (tokens & _ & Hx)%mapM_result_Err. left. by eapply max_tokens_Err.
    + intros [= <-]. right. right. unfold known_strategy.
      split; [done|]. split; [done|]. tauto.
Qed.

Lemma call_no_pad_token (self : Pooler) (hidden : list (list (list R)))
    (input_ids : option (list (list Z))) :
  is_llm self = true → pad_token_id self = None → length hidden ≠ 1%nat →
  call self hidden input_ids = Err ValueError.
Proof.
  intros Hllm Hpad Hsize. unfold call. rewrite Hllm.
  by rewrite bool_decide_eq_true_2.
Qed.

Lemma call_unknown_strategy (self : Pooler) (hidden : list (list (list R)))
    (input_ids : option (list (list Z))) :
  is_llm self = false → ¬ known_strategy (pooling_strategy self) →
  call self hidden input_ids = Err NotImplementedError.
Proof.
  intros Hllm Hknown. unfold call. rewrite Hllm. unfold known_strategy in Hknown.
  repeat case_decide; try done; exfalso; tauto.
Qed.

(** Inputs as a backbone returns them: no empty token sequence, and one
    hidden vector per input token where the pad position is looked up. *)
Definition well_formed (self : Pooler) (hidden : list (list (list R)))
    (input_ids : option (list (list Z))) : Prop :=
  Forall (λ tokens, tokens ≠ []) hidden
  ∧ ∀ pad ids, pad_token_id self = Some pad → input_ids = Some ids →
      Forall2 (λ tokens row, length tokens = length row) hidden ids.

Lemma index_rows_total (hidden : list (list (list R))) (ks : list Z) :
  Forall2 (λ tokens k, tokens ≠ [] ∧ -1 ≤ k < Z.of_nat (length tokens)) hidden ks →
  ∃ out, mapM (λ '(tokens, k), index_at tokens k) (zip hidden ks) = Ok out.
Proof.
  induction 1 as [|tokens k hidden ks [Hne Hk] _ [out IH]]; [by eexists|].
  change (zip (tokens :: hidden) (k :: ks)) with ((tokens, k) :: zip hidden ks).
  rewrite mapM_result_cons.
  destruct (index_at_in_range tokens k Hk Hne) as [x ->].
  cbn [mbind result_bind]. rewrite IH. by eexists.
Qed.

Lemma call_total (self : Pooler) (hidden : list (list (list R)))
    (input_ids : option (list (list Z))) :
  well_formed self hidden input_ids →
  (is_llm self = true → ¬ (pad_token_id self = None ∧ length hidden ≠ 1%nat)) →
  (is_llm self = false → known_strategy (pooling_strategy self)) →
  ∃ out, call self hidden input_ids = Ok out.
Proof.
  intros [Hne Hids] Hpad Hknown. unfold call.
  assert (Hfront : Forall (λ tokens : list (list R),
                     ∃ x, index_at tokens 0 = Ok x) hidden).
  { eapply Forall_impl; [exact Hne|]. intros tokens Ht.
    apply index_at_in_range; [|done]. destruct tokens; [done | simpl; lia]. }
  destruct (is_llm self).
  - rewrite bool_decide_eq_false_2 by (by apply Hpad).
    destruct (pad_token_id self) as [pad|] eqn:Hp.
    + destruct input_ids as [ids|].
      * specialize (Hids pad ids eq_refl eq_refl).
        rewrite decide_True by (symmetry; by eapply Forall2_length).
        destruct (mapM_result_total (sequence_length pad) ids) as [ks Hks].
        { apply Forall_forall. intros row Hrow.
          apply list_elem_of_lookup in Hrow as [i Hi].
          destruct (Forall2_lookup_r _ _ _ _ _ Hids Hi) as (tokens & Ht & Hlen).
          assert (tokens ≠ []).
          { eapply (proj1 (Forall_forall _ _) Hne), list_elem_of_lookup_2, Ht. }
          destruct row; [by destruct tokens | by eexists]. }
        rewrite Hks. cbn [mbind result_bind].
        apply index_rows_total. apply mapM_result_Ok in Hks.
        apply Forall2_same_length_lookup. split.
        { rewrite (Forall2_length _ _ _ Hids). by eapply Forall2_length. }
        intros i tokens k Ht Hk.
        destruct (Forall2_lookup_l _ _ _ _ _ Hids Ht) as (row & Hrow & Hlen).
        destruct (Forall2_lookup_l _ _ _ _ _ Hks Hrow) as (k' & Hk' & Hseq).
        assert (k' = k) as -> by congruence.
        split.
        -- eapply (proj1 (Forall_forall _ _) Hne), list_elem_of_lookup_2, Ht.
        -- rewrite Hlen. by eapply sequence_length_Ok.
      * cbn [mbind result_bind]. apply index_rows_total.
        apply Forall2_same_length_lookup. split; [by rewrite length_replicate|].
        intros i tokens k Ht Hk. apply lookup_replicate in Hk as [-> _].
        assert (tokens ≠ []).
        { eapply (proj1 (Forall_forall _ _) Hne), list_elem_of_lookup_2, Ht. }
        split; [done|]. destruct tokens; [done | simpl; lia].
    + cbn [mbind result_bind]. apply index_rows_total.
      apply Forall2_same_length_lookup. split; [by rewrite length_replicate|].
      intros i tokens k Ht Hk. apply lookup_replicate in Hk as [-> _].
      assert (tokens ≠ []).
      { eapply (proj1 (Forall_forall _ _) Hne), list_elem_of_lookup_2, Ht. }
      split; [done|]. destruct tokens; [done | simpl; lia].
  - specialize (Hknown eq_refl). unfold known_strategy in Hknown.
    repeat case_decide.
    + by apply mapM_result_total.
    + apply mapM_result_total. eapply Forall_impl; [exact Hfront|].
      intros tokens [x ->]. by eexists.
    + apply mapM_result_total. eapply Forall_impl; [exact Hne|]. intros tokens Ht.
      apply index_at_in_range; [|done]. destruct tokens; [done | simpl; lia].
    + by eexists.
    + apply mapM_result_total. eapply Forall_impl; [exact Hne|]. intros tokens Ht.
      destruct tokens; [done | by eexists].
    + exfalso. tauto.
Qed.

Example cls_pooling :
  call {| pooling_strategy := Some "cls"; is_llm := false; pad_token_id := None |}
    [[[1; 2]; [3; 4]; [5; 6]]]%R None = Ok [[1; 2]]%R.
Proof. reflexivity. Qed.

(** C7 (as amended): the pooler raises a ConfigurationError ([ValueError] or
    [NotImplementedError]) in exactly two situations: an unknown pooling
    strategy on the non-LLM path, and, on the decoder-only path, no pad token
    id together with a batch size other than 1 (an empty batch included);
    for a known strategy and a valid pad configuration it never raises on
    well-formed backbone outputs. *)
Theorem pooler_configuration_errors (self : Pooler)
    (hidden : list (list (list R))) (input_ids : option (list (list Z))) :
  ((∃ e, call self hidden input_ids = Err e ∧ configuration_error e)
   ↔ (is_llm self = false ∧ ¬ known_strategy (pooling_strategy self))
     ∨ (is_llm self = true ∧ pad_token_id self = None ∧ length hidden ≠ 1%nat))
  ∧ (is_llm self = false → ¬ known_strategy (pooling_strategy self) →
     call self hidden input_ids = Err NotImplementedError)
  ∧ (is_llm self = true → pad_token_id self = None → length hidden ≠ 1%nat →
     call self hidden input_ids = Err ValueError)
  ∧ (well_formed self hidden input_ids →
     (is_llm self = false → known_strategy (pooling_strategy self)) →
     (is_llm self = true →
      ¬ (pad_token_id self = None ∧ length hidden ≠ 1%nat)) →
     ∃ out, call self hidden input_ids = Ok out).
Proof.
  split; [|split; [|split]].
  - split.
    + intros (e & Hcall & Hconf).
      destruct (call_Err self hidden input_ids e Hcall)
        as [-> | [(_ & ? & ? & ?) | (_ & ? & ?)]].
      * by destruct Hconf.
      * by right.
      * by left.
    + intros [[Hllm Hknown] | (Hllm & Hpad & Hsize)].
      * exists NotImplementedError. split; [by apply call_unknown_strategy|].
        by right.
      * exists ValueError. split; [by apply call_no_pad_token|]. by left.
  - apply call_unknown_strategy.
  - apply call_no_pad_token.
  - intros Hwf Hknown Hpad. by apply call_total.
Qed.

(** C7 (as stated) fails on an empty batch: the guard is [batch_size != 1],
    so without a pad token id a batch of size 0, which is not greater than 1,
    raises the [ValueError] too. *)
Lemma empty_batch_without_pad_token_raises :
  call {| pooling_strategy := None; is_llm := true; pad_token_id := None |}
    [] None = Err ValueError
  ∧ ¬ (length ([] : list (list (list R))) > 1)%nat.
Proof. split; [reflexivity | simpl; lia]. Qed.

End Pooler.

(** ** The model wrapper and its configuration *)

Module AnglE.

(** JSON-like values of the configuration dictionary. *)
Inductive value : Type :=
| VNone
| VBool (b : bool)
| VInt (z : Z)
| VStr (s : string)
| VDict (entries : list entry)
with entry : Type :=
| Entry (key : string) (v : value).

(** The part of an [AnglE] instance the configuration depends on, with the
    files [save_config] has written. *)
Record AnglE : Type := {
  cfg : gmap string value;
  max_length : Z;
  pooling_strategy : option string;
  apply_lora : bool;
  train_mode : bool;
  files : gmap string (gmap string value)
}.

Definition cfg_file_name : string := "angle.config".




(** [os.path.join(dirpath, name)] for a relative [name]. *)
Definition path_join (dirpath name : string) : string :=
  if decide (dirpath = "") then name
  else if decide (String.substring (String.length dirpath - 1) 1 dirpath = "/")
       then dirpath +:+ name
       else dirpath +:+ "/" +:+ name.

Definition set_cfg (self : AnglE) (cfg' : gmap string value) : AnglE :=
  {| cfg := cfg';
     max_length := max_length self;
     pooling_strategy := pooling_strategy self;
     apply_lora := apply_lora self;
     train_mode := train_mode self;
     files := files self |}.

Definition set_files (self : AnglE) (files' : gmap string (gmap string value))
    : AnglE :=
  {| cfg := cfg self;
     max_length := max_length self;
     pooling_strategy := pooling_strategy self;
     apply_lora := apply_lora self;
     train_mode := train_mode self;
     files := files' |}.

(** [save_config]: the configuration is dumped to the file. *)
Definition save_config (self : AnglE) (fpath : string) : AnglE :=
  set_files self (<[fpath := cfg self]> (files self)).

(** [fit] up to the training run: the flag is stored in the configuration
    before the configuration is saved; joining a missing [output_dir] raises
    after the store.  Training itself leaves the configuration alone. *)
Definition fit (self : AnglE) (compute_similar_matrix : bool)
    (output_dir : option string) : AnglE * result unit :=
  let self := set_cfg self
                (<["compute_similar_matrix" := VBool compute_similar_matrix]>
                   (cfg self)) in
  match output_dir with
  | Some dir => (save_config self (path_join dir cfg_file_name), Ok ())
  | None => (self, Err TypeError)
  end.

(** The methods callable on an instance. *)
Inductive operation : Type :=
| Cuda
| SaveConfig (fpath : string)
| Fit (compute_similar_matrix : bool) (output_dir : option string)
| Evaluate
| Encode.

(** The instance after one operation; [cuda], [evaluate] and [encode] only
    touch the backbone. *)
Definition run (self : AnglE) (op : operation) : AnglE :=
  match op with
  | Cuda => self
  | SaveConfig fpath => save_config self fpath
  | Fit c output_dir => (fit self c output_dir).1
  | Evaluate => self
  | Encode => self
  end.











End AnglE.

(** ** The adapter and the collator together *)

Module Pipeline.

(** A repair that fails on the lengths leaves a feature whose input_ids and
    attention_mask disagree, and the collator's assertion rejects it. *)
Lemma failed_repair_stops_collation :
  ∃ f log,
    Tokenizer.tokenize_pair (Some [7; 8; 9; 10])
      {| enc_input_ids := [7; 8]; enc_attention_mask := [1; 1];
         enc_token_type_ids := None |}
      {| enc_input_ids := [7; 5; 9; 10]; enc_attention_mask := [1; 1; 1; 1];
         enc_token_type_ids := None |} 1 = Ok (f, log)
    ∧ log = [Tokenizer.BadData [7; 8] [7; 8; 9; 10]; Tokenizer.FailedToFix]
    ∧ length (input_ids f) = 8%nat
    ∧ length (attention_mask f) = 6%nat
    ∧ Collator.call (Collator.pad_longest 0) true [f] = Err AssertionError.
Proof.
  eexists _, _. split; [vm_compute; reflexivity|].
  repeat split; vm_compute; reflexivity.
Qed.

(** A pair whose second text has no token has no segment id 1, and the
    collator raises on it. *)
Lemma empty_second_text_stops_collation :
  ∃ f log,
    Tokenizer.tokenize_pair None
      {| enc_input_ids := [101; 7; 102]; enc_attention_mask := [1; 1; 1];
         enc_token_type_ids := None |}
      {| enc_input_ids := []; enc_attention_mask := [];
         enc_token_type_ids := None |} 1 = Ok (f, log)
    ∧ seperate_ids f = [0; 0; 0]
    ∧ Collator.call (Collator.pad_longest 0) true [f] = Err ValueError.
Proof.
  eexists _, _. split; [vm_compute; reflexivity|].
  split; vm_compute; reflexivity.
Qed.

End Pipeline.

(** ** The repair of a truncated template and the guard around it *)

Module Repair.

Import Tokenizer.

(** The backward loop over a run of template tokens ends on the template
    position of the leftmost token of the run. *)
Lemma scan_back_run (s r p : list Z) (b : Z) :
  Forall (λ x, x ∈ p) s →
  scan_back (reverse s ++ r) p b
  = scan_back r p (match s with
                   | [] => b
                   | x :: _ => Z.of_nat (default 0%nat (index_of x p))
                   end).
Proof.
  intros Hs. revert r b. induction Hs as [|x s Hx Hs IH]; intros r b; [done|].
  rewrite reverse_cons, <- app_assoc. simpl. rewrite IH. simpl.
  apply Collator.index_of_is_Some in Hx as [k Hk]. rewrite Hk. done.
Qed.

Lemma scan_back_stop (r p : list Z) (b : Z) :
  (∀ y, head r = Some y → y ∉ p) → scan_back r p b = b.
Proof.
  destruct r as [|y r]; [done|]. intros Hy. simpl.
  destruct (index_of y p) as [k|] eqn:Hk; [|done].
  exfalso. apply (Hy y eq_refl), Collator.index_of_is_Some. by rewrite Hk.
Qed.

Lemma head_reverse {A} (l : list A) : head (reverse l) = last l.
Proof.
  induction l as [|x l IH] using rev_ind; [done|].
  by rewrite reverse_app, last_snoc.
Qed.

(** What the repair returns on a sequence split into a part that does not
    end in a template token and a run of template tokens. *)
Lemma fix_bad_data_split (pre s p : list Z) :
  Forall (λ x, x ∈ p) s → (∀ y, last pre = Some y → y ∉ p) →
  fix_bad_data (pre ++ s) p
  = match s with
    | [] => pre ++ s
    | x :: _ =>
        let to_fix_ids := drop (default 0%nat (index_of x p)) p in
        slice_to (pre ++ s)
          (Z.of_nat (length (pre ++ s)) - Z.of_nat (length to_fix_ids))
        ++ to_fix_ids
    end.
Proof.
  intros Hs Hpre. unfold fix_bad_data.
  rewrite reverse_app, scan_back_run by done.
  rewrite scan_back_stop by (intros y; rewrite head_reverse; apply Hpre).
  destruct s as [|x s]; [by rewrite decide_True|].
  rewrite decide_False by lia. by rewrite Nat2Z.id.
Qed.

(** Every sequence splits in that way. *)
Lemma template_run_exists (t p : list Z) :
  ∃ pre s, t = pre ++ s ∧ Forall (λ x, x ∈ p) s
           ∧ ∀ y, last pre = Some y → y ∉ p.
Proof.
  induction t as [|x t IH] using rev_ind.
  - exists [], []. repeat split; [constructor | done].
  - destruct (decide (x ∈ p)) as [Hx|Hx].
    + destruct IH as (pre & s & -> & Hs & Hpre).
      exists pre, (s ++ [x]). rewrite app_assoc. repeat split; [|done].
      apply Forall_app. split; [done|]. by constructor.
    + exists (t ++ [x]), []. rewrite app_nil_r. repeat split; [constructor|].
      intros y. rewrite last_snoc. by intros [= <-].
Qed.

Lemma slice_to_length {A} (l : list A) (k : Z) :
  length (slice_to l k)
  = Z.to_nat (if decide (k < 0) then Z.max 0 (Z.of_nat (length l) + k)
              else Z.min k (Z.of_nat (length l))).
Proof.
  unfold slice_to. case_decide; rewrite length_take; lia.
Qed.

(** X1: [fix_bad_data] looks only at the final run of tokens that occur in the
    template: with no such run (an empty sequence, or a last token the
    template does not contain) the sequence is returned as it is; otherwise
    the template is cut at the first occurrence of the run's leftmost token,
    and that tail replaces as many final tokens of the sequence as it has
    itself. *)
Theorem fix_bad_data_rewrites_final_template_run (token_ids prompt_ids : list Z) :
  (∃ pre run,
     token_ids = pre ++ run
     ∧ Forall (λ x, x ∈ prompt_ids) run
     ∧ (∀ y, last pre = Some y → y ∉ prompt_ids)
     ∧ fix_bad_data token_ids prompt_ids
       = match run with
         | [] => token_ids
         | x :: _ =>
             let to_fix_ids :=
               drop (default 0%nat (index_of x prompt_ids)) prompt_ids in
             slice_to token_ids
               (Z.of_nat (length token_ids) - Z.of_nat (length to_fix_ids))
             ++ to_fix_ids
         end)
  ∧ ((∀ y, last token_ids = Some y → y ∉ prompt_ids) →
     fix_bad_data token_ids prompt_ids = token_ids).
Proof.
  split.
  - destruct (template_run_exists token_ids prompt_ids) as (pre & run & -> & Hrun & Hpre).
    exists pre, run. split; [done|]. split; [done|]. split; [done|].
    by apply fix_bad_data_split.
  - intros Hlast.
    pose proof (fix_bad_data_split token_ids [] prompt_ids) as H.
    rewrite app_nil_r in H. apply H; [constructor | done].
Qed.

(** X2: The repair never shortens a sequence, never makes it longer than the
    larger of twice its length and the template's length, and keeps the
    length whenever the template is not longer than the sequence; a template
    tail longer than the sequence makes the result longer (Python's negative
    slice stop then drops tokens from the end only). *)
Theorem fix_bad_data_length (token_ids prompt_ids : list Z) :
  (length token_ids ≤ length (fix_bad_data token_ids prompt_ids))%nat
  ∧ (length (fix_bad_data token_ids prompt_ids)
     ≤ Nat.max (2 * length token_ids) (length prompt_ids))%nat
  ∧ ((length prompt_ids ≤ length token_ids)%nat →
     length (fix_bad_data token_ids prompt_ids) = length token_ids).
Proof.
  destruct (fix_bad_data_cases token_ids prompt_ids) as [-> | (k & Hk & ->)].
  - split; [lia|]. split; [lia | done].
  - rewrite length_app, slice_to_length, length_drop.
    case_decide; repeat split; lia.
Qed.

Lemma fix_bad_data_last_is_Some (token_ids prompt_ids : list Z) :
  token_ids ≠ [] → is_Some (last (fix_bad_data token_ids prompt_ids)).
Proof.
  intros Hne.
  destruct (last (fix_bad_data token_ids prompt_ids)) eqn:Hl; [by eexists|].
  apply last_None in Hl.
  assert (length token_ids ≤ length (fix_bad_data token_ids prompt_ids))%nat as Hlen.
  { destruct (fix_bad_data_cases token_ids prompt_ids) as [-> | (k & Hk & ->)]; [lia|].
    rewrite length_app, slice_to_length, length_drop. case_decide; lia. }
  rewrite Hl in Hlen. destruct token_ids; [done | simpl in Hlen; lia].
Qed.

(** X3: The guard on one side of a pair raises only [IndexError], exactly when
    the token list or the template is empty.  Otherwise it leaves the
    attention mask and the token type ids alone, changes nothing and prints
    nothing when the last token is the template's, stores the output of
    [fix_bad_data] when it is not, and reports the repair as done exactly
    when the stored sequence has the length of the attention mask and ends
    with the template's last token. *)
Theorem guard_outcomes (tok : encoding) (prompt_ids : list Z) :
  (check_template_end tok prompt_ids = Err IndexError
   ↔ enc_input_ids tok = [] ∨ prompt_ids = [])
  ∧ (∀ e, check_template_end tok prompt_ids = Err e → e = IndexError)
  ∧ (∀ tok' log, check_template_end tok prompt_ids = Ok (tok', log) →
       enc_attention_mask tok' = enc_attention_mask tok
       ∧ enc_token_type_ids tok' = enc_token_type_ids tok
       ∧ (last (enc_input_ids tok) = last prompt_ids → tok' = tok ∧ log = [])
       ∧ (last (enc_input_ids tok) ≠ last prompt_ids →
          enc_input_ids tok' = fix_bad_data (enc_input_ids tok) prompt_ids)
       ∧ (FixedIt ∈ log
          ↔ last (enc_input_ids tok) ≠ last prompt_ids
            ∧ length (enc_input_ids tok') = length (enc_attention_mask tok')
            ∧ last (enc_input_ids tok') = last prompt_ids)).
Proof.
  unfold check_template_end, index_last.
  destruct (last (enc_input_ids tok)) as [t|] eqn:Ht; cbn [mbind result_bind].
  2:{ apply last_None in Ht. split; [|split]; [ | by intros e [= <-] | done].
      split; [by left | done]. }
  assert (Hne : enc_input_ids tok ≠ []) by (intros E; by rewrite E in Ht).
  destruct (last prompt_ids) as [p|] eqn:Hp; cbn [mbind result_bind].
  2:{ apply last_None in Hp. split; [|split]; [ | by intros e [= <-] | done].
      split; [by right | done]. }
  assert (Hpne : prompt_ids ≠ []) by (intros E; by rewrite E in Hp).
  destruct (decide (t ≠ p)) as [Hneq|Heq].
  - destruct (fix_bad_data_last_is_Some (enc_input_ids tok) prompt_ids Hne)
      as [t' Ht'].
    cbn [set_input_ids enc_input_ids enc_attention_mask].
    case_decide as Hlen.
    + rewrite Ht'. cbn [mbind result_bind].
      split; [|split]; [ | by case_decide | ].
      { split; [by case_decide | by intros [? | ?]]. }
      intros tok' log Hres.
      assert (Hshape : enc_attention_mask tok' = enc_attention_mask tok
                       ∧ enc_token_type_ids tok' = enc_token_type_ids tok
                       ∧ enc_input_ids tok'
                         = fix_bad_data (enc_input_ids tok) prompt_ids).
      { by case_decide; injection Hres as <- <-. }
      destruct Hshape as (Hm & Htt & Hids).
      split; [done|]. split; [done|].
      split; [intros [= ->]; done|]. split; [done|].
      rewrite Hids, Hm, Ht'.
      case_decide as Hend; injection Hres as <- <-.
      * subst t'. split; [|by set_unfold; auto].
        intros _. split; [by intros [= ->]|]. done.
      * split.
        -- intros Hin. exfalso. set_unfold. by destruct Hin as [? | [? | ?]].
        -- intros (_ & _ & [= ->]). done.
    + split; [|split]; [ | done | ].
      { split; [done | by intros [? | ?]]. }
      intros tok' log [= <- <-].
      cbn [enc_input_ids enc_attention_mask enc_token_type_ids].
      split; [done|]. split; [done|].
      split; [intros [= ->]; done|]. split; [done|].
      split.
      * intros Hin. exfalso. set_unfold. by destruct Hin as [? | [? | ?]].
      * by intros (_ & ? & _).
  - assert (t = p) as -> by (by destruct (decide (t = p)); [|exfalso; auto]).
    split; [|split]; [ | done | ].
    { split; [done | by intros [? | ?]]. }
    intros tok' log [= <- <-].
    split; [done|]. split; [done|]. split; [done|].
    split; [done|]. split.
    + by intros ?%elem_of_nil.
    + by intros (? & _).
Qed.

End Repair.

(** ** From the tokenization adapter to the collated batch *)

Module Roundtrip.

Import Tokenizer Collator.

(** The input_ids the adapter keeps for one text: those of the tokenizer,
    or what the guard stored in their place. *)
Definition kept_ids (prompt_ids : option (list Z)) (tok : encoding) : list Z :=
  match prompt_ids with
  | Some p =>
      if decide (last (enc_input_ids tok) = last p) then enc_input_ids tok
      else fix_bad_data (enc_input_ids tok) p
  | None => enc_input_ids tok
  end.

(** One text whose attention mask and token type ids have the length of the
    input_ids kept for it. *)
Definition aligned (prompt_ids : option (list Z)) (tok : encoding) : Prop :=
  length (enc_attention_mask tok) = length (kept_ids prompt_ids tok)
  ∧ ∀ type_ids, enc_token_type_ids tok = Some type_ids →
      length type_ids = length (kept_ids prompt_ids tok).

Lemma guard_Ok_inv (tok tok' : encoding) (p : list Z) (log : list message) :
  check_template_end tok p = Ok (tok', log) →
  enc_input_ids tok' = kept_ids (Some p) tok
  ∧ enc_attention_mask tok' = enc_attention_mask tok
  ∧ enc_token_type_ids tok' = enc_token_type_ids tok.
Proof.
  unfold check_template_end, index_last, kept_ids.
  destruct (last (enc_input_ids tok)) as [t|] eqn:Ht; [|done].
  destruct (last p) as [q|] eqn:Hq; [|done]. cbn [mbind result_bind].
  destruct (decide (t ≠ q)) as [Hne|Heq].
  - rewrite (decide_False (P := Some t = Some q)) by (by intros [= ->]).
    cbn [set_input_ids enc_input_ids enc_attention_mask].
    case_decide; [|by intros [= <- <-]].
    destruct (last (fix_bad_data _ _)); [|done]. cbn [mbind result_bind].
    by case_decide; intros [= <- <-].
  - assert (t = q) as -> by (by destruct (decide (t = q)); [|exfalso; auto]).
    rewrite (decide_True (P := Some q = Some q)) by done. by intros [= <- <-].
Qed.

(** The feature the adapter builds from the two tokenized texts. *)
Lemma tokenize_pair_Ok_inv (p : option (list Z)) (tok1 tok2 : encoding) (label : Z)
    (f : feature) (log : list message) :
  tokenize_pair p tok1 tok2 label = Ok (f, log) →
  input_ids f = kept_ids p tok1 ++ kept_ids p tok2
  ∧ attention_mask f = enc_attention_mask tok1 ++ enc_attention_mask tok2
  ∧ labels f = [label]
  ∧ seperate_ids f = replicate (length (kept_ids p tok1)) 0
                     ++ replicate (length (kept_ids p tok2)) 1
  ∧ token_type_ids f
    = match enc_token_type_ids tok1, enc_token_type_ids tok2 with
      | Some a, Some b => Some (a ++ b)
      | _, _ => None
      end.
Proof.
  unfold tokenize_pair.
  assert (Hguard : ∀ tok,
    match (match p with
           | Some q => check_template_end tok q
           | None => Ok (tok, [])
           end) with
    | Ok (tok', _) =>
        enc_input_ids tok' = kept_ids p tok
        ∧ enc_attention_mask tok' = enc_attention_mask tok
        ∧ enc_token_type_ids tok' = enc_token_type_ids tok
    | Err _ => True
    end).
  { intros tok. destruct p as [q|]; [|done].
    destruct (check_template_end tok q) as [[tok' log']|] eqn:Hg; [|done].
    by eapply guard_Ok_inv. }
  pose proof (Hguard tok1) as H1. pose proof (Hguard tok2) as H2.
  destruct (match p with Some q => check_template_end tok1 q | None => _ end)
    as [[tok1' log1]|]; [|done].
  cbn [mbind result_bind].
  destruct (match p with Some q => check_template_end tok2 q | None => _ end)
    as [[tok2' log2]|]; [|done].
  cbn [mbind result_bind].
  destruct H1 as (-> & -> & Ht1). destruct H2 as (-> & -> & Ht2).
  rewrite Ht1, Ht2.
  destruct (enc_token_type_ids tok1) as [a|], (enc_token_type_ids tok2) as [b|];
    cbn [concat_token_type_ids mbind result_bind]; try done;
    by intros [= <- <-].
Qed.

(** The first segment id 1 sits where the first text ends. *)
Lemma index_of_segments (n1 n2 : nat) :
  index_of 1 (replicate n1 0 ++ replicate n2 1)
  = if decide (n2 = 0%nat) then None else Some n1.
Proof.
  case_decide as Hn2.
  - subst. rewrite app_nil_r.
    destruct (index_of 1 (replicate n1 0)) as [k|] eqn:Hk; [|done].
    apply index_of_first in Hk as [Hk _].
    by apply lookup_replicate in Hk as [? _].
  - apply index_of_first. split.
    + rewrite lookup_app_r by (by rewrite length_replicate).
      rewrite length_replicate, Nat.sub_diag.
      apply lookup_replicate. split; [done | lia].
    + intros j Hj. rewrite lookup_app_l by (by rewrite length_replicate).
      intros Hl. by apply lookup_replicate in Hl as [? _].
Qed.

Lemma tokenized_split_index (p : option (list Z)) (tok1 tok2 : encoding) (label : Z)
    (f : feature) (log : list message) :
  tokenize_pair p tok1 tok2 label = Ok (f, log) → kept_ids p tok2 ≠ [] →
  index_of 1 (seperate_ids f) = Some (length (kept_ids p tok1))
  ∧ split_index f = length (kept_ids p tok1).
Proof.
  intros (_ & _ & _ & Hsep & _)%tokenize_pair_Ok_inv Hne.
  assert (Hidx : index_of 1 (seperate_ids f) = Some (length (kept_ids p tok1))).
  { rewrite Hsep, index_of_segments. rewrite decide_False; [done|].
    by destruct (kept_ids p tok2). }
  split; [done|]. unfold split_index. by rewrite Hidx.
Qed.

(** The two rows the collator cuts a tokenized pair into. *)
Lemma tokenized_rows (p : option (list Z)) (tok1 tok2 : encoding) (label : Z)
    (f : feature) (log : list message) :
  tokenize_pair p tok1 tok2 label = Ok (f, log) → kept_ids p tok2 ≠ [] →
  nf_input_ids (first_row (split_index f) f) = kept_ids p tok1
  ∧ nf_input_ids (second_row (split_index f) f) = kept_ids p tok2
  ∧ nf_labels (first_row (split_index f) f) = [label]
  ∧ nf_labels (second_row (split_index f) f) = [label]
  ∧ (length (enc_attention_mask tok1) = length (kept_ids p tok1) →
     nf_attention_mask (first_row (split_index f) f) = enc_attention_mask tok1
     ∧ nf_attention_mask (second_row (split_index f) f) = enc_attention_mask tok2).
Proof.
  intros Htok Hne.
  destruct (tokenized_split_index p tok1 tok2 label f log Htok Hne) as [_ ->].
  apply tokenize_pair_Ok_inv in Htok as (Hids & Hmask & Hlab & _).
  cbn [first_row second_row nf_input_ids nf_labels nf_attention_mask].
  rewrite Hids, Hmask, Hlab.
  rewrite take_app_length, drop_app_length.
  split; [done|]. split; [done|]. split; [done|]. split; [done|].
  intros <-. by rewrite take_app_length, drop_app_length.
Qed.

Lemma tokenized_valid (p : option (list Z)) (tok1 tok2 : encoding) (label : Z)
    (f : feature) (log : list message) :
  tokenize_pair p tok1 tok2 label = Ok (f, log) →
  aligned p tok1 → aligned p tok2 → kept_ids p tok2 ≠ [] →
  valid_feature f.
Proof.
  intros Htok [Hm1 Ht1] [Hm2 Ht2] Hne.
  destruct (tokenized_split_index p tok1 tok2 label f log Htok Hne) as [Hidx _].
  apply tokenize_pair_Ok_inv in Htok as (Hids & Hmask & _ & Hsep & Htt).
  unfold valid_feature. rewrite Hids, Hmask, Htt.
  rewrite !length_app, Hm1, Hm2. split; [|split; [done|split]].
  - by rewrite Hsep, length_app, !length_replicate.
  - intros type_ids.
    destruct (enc_token_type_ids tok1) as [a|]; [|done].
    destruct (enc_token_type_ids tok2) as [b|]; [|done].
    intros [= <-]. rewrite length_app. by rewrite (Ht1 a), (Ht2 b).
  - apply index_of_is_Some. rewrite Hidx. by eexists.
Qed.

(** X4: A pair as the adapter joins it is cut by the collator exactly where it
    was joined: the segment ids are as long as the input_ids, their first 1
    sits at the length of the first text's kept input_ids, and the two rows
    are the two kept sequences (and the two attention masks, when the first
    mask has the length of the first sequence).  A second text that keeps no
    token leaves no segment id 1, and the collator raises on every batch
    that contains the pair. *)
Theorem adapter_output_splits_back (p : option (list Z)) (tok1 tok2 : encoding)
    (label : Z) (f : feature) (log : list message) :
  tokenize_pair p tok1 tok2 label = Ok (f, log) →
  length (seperate_ids f) = length (input_ids f)
  ∧ labels f = [label]
  ∧ (kept_ids p tok2 ≠ [] →
     index_of 1 (seperate_ids f) = Some (length (kept_ids p tok1))
     ∧ nf_input_ids (first_row (split_index f) f) = kept_ids p tok1
     ∧ nf_input_ids (second_row (split_index f) f) = kept_ids p tok2
     ∧ (length (enc_attention_mask tok1) = length (kept_ids p tok1) →
        nf_attention_mask (first_row (split_index f) f) = enc_attention_mask tok1
        ∧ nf_attention_mask (second_row (split_index f) f)
          = enc_attention_mask tok2))
  ∧ (kept_ids p tok2 = [] →
     (1 ∉ seperate_ids f)
     ∧ ∀ pad c before after, ∃ e, call pad c (before ++ f :: after) = Err e).
Proof.
  intros Htok.
  pose proof (tokenize_pair_Ok_inv p tok1 tok2 label f log Htok)
    as (Hids & Hmask & Hlab & Hsep & Htt).
  split; [|split; [done|split]].
  - by rewrite Hsep, Hids, !length_app, !length_replicate.
  - intros Hne.
    destruct (tokenized_split_index p tok1 tok2 label f log Htok Hne) as [Hidx _].
    destruct (tokenized_rows p tok1 tok2 label f log Htok Hne)
      as (H1 & H2 & _ & _ & Hm).
    done.
  - intros Hempty.
    assert (Hno : 1 ∉ seperate_ids f).
    { intros [k Hk]%index_of_is_Some. revert Hk.
      rewrite Hsep, Hempty, index_of_segments. by rewrite decide_True. }
    split; [done|]. intros pad c before after.
    destruct (call pad c (before ++ f :: after)) as [b|e] eqn:Hcall; [|by eexists].
    exfalso. apply call_Ok_inv in Hcall as (_ & Hvalid & _).
    apply Forall_app in Hvalid as [_ Hvalid].
    apply Forall_cons in Hvalid as [(_ & _ & _ & Hone) _]. done.
Qed.

Definition sample_text1 : encoding :=
  {| enc_input_ids := [101; 7; 102]; enc_attention_mask := [1; 1; 1];
     enc_token_type_ids := None |}.

Definition sample_text2 : encoding :=
  {| enc_input_ids := [101; 9; 8; 102]; enc_attention_mask := [1; 1; 1; 1];
     enc_token_type_ids := None |}.

Definition sample_pair : feature :=
  {| input_ids := [101; 7; 102; 101; 9; 8; 102];
     attention_mask := [1; 1; 1; 1; 1; 1; 1];
     token_type_ids := None;
     labels := [1];
     seperate_ids := [0; 0; 0; 1; 1; 1; 1] |}.

Lemma adapter_output_splits_back_witness :
  length (seperate_ids sample_pair) = length (input_ids sample_pair)
  ∧ labels sample_pair = [1]
  ∧ (kept_ids None sample_text2 ≠ [] →
     index_of 1 (seperate_ids sample_pair)
     = Some (length (kept_ids None sample_text1))
     ∧ nf_input_ids (first_row (split_index sample_pair) sample_pair)
       = kept_ids None sample_text1
     ∧ nf_input_ids (second_row (split_index sample_pair) sample_pair)
       = kept_ids None sample_text2
     ∧ (length (enc_attention_mask sample_text1)
        = length (kept_ids None sample_text1) →
        nf_attention_mask (first_row (split_index sample_pair) sample_pair)
        = enc_attention_mask sample_text1
        ∧ nf_attention_mask (second_row (split_index sample_pair) sample_pair)
          = enc_attention_mask sample_text2))
  ∧ (kept_ids None sample_text2 = [] →
     (1 ∉ seperate_ids sample_pair)
     ∧ ∀ pad c before after,
         ∃ e, call pad c (before ++ sample_pair :: after) = Err e).
Proof.
  apply (adapter_output_splits_back None sample_text1 sample_text2 1 sample_pair []).
  reflexivity.
Defined.

(** The rows of a batch of tokenized pairs. *)
Lemma tokenized_rows_of (p : option (list Z)) (pairs : list (encoding * encoding * Z))
    (features : list feature) :
  Forall2 (λ x f, ∃ log, tokenize_pair p x.1.1 x.1.2 x.2 = Ok (f, log))
    pairs features →
  Forall (λ x, aligned p x.1.1 ∧ aligned p x.1.2 ∧ kept_ids p x.1.2 ≠ []) pairs →
  Forall valid_feature features
  ∧ nf_input_ids <$> rows_of features
    = pairs ≫= (λ x, [kept_ids p x.1.1; kept_ids p x.1.2])
  ∧ nf_attention_mask <$> rows_of features
    = pairs ≫= (λ x, [enc_attention_mask x.1.1; enc_attention_mask x.1.2])
  ∧ nf_labels <$> rows_of features = pairs ≫= (λ x, [[x.2]; [x.2]]).
Proof.
  induction 1 as [|[[tok1 tok2] label] f pairs features [log Htok] _ IH];
    intros Hpairs; [by repeat split|].
  apply Forall_cons in Hpairs as [(Ha1 & Ha2 & Hne) Hpairs]. cbn [fst snd] in *.
  destruct (IH Hpairs) as (Hvalid & Hids & Hmask & Hlab).
  destruct (tokenized_rows p tok1 tok2 label f log Htok Hne)
    as (H1 & H2 & H3 & H4 & Hm).
  destruct (Hm (proj1 Ha1)) as [H5 H6].
  split; [|split; [|split]].
  - constructor; [|done]. by eapply tokenized_valid.
  - rewrite rows_of_cons, !fmap_cons, Hids, H1, H2. done.
  - rewrite rows_of_cons, !fmap_cons, Hmask, H5, H6. done.
  - rewrite rows_of_cons, !fmap_cons, Hlab, H3, H4. done.
Qed.

(** X5: Collating what the adapter produced gives back the tokenized texts:
    for a non-empty list of pairs whose masks (and token type ids) have the
    lengths of the kept input_ids, whose second texts keep a token, and which
    either all lack token type ids on the first text or all carry them on
    both texts, the collator returns a batch whose rows 2i and 2i+1 are the
    padded input_ids and attention masks of pair i's two texts, with pair
    i's label on both rows. *)
Theorem collator_recovers_tokenized_texts (pad : list (list Z) → list (list Z))
    (c : bool) (p : option (list Z)) (pairs : list (encoding * encoding * Z))
    (features : list feature) :
  pairs ≠ [] →
  Forall2 (λ x f, ∃ log, tokenize_pair p x.1.1 x.1.2 x.2 = Ok (f, log))
    pairs features →
  Forall (λ x, aligned p x.1.1 ∧ aligned p x.1.2 ∧ kept_ids p x.1.2 ≠ []) pairs →
  Forall (λ x, enc_token_type_ids x.1.1 = None) pairs
  ∨ Forall (λ x, is_Some (enc_token_type_ids x.1.1)
                 ∧ is_Some (enc_token_type_ids x.1.2)) pairs →
  ∃ b, call pad c features = Ok b
       ∧ b_input_ids b
         = pad (pairs ≫= (λ x, [kept_ids p x.1.1; kept_ids p x.1.2]))
       ∧ b_attention_mask b
         = pad (pairs ≫= (λ x, [enc_attention_mask x.1.1;
                                enc_attention_mask x.1.2]))
       ∧ b_labels b = pairs ≫= (λ x, [[x.2]; [x.2]]).
Proof.
  intros Hne Htok Hpairs Htypes.
  destruct (tokenized_rows_of p pairs features Htok Hpairs)
    as (Hvalid & Hids & Hmask & Hlab).
  assert (Hbatch : valid_batch features).
  { split; [|split; [done|split]].
    - intros ->. apply Forall2_nil_inv_r in Htok. done.
    - destruct Htypes as [Hnone | Hsome]; [right | left].
      + clear Hpairs Hvalid Hids Hmask Hlab Hne.
        induction Htok as [|[[tok1 tok2] label] f pairs features [log Hf] _ IH];
          [constructor|].
        apply Forall_cons in Hnone as [Hn Hnone]. simpl in Hn.
        constructor; [|by apply IH].
        apply tokenize_pair_Ok_inv in Hf as (_ & _ & _ & _ & ->). simpl.
        by rewrite Hn.
      + clear Hpairs Hvalid Hids Hmask Hlab Hne.
        induction Htok as [|[[tok1 tok2] label] f pairs features [log Hf] _ IH];
          [constructor|].
        apply Forall_cons in Hsome as [[[a Ha] [b Hb]] Hsome]. simpl in Ha, Hb.
        constructor; [|by apply IH].
        apply tokenize_pair_Ok_inv in Hf as (_ & _ & _ & _ & ->). simpl.
        rewrite Ha, Hb. by eexists.
    - clear Hpairs Hvalid Hids Hmask Hlab Hne Htypes.
      induction Htok as [|[[tok1 tok2] label] f pairs features [log Hf] _ IH];
        [constructor|].
      constructor; [|done].
      by apply tokenize_pair_Ok_inv in Hf as (_ & _ & -> & _). }
  destruct (call_valid pad c features Hbatch) as [b Hcall].
  exists b. split; [done|].
  apply call_Ok_inv in Hcall as (_ & _ & -> & -> & -> & _).
  by rewrite Hids, Hmask, Hlab.
Qed.

Lemma collator_recovers_tokenized_texts_witness :
  ∃ b, call (pad_longest 0) true [sample_pair] = Ok b
       ∧ b_input_ids b
         = pad_longest 0 ([(sample_text1, sample_text2, 1)]
                            ≫= (λ x, [kept_ids None x.1.1; kept_ids None x.1.2]))
       ∧ b_attention_mask b
         = pad_longest 0 ([(sample_text1, sample_text2, 1)]
                            ≫= (λ x, [enc_attention_mask x.1.1;
                                      enc_attention_mask x.1.2]))
       ∧ b_labels b = [(sample_text1, sample_text2, 1)] ≫= (λ x, [[x.2]; [x.2]]).
Proof.
  apply (collator_recovers_tokenized_texts (pad_longest 0) true None
           [(sample_text1, sample_text2, 1)] [sample_pair]).
  - discriminate.
  - repeat constructor. by exists [].
  - repeat constructor; simpl; discriminate.
  - left. by repeat constructor.
Defined.

End Roundtrip.

(** ** When the collator returns and what it raises *)

Module Batches.

Import Collator.

Lemma for_each_app {S A} (body : S → A → result S) (s : S) (xs ys : list A) :
  for_each body s (xs ++ ys) = (s' ← for_each body s xs; for_each body s' ys).
Proof.
  revert s. induction xs as [|x xs IH]; intros s; [done|].
  simpl. destruct (body s x) as [s1|e]; [|done]. simpl. apply IH.
Qed.

Lemma enumerate_app {A} (start : nat) (xs ys : list A) :
  enumerate start (xs ++ ys)
  = enumerate start xs ++ enumerate (start + length xs) ys.
Proof.
  revert start. induction xs as [|x xs IH]; intros start; simpl.
  - by rewrite Nat.add_0_r.
  - rewrite IH. do 3 f_equal. lia.
Qed.

(** The token type ids of the batch, from the rows and the value
    [has_token_type_ids] has after the loop. *)
Definition type_ids_of (pad : list (list Z) → list (list Z)) (flag : bool)
    (rows : list new_feature) : result (option (list (list Z))) :=
  if flag then
    type_ids ← mapM (λ nf, match nf_token_type_ids nf with
                           | Some ids => Ok ids
                           | None => Err KeyError
                           end) rows;
    Ok (Some (pad type_ids))
  else Ok None.

(** A call on valid features, past the loops. *)
Lemma call_on_valid (pad : list (list Z) → list (list Z)) (c : bool)
    (features : list feature) :
  features ≠ [] → Forall valid_feature features →
  ∃ m, call pad c features
       = (type_ids ← type_ids_of pad (final_flag false features) (rows_of features);
          labels ← tensor_of_rows (nf_labels <$> rows_of features);
          Ok {| b_input_ids := pad (nf_input_ids <$> rows_of features);
                b_attention_mask := pad (nf_attention_mask <$> rows_of features);
                b_token_type_ids := type_ids;
                b_labels := labels;
                b_similar_matrix := m |}).
Proof.
  intros Hne Hvalid. unfold call.
  destruct features as [|f features]; [done|]. cbn [mbind result_bind].
  destruct (split_features_valid (bool_decide (is_Some (token_type_ids f)))
              (f :: features) Hvalid) as (d & -> & Hd).
  cbn [mbind result_bind].
  destruct (mark_similar_spec _ d (length (rows_of (f :: features)))
              (length_fmap _ _) Hd) as (m & Hm & _).
  assert (Hflag : final_flag (bool_decide (is_Some (token_type_ids f))) (f :: features)
                  = final_flag false (f :: features)).
  { unfold final_flag. by destruct (last (f :: features)) eqn:Hl;
      [|apply last_None in Hl]. }
  rewrite Hflag. destruct c.
  - rewrite Hm. cbn [mbind result_bind]. by exists m.
  - cbn [mbind result_bind]. by eexists.
Qed.

Lemma row_type_ids (k : nat) (f : feature) :
  (is_Some (nf_token_type_ids (first_row k f)) ↔ is_Some (token_type_ids f))
  ∧ (is_Some (nf_token_type_ids (second_row k f)) ↔ is_Some (token_type_ids f)).
Proof. simpl. by rewrite !fmap_is_Some. Qed.

Lemma rows_type_ids (features : list feature) :
  Forall (λ nf, is_Some (nf_token_type_ids nf)) (rows_of features)
  ↔ Forall (λ f, is_Some (token_type_ids f)) features.
Proof.
  induction features as [|f features IH]; [by split; constructor|].
  rewrite rows_of_cons, !Forall_cons, IH.
  destruct (row_type_ids (split_index f) f) as [H1 H2]. tauto.
Qed.

Lemma type_ids_of_Ok (pad : list (list Z) → list (list Z)) (flag : bool)
    (rows : list new_feature) :
  (∃ t, type_ids_of pad flag rows = Ok t)
  ↔ (flag = true → Forall (λ nf, is_Some (nf_token_type_ids nf)) rows).
Proof.
  unfold type_ids_of. destruct flag; [|by split; [done | eexists]].
  split.
  - intros [t Ht] _.
    destruct (mapM _ rows) as [ids|e] eqn:Hm; [|done].
    apply mapM_result_Ok in Hm. apply Forall_forall. intros nf Hin.
    apply list_elem_of_lookup in Hin as [i Hi].
    destruct (Forall2_lookup_l _ _ _ _ _ Hm Hi) as (x & _ & Hx).
    destruct (nf_token_type_ids nf); [by eexists | done].
  - intros Hall. destruct (type_ids_of_rows rows (Hall eq_refl)) as [ids ->].
    by eexists.
Qed.

Lemma type_ids_of_Err (pad : list (list Z) → list (list Z)) (flag : bool)
    (rows : list new_feature) (e : exn) :
  type_ids_of pad flag rows = Err e → e = KeyError.
Proof.
  unfold type_ids_of. destruct flag; [|done].
  destruct (mapM _ rows) as [ids|e'] eqn:Hm; [done|].
  cbn [mbind result_bind]. intros [= <-].
  apply mapM_result_Err in Hm as (nf & _ & Hnf).
  destruct (nf_token_type_ids nf); [done | by injection Hnf].
Qed.

Lemma tensor_of_rows_Ok_iff (rows : list (list Z)) :
  (∃ t, tensor_of_rows rows = Ok t)
  ↔ ∀ r r', r ∈ rows → r' ∈ rows → length r = length r'.
Proof.
  unfold tensor_of_rows. destruct rows as [|r0 rows].
  - split; [by intros _ r r' ?%elem_of_nil | by eexists].
  - case_decide as Hall.
    + split; [|by eexists]. intros _ r r' Hr Hr'.
      rewrite Forall_forall in Hall. by rewrite (Hall r Hr), (Hall r' Hr').
    + split; [by intros [? ?]|]. intros Hsame. exfalso. apply Hall.
      apply Forall_forall. intros r Hr. apply Hsame; [done | by left].
Qed.

Lemma rows_labels (features : list feature) (r : list Z) :
  r ∈ nf_labels <$> rows_of features ↔ ∃ f, f ∈ features ∧ r = labels f.
Proof.
  induction features as [|f features IH].
  - split; [by intros ?%elem_of_nil | by intros (? & ?%elem_of_nil & _)].
  - rewrite rows_of_cons, !fmap_cons, !elem_of_cons, IH. simpl. split.
    + intros [-> | [-> | (g & Hg & ->)]].
      * exists f. split; [by left | done].
      * exists f. split; [by left | done].
      * exists g. split; [by right | done].
    + intros (g & [-> | Hg]%elem_of_cons & ->); [by left|].
      right. right. by exists g.
Qed.

Lemma type_ids_of_rows_omap (rows : list new_feature) (ids : list (list Z)) :
  mapM (λ nf, match nf_token_type_ids nf with
              | Some ids => Ok ids
              | None => Err KeyError
              end) rows = Ok ids →
  ids = omap nf_token_type_ids rows.
Proof.
  revert ids. induction rows as [|nf rows IH]; intros ids; [by intros [= <-]|].
  rewrite mapM_result_cons. cbn [omap list_omap].
  destruct (nf_token_type_ids nf) as [t|]; [|done]. cbn [mbind result_bind].
  destruct (mapM _ rows) as [ids'|]; [|done]. cbn [mbind result_bind].
  intros [= <-]. by rewrite (IH ids').
Qed.

Lemma final_flag_last (b : bool) (features : list feature) (f : feature) :
  last features = Some f →
  final_flag b features = bool_decide (is_Some (token_type_ids f)).
Proof. intros Hl. unfold final_flag. by rewrite Hl. Qed.

(** X6: The collator returns a batch exactly when the list of features is not
    empty, every feature is valid (segment ids, input_ids, attention mask
    and token type ids of one length, and a segment id 1), the token type
    ids are present in every feature if they are present in the last one,
    and all label lists have one length. *)
Theorem call_returns_iff (pad : list (list Z) → list (list Z)) (c : bool)
    (features : list feature) :
  (∃ b, call pad c features = Ok b)
  ↔ features ≠ []
    ∧ Forall valid_feature features
    ∧ (∀ f, last features = Some f → is_Some (token_type_ids f) →
         Forall (λ g, is_Some (token_type_ids g)) features)
    ∧ (∀ f g, f ∈ features → g ∈ features →
         length (labels f) = length (labels g)).
Proof.
  split.
  - intros [b Hcall].
    pose proof (call_Ok_inv pad c features b Hcall) as (Hne & Hvalid & _).
    split; [done|]. split; [done|].
    destruct (call_on_valid pad c features Hne Hvalid) as [m Heq].
    rewrite Heq in Hcall.
    destruct (type_ids_of _ _ _) as [t|] eqn:Ht; [|done].
    cbn [mbind result_bind] in Hcall.
    destruct (tensor_of_rows _) as [l|] eqn:Hl; [|done].
    split.
    + intros f Hlast Hf. apply rows_type_ids.
      apply (proj1 (type_ids_of_Ok pad (final_flag false features)
                      (rows_of features))); [by eexists|].
      rewrite (final_flag_last false features f Hlast). by apply bool_decide_eq_true.
    + intros f g Hf Hg.
      apply (proj1 (tensor_of_rows_Ok_iff (nf_labels <$> rows_of features)));
        [by eexists | apply rows_labels; by exists f
        | apply rows_labels; by exists g].
  - intros (Hne & Hvalid & Htypes & Hlabels).
    destruct (call_on_valid pad c features Hne Hvalid) as [m ->].
    destruct (proj2 (type_ids_of_Ok pad (final_flag false features)
                       (rows_of features))) as [t ->].
    { intros Hflag. apply rows_type_ids.
      destruct (last features) as [f|] eqn:Hlast; [|by apply last_None in Hlast].
      apply (Htypes f eq_refl).
      rewrite (final_flag_last false features f Hlast) in Hflag.
      by apply bool_decide_eq_true in Hflag. }
    cbn [mbind result_bind].
    destruct (proj2 (tensor_of_rows_Ok_iff (nf_labels <$> rows_of features)))
      as [l ->]; [|by eexists].
    intros r r' (f & Hf & ->)%rows_labels (g & Hg & ->)%rows_labels.
    by apply Hlabels.
Qed.

(** X7: Whether the batch has token type ids is decided by the last feature
    alone (the look at the first feature before the loop has no effect):
    without them in the last feature the batch has none, whatever the other
    features carry; with them the batch holds the padded token type ids of
    all rows, and a valid batch in which another feature lacks them makes
    the collator raise [KeyError]. *)
Theorem token_type_ids_follow_last_feature (pad : list (list Z) → list (list Z))
    (c : bool) (features : list feature) :
  (∀ b, call pad c features = Ok b →
     ∃ f, last features = Some f
          ∧ (token_type_ids f = None → b_token_type_ids b = None)
          ∧ (is_Some (token_type_ids f) →
             Forall (λ g, is_Some (token_type_ids g)) features
             ∧ b_token_type_ids b
               = Some (pad (omap nf_token_type_ids (rows_of features)))))
  ∧ (∀ f, Forall valid_feature features → last features = Some f →
          is_Some (token_type_ids f) →
          Exists (λ g, token_type_ids g = None) features →
          call pad c features = Err KeyError).
Proof.
  split.
  - intros b Hcall.
    pose proof (call_Ok_inv pad c features b Hcall) as (Hne & Hvalid & _).
    destruct (call_on_valid pad c features Hne Hvalid) as [m Heq].
    rewrite Heq in Hcall.
    destruct (last features) as [f|] eqn:Hlast; [|by apply last_None in Hlast].
    exists f. split; [done|].
    rewrite (final_flag_last false features f Hlast) in Hcall.
    destruct (type_ids_of _ _ _) as [t|] eqn:Ht; [|done].
    cbn [mbind result_bind] in Hcall.
    destruct (tensor_of_rows _) as [l|] eqn:Hl; [|done].
    injection Hcall as <-. cbn [b_token_type_ids]. split.
    + intros Hnone. rewrite Hnone in Ht.
      rewrite bool_decide_eq_false_2 in Ht by (by intros [? ?]).
      by injection Ht as <-.
    + intros Hsome. split.
      * apply rows_type_ids.
        apply (proj1 (type_ids_of_Ok pad (bool_decide (is_Some (token_type_ids f)))
                        (rows_of features))); [by eexists|].
        by apply bool_decide_eq_true.
      * rewrite bool_decide_eq_true_2 in Ht by done. unfold type_ids_of in Ht.
        destruct (mapM _ (rows_of features)) as [ids|] eqn:Hm; [|done].
        injection Ht as <-. by rewrite (type_ids_of_rows_omap _ ids Hm).
  - intros f Hvalid Hlast Hsome Hmissing.
    assert (Hne : features ≠ []) by (intros ->; done).
    destruct (call_on_valid pad c features Hne Hvalid) as [m ->].
    rewrite (final_flag_last false features f Hlast), bool_decide_eq_true_2 by done.
    destruct (type_ids_of pad true (rows_of features)) as [t|e] eqn:Ht.
    + exfalso.
      assert (Hall : Forall (λ g, is_Some (token_type_ids g)) features).
      { apply rows_type_ids.
        apply (proj1 (type_ids_of_Ok pad true (rows_of features)));
          [by eexists | done]. }
      apply Exists_exists in Hmissing as (g & Hg & Hnone).
      rewrite Forall_forall in Hall. specialize (Hall g Hg).
      rewrite Hnone in Hall. by destruct Hall.
    + by rewrite (type_ids_of_Err pad true _ e Ht).
Qed.

(** The lengths the loop asserts on a feature. *)
Definition lengths_agree (f : feature) : Prop :=
  length (seperate_ids f) = length (input_ids f)
  ∧ length (input_ids f) = length (attention_mask f)
  ∧ ∀ type_ids, token_type_ids f = Some type_ids →
      length type_ids = length (input_ids f).

(** X8: The first feature that is not valid decides the exception, whatever
    follows it: [AssertionError] when its lengths disagree, [ValueError]
    when they agree and its segment ids hold no 1. *)
Theorem first_invalid_feature_decides (pad : list (list Z) → list (list Z))
    (c : bool) (before after : list feature) (f : feature) :
  Forall valid_feature before →
  (¬ lengths_agree f →
   call pad c (before ++ f :: after) = Err AssertionError)
  ∧ (lengths_agree f → 1 ∉ seperate_ids f →
     call pad c (before ++ f :: after) = Err ValueError).
Proof.
  intros Hbefore.
  assert (Hstep : ∀ e, (∀ st i, split_feature st (i, f) = Err e) →
                       call pad c (before ++ f :: after) = Err e).
  { intros e He. unfold call.
    destruct (before ++ f :: after) as [|f0 l] eqn:Hl;
      [by destruct before|].
    cbn [mbind result_bind]. rewrite <- Hl. unfold split_features.
    rewrite enumerate_app, for_each_app.
    destruct (split_loop_valid before 1
                (bool_decide (is_Some (token_type_ids f0))) [] ∅ Hbefore)
      as (d & -> & _); [lia | done | apply lists_positions_empty |].
    cbn [mbind result_bind enumerate for_each]. by rewrite He. }
  split.
  - intros Hlen. apply Hstep. intros [[b nfs] d] i. unfold split_feature.
    case_decide as H2; [|done]. destruct H2 as [Hs Ha].
    destruct (token_type_ids f) as [type_ids|] eqn:Ht.
    + case_decide as H3; [|done]. exfalso. apply Hlen.
      split; [done|]. split; [done|].
      intros type_ids' Ht'. rewrite Ht in Ht'. by injection Ht' as <-.
    + exfalso. apply Hlen. split; [done|]. split; [done|].
      intros type_ids' Ht'. by rewrite Ht in Ht'.
  - intros (Hs & Ha & Ht) Hno. apply Hstep. intros st i.
    by apply split_feature_no_one.
Qed.

Lemma first_invalid_feature_decides_witness :
  (¬ lengths_agree {| input_ids := [101; 7]; attention_mask := [1];
                      token_type_ids := None; labels := [1];
                      seperate_ids := [0; 1] |} →
   call (pad_longest 0) true
     (sample_features
        ++ {| input_ids := [101; 7]; attention_mask := [1];
              token_type_ids := None; labels := [1];
              seperate_ids := [0; 1] |} :: sample_features)
   = Err AssertionError)
  ∧ (lengths_agree {| input_ids := [101; 7]; attention_mask := [1];
                      token_type_ids := None; labels := [1];
                      seperate_ids := [0; 1] |} →
     (1 ∉ seperate_ids {| input_ids := [101; 7]; attention_mask := [1];
                          token_type_ids := None; labels := [1];
                          seperate_ids := [0; 1] |}) →
     call (pad_longest 0) true
       (sample_features
          ++ {| input_ids := [101; 7]; attention_mask := [1];
                token_type_ids := None; labels := [1];
                seperate_ids := [0; 1] |} :: sample_features)
     = Err ValueError).
Proof.
  apply (first_invalid_feature_decides (pad_longest 0) true sample_features
           sample_features).
  apply sample_valid.
Defined.

End Batches.

(** ** What the pooler selects *)

Module Pooling.

Import Pooler.

Lemma index_at_position {A} (l : list A) (k : Z) (v : A) :
  0 ≤ k → index_at l k = Ok v → l !! Z.to_nat k = Some v.
Proof.
  intros Hk. unfold index_at. cbv zeta.
  rewrite (decide_False (P := k < 0)) by lia. rewrite decide_False by lia.
  destruct (l !! Z.to_nat k); [by intros [= ->] | done].
Qed.

Lemma index_at_last {A} (l : list A) (v : A) :
  index_at l (-1) = Ok v → last l = Some v.
Proof.
  unfold index_at. cbv zeta. rewrite (decide_True (P := -1 < 0)) by lia.
  case_decide; [done|]. rewrite last_lookup.
  replace (Z.to_nat (Z.of_nat (length l) + -1)) with (pred (length l)) by lia.
  destruct (l !! pred (length l)); [by intros [= ->] | done].
Qed.

Lemma index_at_elem_of {A} (l : list A) (k : Z) (v : A) :
  index_at l k = Ok v → v ∈ l.
Proof.
  unfold index_at. cbv zeta. case_decide; [done|].
  destruct (l !! _) eqn:Hl; [|done]. intros [= <-].
  by eapply list_elem_of_lookup_2.
Qed.

Lemma mapM_result_length {A B} (f : A → result B) (l : list A) (ys : list B) :
  mapM f l = Ok ys → length ys = length l.
Proof. intros Hm%mapM_result_Ok. symmetry. by eapply Forall2_length. Qed.

Lemma mapM_result_lookup {A B} (f : A → result B) (l : list A) (ys : list B)
    (i : nat) (x : A) (y : B) :
  mapM f l = Ok ys → l !! i = Some x → ys !! i = Some y → f x = Ok y.
Proof.
  intros Hm%mapM_result_Ok Hx Hy.
  destruct (Forall2_lookup_l _ _ _ _ _ Hm Hx) as (y' & Hy' & Hf). congruence.
Qed.

(** The position the decoder-only path reads in one row. *)
Lemma sequence_length_cases (pad : Z) (row : list Z) (k : Z) :
  sequence_length pad row = Ok k →
  (∀ body n, row = body ++ replicate (S n) pad → pad ∉ body →
     k = Z.of_nat (length body) - 1)
  ∧ (pad ∉ row → k = -1)
  ∧ (head row = Some pad → k = -1).
Proof.
  destruct row as [|t row]; [done|]. intros [= <-]. split; [|split].
  - intros body n Hrow Hbody.
    assert (Hidx : index_of pad (t :: row) = Some (length body)).
    { rewrite Hrow. apply Collator.index_of_first. split.
      - rewrite lookup_app_r by lia. by rewrite Nat.sub_diag.
      - intros j Hj Hl. apply Hbody. rewrite lookup_app_l in Hl by done.
        by eapply list_elem_of_lookup_2. }
    by rewrite Hidx.
  - intros Hno.
    destruct (index_of pad (t :: row)) as [i|] eqn:Hi; [|done].
    exfalso. apply Hno, Collator.index_of_is_Some. by rewrite Hi.
  - intros [= ->].
    assert (Hidx : index_of pad (pad :: row) = Some 0%nat).
    { apply Collator.index_of_first. split; [done | lia]. }
    by rewrite Hidx.
Qed.

(** X9: On the decoder-only path with a pad token id the pooler returns one
    vector per sequence: for a row that ends in pad tokens, the hidden
    state of the last token before the first pad; for a row without a pad
    token and for a row that starts with one (left padding), the hidden
    state at the last position. *)
Theorem llm_pooling_reads_last_text_token (self : Pooler)
    (hidden : list (list (list R))) (ids : list (list Z)) (pad : Z)
    (out : list (list R)) :
  is_llm self = true → pad_token_id self = Some pad →
  call self hidden (Some ids) = Ok out →
  length out = length hidden
  ∧ ∀ i tokens row v,
      hidden !! i = Some tokens → ids !! i = Some row → out !! i = Some v →
      (∀ body n, row = body ++ replicate (S n) pad → body ≠ [] → pad ∉ body →
         tokens !! (length body - 1)%nat = Some v)
      ∧ (pad ∉ row → last tokens = Some v)
      ∧ (head row = Some pad → last tokens = Some v).
Proof.
  intros Hllm Hpad. unfold call. rewrite Hllm, Hpad.
  rewrite bool_decide_eq_false_2 by (by intros [? _]).
  case_decide as Hlen; [|done].
  destruct (mapM (sequence_length pad) ids) as [ks|] eqn:Hks; [|done].
  cbn [mbind result_bind]. intros Hout.
  pose proof (mapM_result_length _ _ _ Hks) as Hklen.
  pose proof (mapM_result_length _ _ _ Hout) as Holen.
  rewrite length_zip in Holen.
  split; [lia|]. intros i tokens row v Ht Hr Hv.
  destruct (lookup_lt_is_Some_2 ks i) as [k Hk].
  { rewrite Hklen. by eapply lookup_lt_Some. }
  pose proof (mapM_result_lookup _ _ _ i row k Hks Hr Hk) as Hseq.
  assert (Hz : zip hidden ks !! i = Some (tokens, k)).
  { rewrite lookup_zip_with, Ht. simpl. by rewrite Hk. }
  pose proof (mapM_result_lookup _ _ _ i (tokens, k) v Hout Hz Hv) as Hidx.
  simpl in Hidx.
  destruct (sequence_length_cases pad row k Hseq) as (Hright & Hnone & Hleft).
  split; [|split].
  - intros body n Hrow Hbody Hno. rewrite (Hright body n Hrow Hno) in Hidx.
    assert (0 < length body)%nat by (destruct body; [done | simpl; lia]).
    apply index_at_position in Hidx; [|lia].
    by replace (Z.to_nat (Z.of_nat (length body) - 1))
      with (length body - 1)%nat in Hidx by lia.
  - intros Hno. rewrite (Hnone Hno) in Hidx. by apply index_at_last.
  - intros Hhead. rewrite (Hleft Hhead) in Hidx. by apply index_at_last.
Qed.

Lemma llm_pooling_reads_last_text_token_witness :
  length [[3; 4]; [9; 9]]%R = length [[[1; 2]; [3; 4]; [0; 0]]; [[5; 6]; [7; 8]; [9; 9]]]%R
  ∧ ∀ i tokens row v,
      [[[1; 2]; [3; 4]; [0; 0]]; [[5; 6]; [7; 8]; [9; 9]]]%R !! i = Some tokens →
      [[11; 12; 0]; [0; 11; 12]] !! i = Some row →
      [[3; 4]; [9; 9]]%R !! i = Some v →
      (∀ body n, row = body ++ replicate (S n) 0 → body ≠ [] → 0 ∉ body →
         tokens !! (length body - 1)%nat = Some v)
      ∧ (0 ∉ row → last tokens = Some v)
      ∧ (head row = Some 0 → last tokens = Some v).
Proof.
  apply (llm_pooling_reads_last_text_token
           {| pooling_strategy := None; is_llm := true; pad_token_id := Some 0 |}
           [[[1; 2]; [3; 4]; [0; 0]]; [[5; 6]; [7; 8]; [9; 9]]]%R
           [[11; 12; 0]; [0; 11; 12]] 0 [[3; 4]; [9; 9]]%R).
  - reflexivity.
  - reflexivity.
  - reflexivity.
Defined.

(** The running maximum over the token vectors of one sequence. *)
Lemma foldl_max_spec (d : nat) (rest : list (list R)) :
  ∀ acc, length acc = d → Forall (λ t, length t = d) rest →
    length (foldl (zip_with Rmax) acc rest) = d
    ∧ ∀ j x, foldl (zip_with Rmax) acc rest !! j = Some x →
        (∀ t y, t ∈ acc :: rest → t !! j = Some y → (y <= x)%R)
        ∧ (∃ t, t ∈ acc :: rest ∧ t !! j = Some x).
Proof.
  induction rest as [|u rest IH]; intros acc Hacc Hrest.
  - split; [done|]. intros j x Hx. simpl in Hx. split.
    + intros t y ->%list_elem_of_singleton Hy. rewrite Hx in Hy.
      injection Hy as <-. apply Rle_refl.
    + exists acc. split; [by left | done].
  - apply Forall_cons in Hrest as [Hu Hrest]. simpl.
    destruct (IH (zip_with Rmax acc u)) as [Hlen Hspec]; [|done|].
    { rewrite length_zip_with. lia. }
    split; [done|]. intros j x Hx.
    destruct (Hspec j x Hx) as [Hle (t & Ht & Htx)].
    assert (Hj : (j < d)%nat).
    { rewrite <- Hlen. by eapply lookup_lt_Some. }
    destruct (lookup_lt_is_Some_2 acc j) as [a Ha]; [lia|].
    destruct (lookup_lt_is_Some_2 u j) as [b Hb]; [lia|].
    assert (Hm : zip_with Rmax acc u !! j = Some (Rmax a b)).
    { rewrite lookup_zip_with, Ha. simpl. by rewrite Hb. }
    assert (Hmx : (Rmax a b <= x)%R) by (apply (Hle _ _ (list_elem_of_here _ _) Hm)).
    split.
    + intros t' y [-> | [-> | Hin]%elem_of_cons]%elem_of_cons Hy.
      * rewrite Ha in Hy. injection Hy as <-.
        eapply Rle_trans; [apply Rmax_l | exact Hmx].
      * rewrite Hb in Hy. injection Hy as <-.
        eapply Rle_trans; [apply Rmax_r | exact Hmx].
      * apply (Hle t' y); [by right | done].
    + apply elem_of_cons in Ht as [-> | Hin].
      * rewrite Hm in Htx. injection Htx as <-.
        destruct (Rmax_case a b (λ m, m = a ∨ m = b)) as [-> | ->];
          [by left | by right | |].
        -- exists acc. split; [by left | done].
        -- exists u. split; [by right; left | done].
      * exists t. split; [by right; right | done].
Qed.

(** X10: Max pooling returns, for every sequence whose token vectors have one
    width, a vector of that width whose every component is the largest
    value the sequence has in that component: no token exceeds it and some
    token attains it. *)
Theorem max_pooling_is_componentwise_maximum (self : Pooler)
    (hidden : list (list (list R))) (ids : option (list (list Z)))
    (out : list (list R)) :
  is_llm self = false → pooling_strategy self = Some "max" →
  call self hidden ids = Ok out →
  length out = length hidden
  ∧ ∀ i tokens v d,
      hidden !! i = Some tokens → out !! i = Some v →
      Forall (λ t, length t = d) tokens →
      length v = d
      ∧ ∀ j x, v !! j = Some x →
          (∀ t y, t ∈ tokens → t !! j = Some y → (y <= x)%R)
          ∧ (∃ t, t ∈ tokens ∧ t !! j = Some x).
Proof.
  intros Hllm Hmax. unfold call. rewrite Hllm, Hmax.
  repeat (case_decide; [done|]). case_decide; [|done]. intros Hout.
  split; [by eapply mapM_result_length|].
  intros i tokens v d Ht Hv Hd.
  pose proof (mapM_result_lookup _ _ _ i tokens v Hout Ht Hv) as Hm.
  destruct tokens as [|t0 rest]; [done|]. injection Hm as <-.
  apply Forall_cons in Hd as [Hfirst Hrest].
  by apply foldl_max_spec.
Qed.

Lemma max_pooling_is_componentwise_maximum_witness :
  length [[3; 4]]%R = length [[[1; 4]; [3; 2]]]%R
  ∧ ∀ i tokens v d,
      [[[1; 4]; [3; 2]]]%R !! i = Some tokens → [[3; 4]]%R !! i = Some v →
      Forall (λ t, length t = d) tokens →
      length v = d
      ∧ ∀ j x, v !! j = Some x →
          (∀ t y, t ∈ tokens → t !! j = Some y → (y <= x)%R)
          ∧ (∃ t, t ∈ tokens ∧ t !! j = Some x).
Proof.
  apply (max_pooling_is_componentwise_maximum
           {| pooling_strategy := Some "max"; is_llm := false;
              pad_token_id := None |}
           [[[1; 4]; [3; 2]]]%R None [[3; 4]]%R).
  - reflexivity.
  - reflexivity.
  - unfold call. simpl. do 2 f_equal.
    rewrite (Rmax_right 1 3) by lra. by rewrite (Rmax_left 4 2) by lra.
Defined.

Lemma mapM_result_Forall {A B} (f : A → result B) (P : B → Prop) (l : list A)
    (ys : list B) :
  mapM f l = Ok ys → (∀ x y, x ∈ l → f x = Ok y → P y) → Forall P ys.
Proof.
  intros Hm%mapM_result_Ok HP. apply Forall_forall. intros y Hy.
  apply list_elem_of_lookup in Hy as [i Hi].
  destruct (Forall2_lookup_r _ _ _ _ _ Hm Hi) as (x & Hx & Hf).
  eapply HP; [|exact Hf]. by eapply list_elem_of_lookup_2.
Qed.

Lemma foldl_plus_length (d : nat) (rest : list (list R)) :
  ∀ acc, length acc = d → Forall (λ t, length t = d) rest →
    length (foldl (zip_with Rplus) acc rest) = d.
Proof.
  induction rest as [|u rest IH]; intros acc Hacc Hrest; [done|].
  apply Forall_cons in Hrest as [Hu Hrest]. simpl. apply IH; [|done].
  rewrite length_zip_with. lia.
Qed.

Lemma mean_tokens_length (d : nat) (tokens : list (list R)) :
  tokens ≠ [] → Forall (λ t, length t = d) tokens →
  length (mean_tokens tokens) = d.
Proof.
  intros Hne Hd. unfold mean_tokens, sum_tokens. rewrite length_fmap.
  destruct tokens as [|t rest]; [done|].
  apply Forall_cons in Hd as [Ht Hrest]. by apply foldl_plus_length.
Qed.

(** X11: On sequences that are not empty and whose token vectors have one width
    d, every call that returns, on either path and under every strategy,
    returns exactly one vector per sequence, each of width d. *)
Theorem pooled_output_shape (self : Pooler) (hidden : list (list (list R)))
    (ids : option (list (list Z))) (out : list (list R)) (d : nat) :
  Forall (λ tokens, tokens ≠ [] ∧ Forall (λ t, length t = d) tokens) hidden →
  call self hidden ids = Ok out →
  length out = length hidden ∧ Forall (λ v, length v = d) out.
Proof.
  intros Hshape.
  assert (Hwidth : ∀ tokens (v : list R),
            tokens ∈ hidden → v ∈ tokens → length v = d).
  { intros tokens v Ht Hv. rewrite Forall_forall in Hshape.
    destruct (Hshape tokens Ht) as [_ Hd]. rewrite Forall_forall in Hd.
    by apply Hd. }
  unfold call. destruct (is_llm self).
  - case_bool_decide; [done|].
    destruct (match pad_token_id self, ids with
              | Some pad, Some ids' => _
              | _, _ => _
              end) as [ks|] eqn:Hks; [|done].
    cbn [mbind result_bind]. intros Hout.
    assert (Hklen : length ks = length hidden).
    { destruct (pad_token_id self) as [pad|].
      - destruct ids as [ids'|].
        + case_decide as Hlen; [|done].
          apply mapM_result_length in Hks. lia.
        + injection Hks as <-. by rewrite length_replicate.
      - injection Hks as <-. by rewrite length_replicate. }
    split.
    + apply mapM_result_length in Hout. rewrite length_zip in Hout. lia.
    + eapply mapM_result_Forall; [exact Hout|].
      intros [tokens k] v Hin Hv. simpl in Hv.
      apply (Hwidth tokens); [|exact (index_at_elem_of _ _ _ Hv)].
      apply list_elem_of_lookup in Hin as [i Hi].
      apply lookup_zip_with_Some in Hi as (t' & k' & [= <- <-] & Ht & _).
      by eapply list_elem_of_lookup_2.
  - repeat case_decide; intros Hout; try done.
    + split; [by eapply mapM_result_length|].
      eapply mapM_result_Forall; [exact Hout|].
      intros tokens v Hin Hv. apply (Hwidth tokens); [done|].
      exact (index_at_elem_of _ _ _ Hv).
    + split; [by eapply mapM_result_length|].
      eapply mapM_result_Forall; [exact Hout|].
      intros tokens v Hin Hv.
      cbv beta in Hv.
      destruct (index_at tokens 0) as [cls|] eqn:Hcls;
        cbn [mbind result_bind] in Hv; [|done].
      injection Hv as <-. rewrite length_fmap, length_zip_with.
      rewrite Forall_forall in Hshape. destruct (Hshape tokens Hin) as [Hne Hd].
      rewrite (mean_tokens_length d) by done.
      rewrite (Hwidth tokens cls Hin) by exact (index_at_elem_of _ _ _ Hcls). lia.
    + split; [by eapply mapM_result_length|].
      eapply mapM_result_Forall; [exact Hout|].
      intros tokens v Hin Hv. apply (Hwidth tokens); [done|].
      exact (index_at_elem_of _ _ _ Hv).
    + injection Hout as <-. split; [by rewrite length_fmap|].
      apply Forall_fmap. eapply Forall_impl; [exact Hshape|].
      intros tokens [Hne Hd]. simpl. by apply mean_tokens_length.
    + split; [by eapply mapM_result_length|].
      eapply mapM_result_Forall; [exact Hout|].
      intros tokens v Hin Hv.
      rewrite Forall_forall in Hshape. destruct (Hshape tokens Hin) as [Hne Hd].
      destruct tokens as [|t rest]; [done|]. injection Hv as <-.
      apply Forall_cons in Hd as [Ht Hrest].
      by destruct (foldl_max_spec d rest t Ht Hrest) as [Hl _].
Qed.

Lemma pooled_output_shape_witness :
  length [[1; 2]]%R = length [[[1; 2]; [3; 4]; [5; 6]]]%R
  ∧ Forall (λ v, length v = 2%nat) [[1; 2]]%R.
Proof.
  apply (pooled_output_shape
           {| pooling_strategy := Some "cls"; is_llm := false;
              pad_token_id := None |}
           [[[1; 2]; [3; 4]; [5; 6]]]%R None [[1; 2]]%R 2).
  - repeat constructor. discriminate.
  - reflexivity.
Defined.

(** A call that returns has one vector per sequence. *)
Lemma call_length (self : Pooler) (hidden : list (list (list R)))
    (ids : option (list (list Z))) (out : list (list R)) :
  call self hidden ids = Ok out → length out = length hidden.
Proof.
  unfold call. destruct (is_llm self).
  - case_bool_decide; [done|].
    destruct (match pad_token_id self, ids with
              | Some pad, Some ids' => _
              | _, _ => _
              end) as [ks|] eqn:Hks; [|done].
    cbn [mbind result_bind]. intros Hout.
    assert (Hklen : length ks = length hidden).
    { destruct (pad_token_id self) as [pad|].
      - destruct ids as [ids'|].
        + case_decide as Hlen; [|done].
          apply mapM_result_length in Hks. lia.
        + injection Hks as <-. by rewrite length_replicate.
      - injection Hks as <-. by rewrite length_replicate. }
    apply mapM_result_length in Hout. rewrite length_zip in Hout. lia.
  - repeat case_decide; intros Hout; try done;
      try (by eapply mapM_result_length).
    injection Hout as <-. by rewrite length_fmap.
Qed.

End Pooling.

(** ** Bounds and invariances of the loss terms *)

Module LossBounds.

Import Loss.

Local Open Scope R_scope.

Lemma rsum_cons (x : R) (l : list R) : rsum (x :: l) = x + rsum l.
Proof. done. Qed.

Lemma rsum_nonneg (l : list R) : Forall (λ x, 0 <= x) l → 0 <= rsum l.
Proof.
  induction 1 as [|x l Hx _ IH]; [apply Rle_refl|]. rewrite rsum_cons. lra.
Qed.

Lemma rsum_exp_nonneg (l : list R) : 0 <= rsum (exp <$> l).
Proof.
  apply rsum_nonneg, Forall_fmap, Forall_forall. intros x _. simpl.
  left. apply exp_pos.
Qed.

Lemma rsum_exp_ge (l : list R) (x : R) : x ∈ l → exp x <= rsum (exp <$> l).
Proof.
  induction l as [|y l IH]; [by intros ?%elem_of_nil|].
  intros [-> | Hin]%elem_of_cons; rewrite fmap_cons, rsum_cons.
  - pose proof (rsum_exp_nonneg l). lra.
  - pose proof (IH Hin). pose proof (exp_pos y). lra.
Qed.

(** A log-sum-exp over a list that holds a 0 is not negative. *)
Lemma logsumexp_zero_nonneg (l : list R) : 0 <= logsumexp (0 :: l).
Proof.
  unfold logsumexp. rewrite fmap_cons, rsum_cons, exp_0.
  pose proof (rsum_exp_nonneg l).
  rewrite <- ln_1. destruct (Req_dec (rsum (exp <$> l)) 0) as [-> | Hne].
  - rewrite Rplus_0_r. apply Rle_refl.
  - left. apply ln_increasing; lra.
Qed.

Lemma ranking_loss_nonneg (y_true : list (list R)) (y_pred : list R) (v : R) :
  ranking_loss y_true y_pred = Ok v → 0 <= v.
Proof.
  unfold ranking_loss. case_decide; [|done]. intros [= <-].
  apply logsumexp_zero_nonneg.
Qed.

Lemma evens_odds_length {A} (n : nat) (l : list A) :
  length l = (2 * n)%nat → length (evens l) = n ∧ length (odds l) = n.
Proof.
  revert l. induction n as [|n IH]; intros l Hl.
  - destruct l; [done | simpl in Hl; lia].
  - destruct l as [|x [|y l]]; simpl in Hl; try lia.
    destruct (IH l) as [He Ho]; [lia|].
    split; [simpl; by rewrite He|].
    unfold odds in *. simpl. destruct l as [|z l]; [simpl in *; lia|].
    simpl. simpl in Ho. by rewrite Ho.
Qed.

Lemma evens_Forall {A} (P : A → Prop) (l : list A) :
  Forall P l → Forall P (evens l).
Proof.
  revert l. fix IH 2. intros l Hl. destruct Hl as [|x l Hx Hl]; [constructor|].
  destruct Hl as [|y l Hy Hl]; simpl; [by constructor|].
  constructor; [done|]. by apply IH.
Qed.

Lemma column0_total (t : list (list R)) :
  Forall (λ row, row ≠ []) t → ∃ y, column0 t = Ok y ∧ length y = length t.
Proof.
  intros Ht. unfold column0.
  destruct (mapM_result_total (λ row : list R, match row with
                                               | y :: _ => Ok y
                                               | [] => Err IndexError
                                               end) t) as [y Hy].
  { eapply Forall_impl; [exact Ht|]. intros [|x row] Hrow; [done | by eexists]. }
  exists y. split; [done|]. apply mapM_result_Ok in Hy.
  symmetry. by eapply Forall2_length.
Qed.

Lemma order_matrix_shape (y : list R) :
  length (order_matrix y) = length y
  ∧ Forall (λ row, length row = length y) (order_matrix y).
Proof.
  unfold order_matrix. split; [by rewrite length_fmap|].
  apply Forall_fmap, Forall_forall. intros yi _. simpl. by rewrite length_fmap.
Qed.

Lemma ranking_loss_total (y : list R) (y_pred : list R) :
  length y = length y_pred →
  ∃ v, ranking_loss (order_matrix y) y_pred = Ok v ∧ 0 <= v.
Proof.
  intros Hlen. destruct (order_matrix_shape y) as [Hrows Hcols].
  destruct (ranking_loss (order_matrix y) y_pred) as [v|e] eqn:Hr.
  - exists v. split; [done|]. by eapply ranking_loss_nonneg.
  - exfalso. unfold ranking_loss in Hr. rewrite decide_True in Hr; [done|].
    split; [congruence|]. by rewrite <- Hlen.
Qed.

Lemma gold_order_total (y_true : list (list R)) (n : nat) :
  length y_true = (2 * n)%nat → Forall (λ row, row ≠ []) y_true →
  ∃ y, column0 (evens y_true) = Ok y ∧ length y = n.
Proof.
  intros Hlen Hrows.
  destruct (column0_total (evens y_true)) as (y & Hy & Hn);
    [by apply evens_Forall|].
  exists y. split; [done|]. rewrite Hn. by apply evens_odds_length.
Qed.

Lemma ranking_losses_bound (y_true y_pred : list (list R)) (tau : R)
    (n d : nat) :
  length y_true = (2 * n)%nat → length y_pred = (2 * n)%nat →
  Forall (λ row, row ≠ []) y_true →
  Forall (λ row, length row = d) y_pred →
  (∃ v, cosine_loss y_true y_pred tau = Ok v ∧ 0 <= v)
  ∧ (∀ h, d = (2 * h)%nat → (0 < h)%nat →
       Forall (λ row, ∃ x, x ∈ row ∧ x ≠ 0) y_pred →
       ∃ v, angle_loss y_true y_pred tau = Ok v ∧ 0 <= v).
Proof.
  intros Htrue Hpred Hrows Hwidth.
  destruct (gold_order_total y_true n Htrue Hrows) as (y & Hy & Hn).
  split.
  - unfold cosine_loss. rewrite Hy. cbn [mbind result_bind].
    destruct (evens_odds_length n (normalize <$> y_pred)) as [He Ho];
      [by rewrite length_fmap|].
    rewrite decide_True by congruence.
    apply ranking_loss_total. rewrite length_zip_with. lia.
  - intros h -> Hh Hnonzero. unfold angle_loss. rewrite Hy.
    cbn [mbind result_bind]. unfold chunk2. rewrite decide_True.
    2:{ eapply Forall_impl; [exact Hwidth|]. intros row Hrow. simpl.
        rewrite Hrow. split.
        - apply Nat.even_spec. by exists h.
        - destruct row; [simpl in Hrow; lia | done]. }
    cbn [mbind result_bind].
    destruct (evens_odds_length n
                ((λ row : list R, take (length row / 2) row) <$> y_pred))
      as [Ha Hc]; [by rewrite length_fmap|].
    destruct (evens_odds_length n
                ((λ row : list R, drop (length row / 2) row) <$> y_pred))
      as [Hb Hd]; [by rewrite length_fmap|].
    rewrite decide_True by congruence.
    apply ranking_loss_total.
    rewrite length_zip_with, !length_zip. lia.
Qed.

(** *** The in-batch negative term *)

Lemma target_matrix_total (n : nat) (ys : list Z) :
  length ys = n →
  ∃ m, TargetMatrix.make_target_matrix n ys = Some m
       ∧ length m = n
       ∧ Forall (λ row, length row = n) m
       ∧ Forall (Forall (λ v, v = 0%Z ∨ v = 1%Z)) m.
Proof.
  intros Hlen.
  destruct (TargetMatrix.make_target_matrix n ys) as [m|] eqn:Hm.
  - exists m. split; [done|].
    destruct (TargetMatrix.make_target_matrix_shape n ys m Hm) as [Hr Hc].
    split; [done|]. split; [done|].
    unfold TargetMatrix.make_target_matrix in Hm.
    destruct (TargetMatrix.broadcast n ys); [|done]. injection Hm as <-.
    apply Forall_fmap, Forall_forall. intros r _. simpl.
    apply Forall_fmap, Forall_forall. intros c _. simpl.
    case_decide; [by right | by left].
  - exfalso. unfold TargetMatrix.make_target_matrix, TargetMatrix.broadcast in Hm.
    by rewrite decide_True in Hm.
Qed.

Lemma ln_le_sum (row : list R) (x : R) : x ∈ row → x <= ln (rsum (exp <$> row)).
Proof.
  intros Hx. pose proof (rsum_exp_ge row x Hx) as Hle.
  pose proof (exp_pos x) as Hpos. rewrite <- (ln_exp x) at 1.
  destruct Hle as [Hlt | <-]; [|apply Rle_refl].
  left. by apply ln_increasing.
Qed.

Lemma log_softmax_nonpos (row : list R) : Forall (λ x, x <= 0) (log_softmax row).
Proof.
  unfold log_softmax, logsumexp. apply Forall_fmap, Forall_forall.
  intros x Hx. simpl. pose proof (ln_le_sum row x Hx). lra.
Qed.

Lemma rsum_products_nonpos (ls t : list R) :
  Forall (λ x, x <= 0) ls → Forall (λ x, 0 <= x) t →
  rsum (zip_with Rmult ls t) <= 0.
Proof.
  intros Hls. revert t. induction Hls as [|x ls Hx _ IH]; intros t Ht.
  - apply Rle_refl.
  - destruct Ht as [|y t Hy Ht]; [apply Rle_refl|].
    cbn [zip_with]. rewrite rsum_cons. specialize (IH t Ht).
    assert (x * y <= 0) by (replace 0 with (x * 0) by lra;
                             by apply Rmult_le_compat_neg_l).
    lra.
Qed.

Lemma crossentropy_nonneg (y_true y_pred : list (list R)) :
  Forall (Forall (λ x, 0 <= x)) y_true →
  Forall (λ x, 0 <= x) (categorical_crossentropy y_true y_pred).
Proof.
  intros Ht. unfold categorical_crossentropy. revert y_pred.
  induction Ht as [|t y_true Hrow _ IH]; intros y_pred; [constructor|].
  destruct y_pred as [|p y_pred]; [constructor|]. cbn [zip_with].
  constructor; [|apply IH].
  pose proof (rsum_products_nonpos (log_softmax p) t (log_softmax_nonpos p) Hrow).
  lra.
Qed.

Lemma mean_nonneg (l : list R) : l ≠ [] → Forall (λ x, 0 <= x) l → 0 <= mean l.
Proof.
  intros Hne Hl. unfold mean. apply Rle_mult_inv_pos; [by apply rsum_nonneg|].
  apply lt_0_INR. destruct l; [done | simpl; lia].
Qed.

Lemma crossentropy_length (y_true y_pred : list (list R)) :
  length (categorical_crossentropy y_true y_pred)
  = (length y_true `min` length y_pred)%nat.
Proof. unfold categorical_crossentropy. by rewrite length_zip_with. Qed.

(** The similarities of [n] embeddings form [n] rows. *)
Lemma similarities_length (ps : list (list R)) (tau : R)
    (neg_mask : list (list R)) (negative_weights : R) :
  length neg_mask = length ps →
  length (if Rlt_dec 0 negative_weights
          then zip_with (zip_with (λ s m, s + m * negative_weights))
                 (imap (λ i u, imap (λ j v,
                    (dot u v - (if decide (i = j) then 1 else 0) * 1e12) * tau)
                    ps) ps) neg_mask
          else imap (λ i u, imap (λ j v,
                 (dot u v - (if decide (i = j) then 1 else 0) * 1e12) * tau)
                 ps) ps)
  = length ps.
Proof.
  intros Hn. destruct (Rlt_dec 0 negative_weights).
  - rewrite length_zip_with, length_imap. lia.
  - by rewrite length_imap.
Qed.

Definition nonneg_matrix (m : list (list R)) : Prop :=
  Forall (Forall (λ x, 0 <= x)) m.

Lemma target_nonneg (m : list (list Z)) :
  Forall (Forall (λ v, v = 0%Z ∨ v = 1%Z)) m →
  nonneg_matrix (fmap (M:=list) IZR <$> m).
Proof.
  intros Hm. apply Forall_fmap. eapply Forall_impl; [exact Hm|].
  intros row Hrow. simpl. apply Forall_fmap. eapply Forall_impl; [exact Hrow|].
  intros v [-> | ->]; simpl; lra.
Qed.

Lemma sum_nonneg_matrix (a b : list (list R)) :
  nonneg_matrix a → nonneg_matrix b →
  nonneg_matrix (zip_with (zip_with Rplus) a b).
Proof.
  intros Ha. revert b. induction Ha as [|r a Hr _ IH]; intros b Hb; [constructor|].
  destruct Hb as [|s b Hs Hb]; [constructor|]. cbn [zip_with].
  constructor; [|by apply IH].
  clear IH. revert s Hs. induction Hr as [|x r Hx _ IH]; intros s Hs; [constructor|].
  destruct Hs as [|y s Hy Hs]; [constructor|]. cbn [zip_with].
  constructor; [lra | by apply IH].
Qed.

(** A similarity matrix the loss accepts: [n] rows of [n] entries, none
    negative. *)
Definition similarity_mask (n : nat) (m : list (list R)) : Prop :=
  length m = n ∧ Forall (λ row, length row = n) m ∧ nonneg_matrix m.

(** Labels as the collator emits them: one column, within the range of a
    32-bit integer. *)
Definition label_column (y_true : list (list R)) : Prop :=
  Forall (λ row, ∃ y, row = [y] ∧ Rabs y < 2147483648) y_true.

Lemma label_column_total (y_true : list (list R)) :
  label_column y_true →
  ∃ labels, column0 y_true = Ok labels ∧ length labels = length y_true.
Proof.
  intros Hcol. apply column0_total. eapply Forall_impl; [exact Hcol|].
  by intros row (y & -> & _).
Qed.

(** What the in-batch negative term computes on a label column. *)
Lemma in_batch_negative_loss_unfold (y_true y_pred : list (list R)) (tau : R)
    (similar_matrix : option (list (list R))) (negative_weights : R) :
  label_column y_true → length y_true = length y_pred →
  (∀ m, similar_matrix = Some m → similarity_mask (length y_pred) m) →
  ∃ labels target sims,
    column0 y_true = Ok labels
    ∧ TargetMatrix.make_target_matrix (length y_pred) (trunc <$> labels)
      = Some target
    ∧ length sims = length y_pred
    ∧ in_batch_negative_loss y_true y_pred tau similar_matrix negative_weights
      = Ok (mean (categorical_crossentropy
                    (match similar_matrix with
                     | Some m => zip_with (zip_with Rplus)
                                   (fmap (M:=list) IZR <$> target) m
                     | None => fmap (M:=list) IZR <$> target
                     end) sims)).
Proof.
  intros Hcol Hlen Hmask.
  destruct (label_column_total y_true Hcol) as (labels & Hlabels & Hn).
  destruct (target_matrix_total (length y_pred)
              ((λ y, if Req_dec_T y 0 then 1%Z else 0%Z) <$> labels))
    as (neg & Hneg & Hnrows & _); [rewrite length_fmap; congruence|].
  destruct (target_matrix_total (length y_pred) (trunc <$> labels))
    as (target & Htarget & Hrows & Hcols & Hbits);
    [rewrite length_fmap; congruence|].
  exists labels, target.
  eexists. split; [done|]. split; [done|].
  split; [|unfold in_batch_negative_loss; rewrite Hlabels;
           cbn [mbind result_bind]; rewrite Hneg, Htarget;
           cbn [mbind result_bind]].
  2:{ destruct similar_matrix as [m|].
      - destruct (Hmask m eq_refl) as (Hm1 & Hm2 & _).
        rewrite decide_True by done. cbn [mbind result_bind]. reflexivity.
      - cbn [mbind result_bind]. reflexivity. }
  rewrite similarities_length; by rewrite !length_fmap.
Qed.

Lemma in_batch_negative_loss_bound (y_true y_pred : list (list R))
    (tau : R) (similar_matrix : option (list (list R))) (negative_weights : R) :
  y_pred ≠ [] →
  label_column y_true → length y_true = length y_pred →
  (∀ m, similar_matrix = Some m → similarity_mask (length y_pred) m) →
  ∃ v, in_batch_negative_loss y_true y_pred tau similar_matrix negative_weights
       = Ok v
       ∧ 0 <= v.
Proof.
  intros Hne Hcol Hlen Hmask.
  destruct (in_batch_negative_loss_unfold y_true y_pred tau similar_matrix
              negative_weights Hcol Hlen Hmask)
    as (labels & target & sims & Hlabels & Htarget & Hsims & ->).
  eexists. split; [done|].
  destruct (target_matrix_total (length y_pred) (trunc <$> labels))
    as (target' & Htarget' & Hrows & Hcols & Hbits).
  { rewrite length_fmap. apply label_column_total in Hcol as (l & Hl & Hn).
    congruence. }
  assert (target' = target) as -> by congruence.
  apply mean_nonneg.
  - intros Hnil. apply (f_equal length) in Hnil.
    rewrite crossentropy_length in Hnil. simpl in Hnil.
    assert (0 < length y_pred)%nat by (destruct y_pred; [done | simpl; lia]).
    destruct similar_matrix as [m|].
    + destruct (Hmask m eq_refl) as (Hm1 & _).
      rewrite length_zip_with, length_fmap in Hnil. lia.
    + rewrite length_fmap in Hnil. lia.
  - apply crossentropy_nonneg. destruct similar_matrix as [m|].
    + apply sum_nonneg_matrix; [by apply target_nonneg|].
      by destruct (Hmask m eq_refl) as (_ & _ & ?).
    + by apply target_nonneg.
Qed.

(** *** Gold scores that truncate to 0, and a mask of zeros *)

Lemma trunc_fraction (y : R) : -1 < y < 1 → trunc y = 0%Z.
Proof.
  intros [Hlo Hhi]. unfold trunc.
  assert (Hint : ∀ r, 0 <= r < 1 → Int_part r = 0%Z).
  { intros r [H0 H1]. destruct (base_Int_part r) as [Hle Hgt].
    assert (Hup : IZR (Int_part r) < 1) by lra.
    assert (Hdown : -1 < IZR (Int_part r)) by lra.
    apply lt_IZR in Hup. apply (lt_IZR (-1)) in Hdown. lia. }
  destruct (Rle_dec 0 y).
  - apply Hint. lra.
  - rewrite Hint by lra. done.
Qed.

Lemma Forall_zip_with_intro {A B C} (f : A → B → C) (P : A → Prop) (Q : B → Prop)
    (T : C → Prop) (l : list A) (k : list B) :
  (∀ a b, P a → Q b → T (f a b)) → Forall P l → Forall Q k →
  Forall T (zip_with f l k).
Proof.
  intros Hf Hl. revert k. induction Hl as [|a l Ha _ IH]; intros k Hk; [constructor|].
  destruct Hk as [|b k Hb Hk]; [constructor|]. cbn [zip_with].
  constructor; [by apply Hf | by apply IH].
Qed.

(** Labels that are all 0 give a target without a single 1: every row is
    encoded by -1 and every column by -2. *)
Lemma zero_target (n : nat) (ys : list Z) (m : list (list Z)) :
  Forall (λ v, v = 0%Z) ys →
  TargetMatrix.make_target_matrix n ys = Some m →
  Forall (Forall (λ v, v = 0%Z)) m.
Proof.
  intros Hys. unfold TargetMatrix.make_target_matrix.
  destruct (TargetMatrix.broadcast n ys) as [y|] eqn:Hb; [|done].
  assert (Hy : Forall (λ v, v = 0%Z) y).
  { unfold TargetMatrix.broadcast in Hb. case_decide; [by simplify_eq|].
    destruct ys as [|y0 [|]]; simplify_eq.
    apply Forall_cons in Hys as [-> _]. by apply Forall_replicate. }
  intros [= <-].
  assert (Hany : ∀ l : list Z, Forall (λ _, True) l).
  { intros l. by apply Forall_forall. }
  assert (Hzero : ∀ l, Forall (λ v, v = 0%Z) (zip_with TargetMatrix.mul32 l y)).
  { intros l. eapply Forall_zip_with_intro; [|apply Hany|exact Hy].
    intros a b _ ->. unfold TargetMatrix.mul32. by rewrite Z.mul_0_r. }
  assert (Hcode : ∀ l code,
            Forall (λ v, v = code)
              (zip_with (λ a b, TargetMatrix.add32 a
                                  (TargetMatrix.mul32 (TargetMatrix.eq0 b) code))
                 (zip_with TargetMatrix.mul32 l y) y)
            ∨ ¬ (-4 < code < 0)%Z).
  { intros l code. destruct (decide (-4 < code < 0)%Z) as [Hc|]; [left | by right].
    eapply Forall_zip_with_intro; [|apply Hzero|exact Hy].
    intros a b -> ->. assert (code = -1 ∨ code = -2 ∨ code = -3)%Z as Hcases by lia.
    by destruct Hcases as [-> | [-> | ->]]. }
  apply Forall_fmap, Forall_forall. intros r Hr. simpl.
  apply Forall_fmap, Forall_forall. intros c Hc. simpl.
  destruct (Hcode (TargetMatrix.partner32 <$> (Z.of_nat <$> seq 0 n)) (-1)%Z)
    as [Hrow | ?]; [|lia].
  destruct (Hcode (Z.of_nat <$> seq 0 n) (-2)%Z) as [Hcol | ?]; [|lia].
  rewrite Forall_forall in Hrow, Hcol.
  rewrite (Hrow r Hr), (Hcol c Hc). done.
Qed.

Lemma crossentropy_zero_target (y_true y_pred : list (list R)) :
  Forall (Forall (λ x, x = 0)) y_true →
  Forall (λ x, x = 0) (categorical_crossentropy y_true y_pred).
Proof.
  intros Ht. unfold categorical_crossentropy. revert y_pred.
  induction Ht as [|t y_true Hrow _ IH]; intros y_pred; [constructor|].
  destruct y_pred as [|p y_pred]; [constructor|]. cbn [zip_with].
  constructor; [|apply IH].
  assert (Hz : rsum (zip_with Rmult (log_softmax p) t) = 0); [|lra].
  clear IH. generalize (log_softmax p). intros ls. revert ls.
  induction Hrow as [|x t -> _ IH]; intros [|l ls]; try done.
  cbn [zip_with]. rewrite rsum_cons, IH. lra.
Qed.

Lemma mean_zeros (l : list R) : Forall (λ x, x = 0) l → mean l = 0.
Proof.
  intros Hl. unfold mean.
  assert (rsum l = 0) as ->; [|lra].
  induction Hl as [|x l -> _ IH]; [done|]. rewrite rsum_cons, IH. lra.
Qed.

(** X12: With gold scores strictly between -1 and 1, which [int()] truncates to
    0, and no similarity matrix, the in-batch negative term is 0 whatever the
    embeddings are: the target matrix has no 1. *)
Theorem in_batch_negative_loss_zero_for_fractional_scores
    (y_true y_pred : list (list R)) (tau negative_weights : R) :
  y_pred ≠ [] → length y_true = length y_pred →
  Forall (λ row, ∃ y, row = [y] ∧ -1 < y < 1) y_true →
  in_batch_negative_loss y_true y_pred tau None negative_weights = Ok 0.
Proof.
  intros _ Hlen Hfrac.
  assert (Hcol : label_column y_true).
  { eapply Forall_impl; [exact Hfrac|]. intros row (y & -> & Hy).
    exists y. split; [done|]. apply Rabs_def1; lra. }
  destruct (in_batch_negative_loss_unfold y_true y_pred tau None
              negative_weights Hcol Hlen)
    as (labels & target & sims & Hlabels & Htarget & Hsims & ->); [done|].
  f_equal. apply mean_zeros, crossentropy_zero_target.
  assert (Hzero : Forall (λ v, v = 0%Z) (trunc <$> labels)).
  { apply Forall_fmap, Forall_forall. intros y Hy. simpl.
    unfold column0 in Hlabels. apply mapM_result_Ok in Hlabels.
    apply list_elem_of_lookup in Hy as [i Hi].
    destruct (Forall2_lookup_r _ _ _ _ _ Hlabels Hi) as (row & Hrow & Hhead).
    rewrite Forall_forall in Hfrac.
    destruct (Hfrac row) as (y' & -> & Hy'); [by eapply list_elem_of_lookup_2|].
    injection Hhead as <-. by apply trunc_fraction. }
  pose proof (zero_target _ _ _ Hzero Htarget) as Hm.
  apply Forall_fmap. eapply Forall_impl; [exact Hm|]. intros row Hrow. simpl.
  apply Forall_fmap. eapply Forall_impl; [exact Hrow|]. by intros v ->.
Qed.

Lemma plus_zero_matrix (n : nat) (a : list (list R)) :
  length a = n → Forall (λ row, length row = n) a →
  zip_with (zip_with Rplus) a (replicate n (replicate n 0)) = a.
Proof.
  intros Hrows Hcols.
  assert (Hrow : ∀ row : list R, length row = n →
            zip_with Rplus row (replicate n 0) = row).
  { intros row Hl. rewrite <- Hl. clear. induction row as [|x row IH]; [done|].
    simpl. by rewrite IH, Rplus_0_r. }
  assert (Hall : zip_with (zip_with Rplus) a
                   (replicate (length a) (replicate n 0)) = a).
  { clear Hrows. induction Hcols as [|row a Hr _ IH]; [done|].
    simpl. by rewrite IH, Hrow. }
  by rewrite Hrows in Hall.
Qed.

(** X13: A similarity matrix of zeros, which is what the collator emits when
    compute_similar_matrix is off, leaves the in-batch negative term as it is
    without a similarity matrix. *)
Theorem zero_similarity_matrix_changes_nothing (y_true y_pred : list (list R))
    (tau negative_weights : R) :
  in_batch_negative_loss y_true y_pred tau
    (Some (replicate (length y_pred) (replicate (length y_pred) 0)))
    negative_weights
  = in_batch_negative_loss y_true y_pred tau None negative_weights
  ∧ ∀ pad features b,
      Collator.call pad false features = Ok b →
      length y_pred = (2 * length features)%nat →
      in_batch_negative_loss y_true y_pred tau
        (Some (fmap (M:=list) IZR <$> Collator.b_similar_matrix b))
        negative_weights
      = in_batch_negative_loss y_true y_pred tau None negative_weights.
Proof.
  assert (Hzero : in_batch_negative_loss y_true y_pred tau
                    (Some (replicate (length y_pred)
                             (replicate (length y_pred) 0)))
                    negative_weights
                  = in_batch_negative_loss y_true y_pred tau None
                      negative_weights).
  { unfold in_batch_negative_loss.
    destruct (column0 y_true) as [labels|]; [|done]. cbn [mbind result_bind].
    destruct (TargetMatrix.make_target_matrix (length y_pred)
                ((λ y, if Req_dec_T y 0 then 1%Z else 0%Z) <$> labels));
      [|done]. cbn [mbind result_bind].
    destruct (TargetMatrix.make_target_matrix (length y_pred) (trunc <$> labels))
      as [target|] eqn:Htarget; [|done]. cbn [mbind result_bind].
    destruct (TargetMatrix.make_target_matrix_shape _ _ _ Htarget) as [Hr Hc].
    rewrite decide_True.
    2:{ split; [by rewrite length_replicate|].
        apply Forall_replicate, length_replicate. }
    cbn [mbind result_bind]. rewrite plus_zero_matrix; [done | |].
    - by rewrite length_fmap.
    - apply Forall_fmap. eapply Forall_impl; [exact Hc|].
      intros row Hrow. simpl. by rewrite length_fmap. }
  split; [done|]. intros pad features b Hcall Hn.
  apply Collator.call_Ok_inv in Hcall as (_ & _ & _ & _ & _ & d & _ & Hm).
  injection Hm as <-. rewrite Collator.rows_of_length, <- Hn.
  unfold Collator.zeros. rewrite fmap_replicate, fmap_replicate. exact Hzero.
Qed.

(** *** The claims about the sign of the loss *)

Definition sample_labels : list (list R) := [[1]; [1]; [0]; [0]].

Definition sample_embeddings : list (list R) := [[1; 0]; [0; 1]; [1; 1]; [1; 0]].

Lemma sample_labels_column : label_column sample_labels.
Proof.
  repeat constructor; eexists; (split; [reflexivity|]);
    rewrite ?Rabs_R0, ?Rabs_R1; lra.
Qed.

Lemma sample_embeddings_nonzero :
  Forall (λ row : list R, ∃ x, x ∈ row ∧ x ≠ 0) sample_embeddings.
Proof.
  repeat constructor; exists 1; (split; [set_unfold; auto | lra]).
Qed.

(** X14: On a batch of 2N labelled rows, [cosine_loss] returns a value that is
    not negative, and so does [angle_loss] when the embeddings have an even,
    positive width and no embedding is the zero vector (which would divide
    by zero). *)
Theorem ranking_losses_nonnegative (y_true y_pred : list (list R)) (tau : R)
    (n d : nat) :
  length y_true = (2 * n)%nat → length y_pred = (2 * n)%nat →
  Forall (λ row, row ≠ []) y_true →
  Forall (λ row, length row = d) y_pred →
  (∃ v, cosine_loss y_true y_pred tau = Ok v ∧ 0 <= v)
  ∧ (∀ h, d = (2 * h)%nat → (0 < h)%nat →
       Forall (λ row, ∃ x, x ∈ row ∧ x ≠ 0) y_pred →
       ∃ v, angle_loss y_true y_pred tau = Ok v ∧ 0 <= v).
Proof. apply ranking_losses_bound. Qed.

Lemma ranking_losses_nonnegative_witness :
  (∃ v, cosine_loss sample_labels sample_embeddings 20 = Ok v ∧ 0 <= v)
  ∧ (∀ h, 2%nat = (2 * h)%nat → (0 < h)%nat →
       Forall (λ row : list R, ∃ x, x ∈ row ∧ x ≠ 0) sample_embeddings →
       ∃ v, angle_loss sample_labels sample_embeddings 20 = Ok v ∧ 0 <= v).
Proof.
  apply (ranking_losses_nonnegative sample_labels sample_embeddings 20 2 2).
  - reflexivity.
  - reflexivity.
  - by repeat constructor.
  - by repeat constructor.
Defined.

(** X15: On a label column as long as the batch, with no similarity matrix or one
    without negative entries, [in_batch_negative_loss] returns a value that
    is not negative. *)
Theorem in_batch_negative_loss_nonnegative (y_true y_pred : list (list R))
    (tau : R) (similar_matrix : option (list (list R))) (negative_weights : R) :
  y_pred ≠ [] → (Z.of_nat (length y_pred) < 2 ^ 31)%Z →
  label_column y_true → length y_true = length y_pred →
  (∀ m, similar_matrix = Some m → similarity_mask (length y_pred) m) →
  ∃ v, in_batch_negative_loss y_true y_pred tau similar_matrix negative_weights
       = Ok v
       ∧ 0 <= v.
Proof. intros Hne _. by apply in_batch_negative_loss_bound. Qed.

Lemma in_batch_negative_loss_nonnegative_witness :
  ∃ v, in_batch_negative_loss sample_labels sample_embeddings 20 None 0 = Ok v
       ∧ 0 <= v.
Proof.
  apply (in_batch_negative_loss_nonnegative sample_labels sample_embeddings 20
           None 0).
  - discriminate.
  - simpl. lia.
  - apply sample_labels_column.
  - reflexivity.
  - discriminate.
Defined.

Lemma in_batch_negative_loss_zero_for_fractional_scores_witness :
  in_batch_negative_loss [[1 / 2]; [1 / 4]] [[1; 0]; [0; 1]] 20 None 0 = Ok 0.
Proof.
  apply (in_batch_negative_loss_zero_for_fractional_scores
           [[1 / 2]; [1 / 4]] [[1; 0]; [0; 1]] 20 0).
  - discriminate.
  - reflexivity.
  - repeat constructor; eexists; (split; [reflexivity | lra]).
Defined.

Lemma contribution_nonneg (w t : R) : 0 <= t → 0 <= contribution w t.
Proof.
  intros Ht. unfold contribution. destruct (Rlt_dec 0 w); [|apply Rle_refl].
  apply Rmult_le_pos; lra.
Qed.

(** X16: Whatever the three weights are, a call of [AngleLoss] on a well-shaped
    batch (2N rows, a label column, embeddings of an even positive width and
    not zero, a similarity matrix without negative entries if there is one)
    returns a total that is not negative: a term enters the sum only with a
    positive weight, and no term is negative. *)
Theorem AngleLoss_call_nonnegative (self : AngleLoss)
    (y_true y_pred : list (list R)) (similar_matrix : option (list (list R)))
    (n h : nat) :
  (0 < n)%nat → (0 < h)%nat → (Z.of_nat (2 * n) < 2 ^ 31)%Z →
  length y_true = (2 * n)%nat → length y_pred = (2 * n)%nat →
  label_column y_true →
  Forall (λ row, length row = (2 * h)%nat) y_pred →
  Forall (λ row, ∃ x, x ∈ row ∧ x ≠ 0) y_pred →
  (∀ m, similar_matrix = Some m → similarity_mask (2 * n) m) →
  ∃ v, AngleLoss_call self y_true y_pred similar_matrix [] = (Ok v, computed self)
       ∧ 0 <= v.
Proof.
  intros Hn Hh _ Htrue Hpred Hcol Hwidth Hnonzero Hmask.
  assert (Hrows : Forall (λ row : list R, row ≠ []) y_true).
  { eapply Forall_impl; [exact Hcol|]. by intros row (y & -> & _). }
  destruct (ranking_losses_bound y_true y_pred (cosine_tau self) n (2 * h)
              Htrue Hpred Hrows Hwidth) as [(c & Hc & Hc0) _].
  destruct (ranking_losses_bound y_true y_pred (angle_tau self) n (2 * h)
              Htrue Hpred Hrows Hwidth) as [_ Hangle].
  destruct (Hangle h eq_refl Hh Hnonzero) as (a & Ha & Ha0).
  destruct (in_batch_negative_loss_bound y_true y_pred (ibn_tau self)
              similar_matrix 0) as (i & Hi & Hi0).
  { intros ->. simpl in Hpred. lia. }
  { done. }
  { congruence. }
  { intros m Hm. rewrite Hpred. by apply Hmask. }
  destruct (AngleLoss_call_closed_form self y_true y_pred similar_matrix c i a)
    as (v & Hcall & ->); [done | done | done |].
  eexists. split; [exact Hcall|].
  pose proof (contribution_nonneg (w1 self) c Hc0).
  pose proof (contribution_nonneg (w2 self) i Hi0).
  pose proof (contribution_nonneg (w3 self) a Ha0). lra.
Qed.

Lemma AngleLoss_call_nonnegative_witness :
  ∃ v, AngleLoss_call (AngleLoss_init 1 1 (-1)) sample_labels sample_embeddings
         None [] = (Ok v, computed (AngleLoss_init 1 1 (-1)))
       ∧ 0 <= v.
Proof.
  apply (AngleLoss_call_nonnegative (AngleLoss_init 1 1 (-1)) sample_labels
           sample_embeddings None 2 1).
  - lia.
  - lia.
  - simpl. lia.
  - reflexivity.
  - reflexivity.
  - apply sample_labels_column.
  - by repeat constructor.
  - apply sample_embeddings_nonzero.
  - discriminate.
Defined.

(** *** The ranking terms see the gold scores only through their order *)

Lemma evens_fmap {A B} (f : A → B) (l : list A) : evens (f <$> l) = f <$> evens l.
Proof.
  revert l. fix IH 1. intros [|x [|y l]]; [done | done |].
  cbn [fmap list_fmap evens]. f_equal. apply IH.
Qed.

Lemma column0_fmap (g : R → R) (t : list (list R)) :
  column0 (fmap (M:=list) g <$> t)
  = match column0 t with
    | Ok y => Ok (g <$> y)
    | Err e => Err e
    end.
Proof.
  unfold column0. induction t as [|row t IH]; [done|].
  rewrite fmap_cons, !mapM_result_cons.
  destruct row as [|y row]; [done|]. cbn [fmap list_fmap mbind result_bind].
  rewrite IH. by destruct (mapM _ t).
Qed.

Lemma order_matrix_fmap (g : R → R) (y : list R) :
  (∀ a b, a < b ↔ g a < g b) → order_matrix (g <$> y) = order_matrix y.
Proof.
  intros Hg. unfold order_matrix.
  rewrite <- list_fmap_compose. apply list_fmap_ext. intros _ yi _. simpl.
  rewrite <- list_fmap_compose. apply list_fmap_ext. intros _ yj _. simpl.
  destruct (Rlt_dec (g yi) (g yj)) as [H|H], (Rlt_dec yi yj) as [H'|H'];
    try done; exfalso.
  - by apply H', (proj2 (Hg yi yj)).
  - by apply H, (proj1 (Hg yi yj)).
Qed.

(** X17: [cosine_loss] and [angle_loss] compare the gold scores and never use
    their values: rescaling all labels by a strictly increasing function
    changes neither result, error cases included. *)
Theorem ranking_losses_depend_on_label_order (g : R → R)
    (y_true y_pred : list (list R)) (tau : R) :
  (∀ a b, a < b ↔ g a < g b) →
  cosine_loss (fmap (M:=list) g <$> y_true) y_pred tau = cosine_loss y_true y_pred tau
  ∧ angle_loss (fmap (M:=list) g <$> y_true) y_pred tau = angle_loss y_true y_pred tau.
Proof.
  intros Hg. unfold cosine_loss, angle_loss.
  rewrite (evens_fmap (fmap (M:=list) g) y_true), column0_fmap.
  destruct (column0 (evens y_true)) as [y|]; [|done].
  cbn [mbind result_bind]. by rewrite order_matrix_fmap.
Qed.

Lemma ranking_losses_depend_on_label_order_witness :
  cosine_loss (fmap (M:=list) (λ x, 5 * x) <$> sample_labels) sample_embeddings 20
  = cosine_loss sample_labels sample_embeddings 20
  ∧ angle_loss (fmap (M:=list) (λ x, 5 * x) <$> sample_labels) sample_embeddings 20
    = angle_loss sample_labels sample_embeddings 20.
Proof.
  apply (ranking_losses_depend_on_label_order (λ x, 5 * x)).
  intros a b. lra.
Defined.

End LossBounds.

(** ** The in-batch negative term on binary labels *)

Module PartnerEntropy.

Import Loss LossBounds.

Local Open Scope R_scope.

(** The logits of [in_batch_negative_loss] without negative weights: the
    scaled cosine similarities of all pairs of rows, the diagonal pushed to
    about [-1e12 * tau]. *)
Definition logits (y_pred : list (list R)) (tau : R) : list (list R) :=
  imap (λ i u, imap (λ j v,
          (dot u v - (if decide (i = j) then 1 else 0) * 1e12) * tau)
          (normalize <$> y_pred)) (normalize <$> y_pred).

#[local] Instance R_eq_dec : EqDecision R := Req_dec_T.

(** Row [i] and its partner both carry the label 1. *)
Definition positive_pair (labels : list R) (i : nat) : Prop :=
  labels !! i = Some 1 ∧ labels !! TargetMatrix.partner i = Some 1.

Lemma trunc_one : trunc 1 = 1%Z.
Proof.
  unfold trunc. destruct (Rle_dec 0 1) as [_|H]; [|exfalso; apply H; lra].
  destruct (base_Int_part 1) as [Hle Hgt].
  assert (Hdown : 0 < IZR (Int_part 1)) by lra.
  apply (le_IZR _ 1) in Hle. apply (lt_IZR 0) in Hdown. lia.
Qed.

Lemma trunc_zero : trunc 0 = 0%Z.
Proof. apply trunc_fraction. lra. Qed.

(** A matrix is determined by its shape and its entries. *)
Lemma matrix_of_entries (n : nat) (m : list (list Z)) (F : nat → nat → Z) :
  length m = n → Forall (λ row, length row = n) m →
  (∀ i j, (i < n)%nat → (j < n)%nat → entry m i j = Some (F i j)) →
  m = (λ i, F i <$> seq 0 n) <$> seq 0 n.
Proof.
  intros Hrows Hcols Hentry. apply list_eq_same_length with n;
    [by rewrite length_fmap, length_seq | done |].
  intros i row row' Hi Hrow Hrow'.
  rewrite list_lookup_fmap, lookup_seq_lt in Hrow' by done.
  injection Hrow' as <-.
  assert (Hlen : length row = n).
  { eapply (proj1 (Forall_forall _ _) Hcols), list_elem_of_lookup_2, Hrow. }
  apply list_eq_same_length with n; [by rewrite length_fmap, length_seq | done |].
  intros j v v' Hj Hv Hv'.
  rewrite list_lookup_fmap, lookup_seq_lt in Hv' by done. injection Hv' as <-.
  specialize (Hentry i j Hi Hj). unfold entry in Hentry.
  rewrite Hrow in Hentry. simpl in Hentry. congruence.
Qed.

(** The target matrix of 0/1 labels: a 1 at the partner's column in the rows
    of a positive pair, 0 elsewhere. *)
Lemma binary_target (n : nat) (ys : list Z) (m : list (list Z)) :
  length ys = n → (Z.of_nat n < 2 ^ 31)%Z →
  Forall (λ v, v = 0%Z ∨ v = 1%Z) ys →
  TargetMatrix.make_target_matrix n ys = Some m →
  m = (λ i, (λ j, if decide (j = TargetMatrix.partner i
                             ∧ ys !! i = Some 1%Z ∧ ys !! j = Some 1%Z)
                  then 1%Z else 0%Z) <$> seq 0 n) <$> seq 0 n.
Proof.
  intros Hlen Hn Hbin Hm.
  destruct (TargetMatrix.make_target_matrix_shape n ys m Hm) as [Hrows Hcols].
  apply matrix_of_entries; [done | done |]. intros i j Hi Hj.
  destruct (lookup_lt_is_Some_2 ys i) as [yi Hyi]; [lia|].
  destruct (lookup_lt_is_Some_2 ys j) as [yj Hyj]; [lia|].
  destruct (TargetMatrix.make_target_matrix_entry n ys i j yi yj Hlen Hyi Hyj)
    as (m' & Hm' & He).
  rewrite Hm in Hm'. injection Hm' as <-. rewrite He. clear He.
  assert (Hbi : yi = 0%Z ∨ yi = 1%Z).
  { eapply (proj1 (Forall_forall _ _) Hbin), list_elem_of_lookup_2, Hyi. }
  assert (Hbj : yj = 0%Z ∨ yj = 1%Z).
  { eapply (proj1 (Forall_forall _ _) Hbin), list_elem_of_lookup_2, Hyj. }
  rewrite TargetMatrix.column_code, TargetMatrix.row_code by lia.
  rewrite Hyi, Hyj. f_equal.
  assert (0 ≤ Z.of_nat (TargetMatrix.partner i))%Z by lia.
  destruct Hbi as [-> | ->], Hbj as [-> | ->];
    repeat case_decide; try done; try lia; exfalso;
    repeat match goal with
           | H : _ ∧ _ |- _ => destruct H
           | H : ¬ (_ ∧ _) |- _ => apply H; repeat split; try done; try lia
           | H : Some _ = Some _ |- _ => injection H as H
           end; try lia.
Qed.

(** A weighted sum against a row that holds one 1, or none. *)
Lemma rsum_indicator (C : Prop) `{Decision C} (k : nat) (ls : list R) :
  ∀ s, rsum (zip_with Rmult ls
               (IZR <$> ((λ j, if decide (j = k ∧ C) then 1%Z else 0%Z)
                           <$> seq s (length ls))))
       = if decide (C ∧ (s ≤ k < s + length ls)%nat)
         then default 0 (ls !! (k - s)%nat) else 0.
Proof.
  induction ls as [|x ls IH]; intros s.
  - simpl. case_decide as Hc; [|done]. destruct Hc as [_ ?]. lia.
  - cbn [length seq fmap list_fmap zip_with]. rewrite rsum_cons, IH.
    destruct (decide (s = k)) as [->|Hne].
    + rewrite Nat.sub_diag. cbn [lookup list_lookup default].
      destruct (decide C) as [Hc|Hc].
      * rewrite (decide_True (P := k = k ∧ C)) by done.
        rewrite (decide_False (P := C ∧ (S k ≤ k < S k + length ls)%nat))
          by (intros [_ ?]; lia).
        rewrite (decide_True (P := C ∧ (k ≤ k < k + S (length ls))%nat))
          by (split; [done | lia]).
        simpl. lra.
      * rewrite (decide_False (P := k = k ∧ C)) by (by intros [_ ?]).
        rewrite (decide_False (P := C ∧ (S k ≤ k < S k + length ls)%nat))
          by (by intros [? _]).
        rewrite (decide_False (P := C ∧ (k ≤ k < k + S (length ls))%nat))
          by (by intros [? _]).
        simpl. lra.
    + rewrite (decide_False (P := s = k ∧ C)) by (by intros [? _]).
      replace (x * IZR 0) with 0 by (simpl; lra). rewrite Rplus_0_l.
      destruct (decide (C ∧ (S s ≤ k < S s + length ls)%nat)) as [[Hc Hr]|Hn].
      * rewrite decide_True by (split; [done | lia]).
        replace (k - s)%nat with (S (k - S s)) by lia. done.
      * rewrite decide_False; [done|]. intros [Hc Hr]. apply Hn.
        split; [done | lia].
Qed.

Lemma log_softmax_length (row : list R) : length (log_softmax row) = length row.
Proof. unfold log_softmax. by rewrite length_fmap. Qed.

Lemma logits_shape (y_pred : list (list R)) (tau : R) :
  length (logits y_pred tau) = length y_pred
  ∧ Forall (λ row, length row = length y_pred) (logits y_pred tau).
Proof.
  unfold logits. split; [by rewrite length_imap, length_fmap|].
  apply Forall_forall. intros row Hrow.
  apply list_elem_of_lookup in Hrow as [i Hi].
  rewrite list_lookup_imap in Hi.
  destruct ((normalize <$> y_pred) !! i); [|done]. injection Hi as <-.
  by rewrite length_imap, length_fmap.
Qed.

Lemma zip_with_seq_imap {A B} (g : nat → A → B) (l : list A) :
  ∀ s, zip_with g (seq s (length l)) l = imap (λ i, g (s + i)%nat) l.
Proof.
  induction l as [|x l IH]; intros s; [done|].
  cbn [length seq zip_with imap]. rewrite Nat.add_0_r, IH. f_equal.
  apply imap_ext. intros i y _. simpl. f_equal. lia.
Qed.

(** X18: The in-batch negative term on a label column of zeros and ones (the
    call [AngleLoss] makes: no negative weights), without a similarity
    matrix: the mean over the rows of the negative log-softmax of the row's
    logits at its partner, counted for the rows of positive pairs only. *)
Theorem in_batch_negative_loss_is_partner_crossentropy
    (labels : list R) (y_pred : list (list R)) (tau : R) :
  y_pred ≠ [] →
  length labels = length y_pred → (Z.of_nat (length y_pred) < 2 ^ 31)%Z →
  Forall (λ y, y = 0 ∨ y = 1) labels →
  in_batch_negative_loss ((λ y, [y]) <$> labels) y_pred tau None 0
  = Ok (mean (imap (λ i row,
                if decide (positive_pair labels i)
                then - default 0 (log_softmax row !! TargetMatrix.partner i)
                else 0) (logits y_pred tau))).
Proof.
  intros _ Hlen Hn Hbin. unfold in_batch_negative_loss.
  assert (Hcol : column0 ((λ y, [y]) <$> labels) = Ok labels).
  { unfold column0. apply mapM_result_Ok. clear.
    induction labels as [|y labels IH]; [constructor|].
    rewrite fmap_cons. by constructor. }
  rewrite Hcol. cbn [mbind result_bind].
  destruct (target_matrix_total (length y_pred)
              ((λ y, if Req_dec_T y 0 then 1%Z else 0%Z) <$> labels))
    as (neg & -> & _); [by rewrite length_fmap|].
  cbn [mbind result_bind].
  destruct (target_matrix_total (length y_pred) (trunc <$> labels))
    as (target & Htarget & _); [by rewrite length_fmap|].
  rewrite Htarget. cbn [mbind result_bind].
  destruct (Rlt_dec 0 0) as [?|_]; [lra|].
  f_equal. f_equal. fold (logits y_pred tau).
  assert (Hys : Forall (λ v, v = 0%Z ∨ v = 1%Z) (trunc <$> labels)).
  { apply Forall_fmap. eapply Forall_impl; [exact Hbin|].
    intros y [-> | ->]; simpl; [left; apply trunc_zero | right; apply trunc_one]. }
  rewrite (binary_target (length y_pred) (trunc <$> labels) target)
    by (done || by rewrite length_fmap).
  destruct (logits_shape y_pred tau) as [Hrows Hcols].
  unfold categorical_crossentropy.
  rewrite <- !list_fmap_compose, zip_with_fmap_l.
  rewrite <- Hrows, zip_with_seq_imap.
  apply imap_ext. intros i row Hrow. simpl.
  assert (Hrow_len : length row = length y_pred).
  { eapply (proj1 (Forall_forall _ _) Hcols), list_elem_of_lookup_2, Hrow. }
  assert (Hone : ∀ j, (trunc <$> labels) !! j = Some 1%Z ↔ labels !! j = Some 1).
  { intros j. rewrite list_lookup_fmap.
    destruct (labels !! j) as [y|] eqn:Hy; [|done]. simpl.
    assert (Hy01 : y = 0 ∨ y = 1).
    { eapply (proj1 (Forall_forall _ _) Hbin), list_elem_of_lookup_2, Hy. }
    destruct Hy01 as [-> | ->].
    - rewrite trunc_zero. split; [done|]. intros [= H01]. lra.
    - by rewrite trunc_one. }
  set (C := positive_pair labels i).
  assert (Hrowfun :
    (λ j, if decide (j = TargetMatrix.partner i
                     ∧ (trunc <$> labels) !! i = Some 1%Z
                     ∧ (trunc <$> labels) !! j = Some 1%Z)
          then 1%Z else 0%Z) <$> seq 0 (length (logits y_pred tau))
    = (λ j, if decide (j = TargetMatrix.partner i ∧ C) then 1%Z else 0%Z)
        <$> seq 0 (length (log_softmax row))).
  { rewrite log_softmax_length, Hrow_len, Hrows.
    apply list_fmap_ext. intros _ j _. unfold C, positive_pair.
    destruct (decide (j = TargetMatrix.partner i)) as [->|Hne].
    - repeat case_decide; try done; exfalso;
        match goal with H : ¬ _ |- _ => apply H end; destruct_and?;
        repeat split; try done; by apply Hone.
    - rewrite !decide_False; [done | by intros [? _] | by intros [? _]]. }
  rewrite Hrowfun, (rsum_indicator C).
  destruct (decide C) as [Hc|Hc].
  - rewrite decide_True.
    + by rewrite Nat.sub_0_r.
    + split; [done|]. destruct Hc as [_ Hp]. apply lookup_lt_Some in Hp.
      rewrite log_softmax_length, Hrow_len. lia.
  - rewrite decide_False by (by intros [? _]). lra.
Qed.

Lemma in_batch_negative_loss_is_partner_crossentropy_witness :
  in_batch_negative_loss ((λ y, [y]) <$> [1; 1; 0; 0])
    [[1; 0]; [0; 1]; [1; 1]; [1; 0]] 20 None 0
  = Ok (mean (imap (λ i row,
                if decide (positive_pair [1; 1; 0; 0] i)
                then - default 0 (log_softmax row !! TargetMatrix.partner i)
                else 0) (logits [[1; 0]; [0; 1]; [1; 1]; [1; 0]] 20))).
Proof.
  apply (in_batch_negative_loss_is_partner_crossentropy [1; 1; 0; 0]
           [[1; 0]; [0; 1]; [1; 1]; [1; 0]] 20).
  - discriminate.
  - reflexivity.
  - simpl. lia.
  - repeat first [apply Forall_nil_2
                 | apply Forall_cons_2; [(by left) || (by right)|]].
Defined.

End PartnerEntropy.

(** ** Finding the checkpoint file

    [AnglE.find_pth_path].  File names are strings of characters below 256,
    among which the decimal digits [\d] matches are the ASCII digits; the
    directory listing is the list [os.listdir] returned; paths are joined as
    on POSIX. *)

Module Checkpoint.

Import AnglE.

(** What the function raises: an exception of [exn], or the
    [AttributeError] of [.group()] on a failed match. *)
Inductive failure : Type :=
| Raised (e : exn)
| AttributeError.

Inductive found : Type :=
| Path (path : string)
| Fails (f : failure).

Definition is_digit (c : Ascii.ascii) : bool :=
  (48 <=? Ascii.nat_of_ascii c)%nat && (Ascii.nat_of_ascii c <=? 57)%nat.

(** The digits a string starts with. *)
Fixpoint leading_digits (s : string) : string :=
  match s with
  | String c s' => if is_digit c then String c (leading_digits s') else EmptyString
  | EmptyString => EmptyString
  end.

(** [re.search(r'\d+', s)]: the first run of digits, as long as it goes. *)
Fixpoint search_digits (s : string) : option string :=
  match s with
  | String c s' =>
      if is_digit c then Some (String c (leading_digits s')) else search_digits s'
  | EmptyString => None
  end.

(** [int(digits)] *)
Fixpoint int_of_digits (acc : Z) (digits : string) : Z :=
  match digits with
  | String c s' => int_of_digits (10 * acc + (Z.of_nat (Ascii.nat_of_ascii c) - 48)) s'
  | EmptyString => acc
  end.

(** [int(re.search(r'\d+', fname).group())]; [None] when nothing matches. *)
Definition epoch_of (fname : string) : option Z :=
  int_of_digits 0 <$> search_digits fname.

(** [s.endswith(suffix)] *)
Definition endswith (s suffix : string) : bool :=
  bool_decide (String.list_ascii_of_string suffix `suffix_of` String.list_ascii_of_string s).

(** [os.path.join(a, b)] *)
Definition join (a b : string) : string :=
  if String.prefix "/" b then b
  else if decide (a = EmptyString) then b
  else if endswith a "/" then a +:+ b
  else a +:+ "/" +:+ b.

(** The loop over the directory listing: it raises on the first [.pth] file
    whose name has no digit. *)
Fixpoint collect (listing : list string) (pth_list : list (Z * string))
    : option (list (Z * string)) :=
  match listing with
  | [] => Some pth_list
  | fname :: rest =>
      if endswith fname ".pth" then
        match epoch_of fname with
        | Some epoch => collect rest (pth_list ++ [(epoch, fname)])
        | None => None
        end
      else collect rest pth_list
  end.

(** [sorted(l, key=lambda x: x[0], reverse=True)]: a stable sort, so entries
    of one epoch keep the order they were listed in. *)
Fixpoint insert_desc (x : Z * string) (l : list (Z * string)) : list (Z * string) :=
  match l with
  | [] => [x]
  | y :: l' => if decide (y.1 ≤ x.1) then x :: y :: l' else y :: insert_desc x l'
  end.

Definition sorted_desc (l : list (Z * string)) : list (Z * string) :=
  foldr insert_desc [] l.

(** [v == 'best'] *)
Definition is_best (v : value) : bool :=
  match v with
  | VStr s => bool_decide (s = "best")
  | _ => false
  end.

Definition find_pth_path (dirpath : string) (config : gmap string value)
    (listing : list string) : found :=
  match config !! "save_mode" with
  | None => Fails (Raised KeyError)
  | Some save_mode =>
      if is_best save_mode then
        match config !! "best_file_name" with
        | None => Fails (Raised KeyError)
        | Some (VStr name) => Path (join dirpath name)
        | Some _ => Fails (Raised TypeError)
        end
      else
        match collect listing [] with
        | None => Fails AttributeError
        | Some pth_list =>
            match sorted_desc pth_list with
            | [] => Fails (Raised IndexError)
            | (_, fname) :: _ => Path (join dirpath fname)
            end
        end
  end.

(** *** The epoch read from a file name *)

(** Every character of a string passes a test. *)
Fixpoint every (test : Ascii.ascii → bool) (s : string) : bool :=
  match s with
  | String c s' => test c && every test s'
  | EmptyString => true
  end.

(** The string does not start with a digit. *)
Definition starts_without_digit (s : string) : bool :=
  match s with
  | String c _ => negb (is_digit c)
  | EmptyString => true
  end.

Lemma search_digits_skip (pre s : string) :
  every (λ c, negb (is_digit c)) pre = true →
  search_digits (pre +:+ s) = search_digits s.
Proof.
  induction pre as [|c pre IH]; [done|]. simpl.
  intros [Hc Hpre]%andb_true_iff. apply negb_true_iff in Hc. rewrite Hc.
  by apply IH.
Qed.

Lemma leading_digits_run (digits rest : string) :
  every is_digit digits = true → starts_without_digit rest = true →
  leading_digits (digits +:+ rest) = digits.
Proof.
  intros Hd Hrest. induction digits as [|c digits IH]; simpl.
  - destruct rest as [|c rest]; [done|]. simpl in *.
    apply negb_true_iff in Hrest. by rewrite Hrest.
  - simpl in Hd. apply andb_true_iff in Hd as [Hc Hd]. rewrite Hc.
    by rewrite IH.
Qed.

(** X19: The epoch of a file name is the number written by its first run of
    digits, whatever digits follow later in the name; a name without a digit
    has none. *)
Theorem epoch_is_first_digit_run (pre digits rest : string) :
  every (λ c, negb (is_digit c)) pre = true →
  every is_digit digits = true → digits ≠ EmptyString →
  starts_without_digit rest = true →
  epoch_of (pre +:+ digits +:+ rest) = Some (int_of_digits 0 digits)
  ∧ epoch_of pre = None.
Proof.
  intros Hpre Hdigits Hne Hrest. unfold epoch_of. split.
  - rewrite search_digits_skip by done.
    destruct digits as [|c digits]; [done|]. simpl in *.
    apply andb_true_iff in Hdigits as [Hc Hd]. rewrite Hc. simpl.
    by rewrite leading_digits_run.
  - pose proof (search_digits_skip pre EmptyString Hpre) as H.
    assert (pre +:+ EmptyString = pre) as Hnil.
    { clear. induction pre as [|c pre IH]; [done|].
      change (String c pre +:+ EmptyString) with (String c (pre +:+ EmptyString)).
      by rewrite IH. }
    rewrite Hnil in H. by rewrite H.
Qed.

Lemma epoch_is_first_digit_run_witness :
  epoch_of ("run" +:+ "2" +:+ "_epoch10.pth") = Some (int_of_digits 0 "2")
  ∧ epoch_of "run" = None.
Proof.
  apply (epoch_is_first_digit_run "run" "2" "_epoch10.pth"); try reflexivity.
  discriminate.
Defined.

(** *** The file chosen *)

(** The [.pth] entries of a listing with their epochs, in listing order. *)
Definition pth_entries (listing : list string) : list (option Z * string) :=
  (λ fname, (epoch_of fname, fname))
    <$> filter (λ fname, endswith fname ".pth" = true) listing.

Lemma collect_spec (listing : list string) (acc : list (Z * string)) :
  match collect listing acc with
  | Some pth_list =>
      (λ x : Z * string, (Some x.1, x.2)) <$> pth_list
      = ((λ x : Z * string, (Some x.1, x.2)) <$> acc) ++ pth_entries listing
  | None => ∃ fname, fname ∈ listing ∧ endswith fname ".pth" = true
                     ∧ epoch_of fname = None
  end.
Proof.
  revert acc. induction listing as [|fname listing IH]; intros acc.
  - simpl. unfold pth_entries. simpl. by rewrite app_nil_r.
  - simpl. unfold pth_entries. rewrite filter_cons.
    destruct (endswith fname ".pth") eqn:Hend.
    + rewrite decide_True by done. rewrite fmap_cons.
      destruct (epoch_of fname) as [epoch|] eqn:He.
      * specialize (IH (acc ++ [(epoch, fname)])).
        destruct (collect listing _) as [pth_list|].
        -- rewrite IH, fmap_app, <- app_assoc. done.
        -- destruct IH as (g & Hg & ?). exists g. split; [by right | done].
      * exists fname. split; [by left | done].
    + rewrite decide_False by done. specialize (IH acc).
      destruct (collect listing acc) as [pth_list|]; [done|].
      destruct IH as (g & Hg & ?). exists g. split; [by right | done].
Qed.

(** The head of the sorted list: the first entry of the largest epoch. *)
Lemma sorted_desc_head (l : list (Z * string)) :
  match sorted_desc l with
  | [] => l = []
  | x :: _ =>
      ∃ before after, l = before ++ x :: after
                      ∧ Forall (λ y, y.1 < x.1) before
                      ∧ Forall (λ y, y.1 ≤ x.1) after
  end.
Proof.
  induction l as [|a l IH]; [done|]. simpl.
  destruct (sorted_desc l) as [|x s] eqn:Hs.
  - subst l. simpl. exists [], []. by repeat split.
  - destruct IH as (before & after & -> & Hb & Ha). simpl.
    case_decide as Hle.
    + exists [], (before ++ x :: after). split; [done|]. split; [constructor|].
      apply Forall_app. split.
      * eapply Forall_impl; [exact Hb|]. simpl. lia.
      * constructor; [done|]. eapply Forall_impl; [exact Ha|]. simpl. lia.
    + exists (a :: before), after. split; [done|]. split; [|done].
      constructor; [lia | done].
Qed.

Lemma filter_middle_inv {A} (P : A → Prop) `{∀ x, Decision (P x)}
    (l l1 l2 : list A) (x : A) :
  filter P l = l1 ++ x :: l2 →
  ∃ before after, l = before ++ x :: after ∧ P x
                  ∧ filter P before = l1 ∧ filter P after = l2.
Proof.
  revert l1. induction l as [|a l IH]; intros l1 Hf.
  - by destruct l1.
  - rewrite filter_cons in Hf. destruct (decide (P a)) as [Ha|Ha].
    + destruct l1 as [|b l1]; simplify_eq/=.
      * exists [], l. by rewrite filter_nil.
      * destruct (IH l1 H1) as (before & after & -> & Hx & Hb & Ha').
        exists (b :: before), after. rewrite filter_cons, decide_True by done.
        by rewrite Hb.
    + destruct (IH l1 Hf) as (before & after & -> & Hx & Hb & Ha').
      exists (a :: before), after. rewrite filter_cons, decide_False by done.
      done.
Qed.

(** The [.pth] files of a listing, paired with the collected entries. *)
Lemma collect_entries (listing : list string) (pth_list : list (Z * string)) :
  collect listing [] = Some pth_list →
  Forall2 (λ fname x, epoch_of fname = Some x.1 ∧ fname = x.2)
    (filter (λ fname, endswith fname ".pth" = true) listing) pth_list.
Proof.
  intros Hc. pose proof (collect_spec listing []) as Hs. rewrite Hc in Hs.
  simpl in Hs. unfold pth_entries in Hs.
  revert Hs. generalize (filter (λ fname, endswith fname ".pth" = true) listing).
  clear. intros entries. revert entries.
  induction pth_list as [|x l IH]; intros [|f entries] Hs; simplify_eq/=.
  - constructor.
  - constructor; [done | by apply IH].
Qed.

(** X20: In the mode ['best'] the directory is not looked at.  In every other
    mode the function returns the path of the [.pth] file with the largest
    epoch, the first listed among several of that epoch; it raises
    [AttributeError] when the name of some [.pth] file has no digit, and
    [IndexError] when the directory has no [.pth] file. *)
Theorem find_pth_path_picks_latest_epoch (dirpath : string)
    (config : gmap string value) (listing : list string) (save_mode : value) :
  config !! "save_mode" = Some save_mode →
  (is_best save_mode = true →
   ∀ listing', find_pth_path dirpath config listing'
               = find_pth_path dirpath config listing)
  ∧ (is_best save_mode = false →
     match find_pth_path dirpath config listing with
     | Path path =>
         ∃ before fname after epoch,
           listing = before ++ fname :: after
           ∧ endswith fname ".pth" = true
           ∧ epoch_of fname = Some epoch
           ∧ path = join dirpath fname
           ∧ (∀ g, g ∈ before → endswith g ".pth" = true →
                ∃ e, epoch_of g = Some e ∧ e < epoch)
           ∧ (∀ g, g ∈ after → endswith g ".pth" = true →
                ∃ e, epoch_of g = Some e ∧ e ≤ epoch)
     | Fails AttributeError =>
         ∃ g, g ∈ listing ∧ endswith g ".pth" = true ∧ epoch_of g = None
     | Fails (Raised e) =>
         e = IndexError ∧ ∀ g, g ∈ listing → endswith g ".pth" = false
     end).
Proof.
  intros Hmode. unfold find_pth_path. rewrite Hmode. split.
  - by intros ->.
  - intros ->.
    pose proof (collect_spec listing []) as Hspec.
    destruct (collect listing []) as [pth_list|] eqn:Hc; [|done].
    pose proof (collect_entries listing pth_list Hc) as Hentries.
    pose proof (sorted_desc_head pth_list) as Hhead.
    destruct (sorted_desc pth_list) as [|[epoch fname] s].
    + subst pth_list. apply Forall2_nil_inv_r in Hentries.
      split; [done|]. intros g Hg.
      destruct (endswith g ".pth") eqn:Hend; [|done].
      assert (Hin : g ∈ filter (λ fname, endswith fname ".pth" = true) listing).
      { by apply list_elem_of_filter. }
      rewrite Hentries in Hin. by apply elem_of_nil in Hin.
    + destruct Hhead as (b & a & -> & Hb & Ha).
      apply Forall2_app_inv_r in Hentries as (eb & rest & Heb & Hrest & Hfilter).
      apply Forall2_cons_inv_r in Hrest as (fx & ea & [Hepoch Hname] & Hea & ->).
      simpl in Hepoch, Hname. subst fx.
      apply filter_middle_inv in Hfilter
        as (before & after & -> & Hend & Hfb & Hfa).
      exists before, fname, after, epoch.
      split; [done|]. split; [done|]. split; [done|]. split; [done|].
      split.
      * intros g Hg Hgend.
        assert (Hin : g ∈ eb).
        { rewrite <- Hfb. by apply list_elem_of_filter. }
        apply list_elem_of_lookup in Hin as [i Hi].
        destruct (Forall2_lookup_l _ _ _ _ _ Heb Hi) as (y & Hy & Hge & _).
        exists y.1. split; [done|].
        rewrite Forall_forall in Hb. apply Hb.
        by eapply list_elem_of_lookup_2.
      * intros g Hg Hgend.
        assert (Hin : g ∈ ea).
        { rewrite <- Hfa. by apply list_elem_of_filter. }
        apply list_elem_of_lookup in Hin as [i Hi].
        destruct (Forall2_lookup_l _ _ _ _ _ Hea Hi) as (y & Hy & Hge & _).
        exists y.1. split; [done|].
        rewrite Forall_forall in Ha. apply Ha.
        by eapply list_elem_of_lookup_2.
Qed.

Lemma find_pth_path_picks_latest_epoch_witness :
  (is_best (VStr "last") = true →
   ∀ listing',
     find_pth_path "out" {["save_mode" := VStr "last"]} listing'
     = find_pth_path "out" {["save_mode" := VStr "last"]}
         ["epoch2.pth"; "log.txt"; "epoch10.pth"; "v10.pth"])
  ∧ (is_best (VStr "last") = false →
     match find_pth_path "out" {["save_mode" := VStr "last"]}
             ["epoch2.pth"; "log.txt"; "epoch10.pth"; "v10.pth"] with
     | Path path =>
         ∃ before fname after epoch,
           ["epoch2.pth"; "log.txt"; "epoch10.pth"; "v10.pth"]
           = before ++ fname :: after
           ∧ endswith fname ".pth" = true
           ∧ epoch_of fname = Some epoch
           ∧ path = join "out" fname
           ∧ (∀ g, g ∈ before → endswith g ".pth" = true →
                ∃ e, epoch_of g = Some e ∧ e < epoch)
           ∧ (∀ g, g ∈ after → endswith g ".pth" = true →
                ∃ e, epoch_of g = Some e ∧ e ≤ epoch)
     | Fails AttributeError =>
         ∃ g, g ∈ ["epoch2.pth"; "log.txt"; "epoch10.pth"; "v10.pth"]
              ∧ endswith g ".pth" = true ∧ epoch_of g = None
     | Fails (Raised e) =>
         e = IndexError
         ∧ ∀ g, g ∈ ["epoch2.pth"; "log.txt"; "epoch10.pth"; "v10.pth"] →
                endswith g ".pth" = false
     end).
Proof.
  apply (find_pth_path_picks_latest_epoch "out" {["save_mode" := VStr "last"]}
           ["epoch2.pth"; "log.txt"; "epoch10.pth"; "v10.pth"] (VStr "last")).
  reflexivity.
Defined.

(** The sample directory: the newest checkpoint is the first of the two
    files of epoch 10. *)
Example find_pth_path_sample :
  find_pth_path "out" {["save_mode" := VStr "last"]}
    ["epoch2.pth"; "log.txt"; "epoch10.pth"; "v10.pth"]
  = Path "out/epoch10.pth".
Proof. vm_compute. reflexivity. Qed.

End Checkpoint.

(** ** What [fit] saves and what it hands to the trainer *)

Module Training.

Import AnglE.



(** [ddp_find_unused_parameters] *)
Definition fit_ddp_find_unused_parameters (gpu_count : Z) : option bool :=
  if decide (1 < gpu_count) then Some false else None.




End Training.

(** ** The LoRA target modules of a 4-bit model

    [find_all_linear_names], the helper of [AnglE.__init__]: [modules] is
    what [model.named_modules()] yields, each name with whether the module is
    a [Linear4bit]. *)

Module LoraTargets.

(** [name.split('.')[-1]], scanning the name with the component read so far. *)
Fixpoint last_component_from (current name : string) : string :=
  match name with
  | EmptyString => current
  | String c name' =>
      if decide (String c EmptyString = ".")
      then last_component_from EmptyString name'
      else last_component_from (current +:+ String c EmptyString) name'
  end.

(** [names[0] if len(names) == 1 else names[-1]]: the last component either
    way. *)
Definition last_component (name : string) : string :=
  last_component_from EmptyString name.

Definition find_all_linear_names (modules : list (string * bool)) : gset string :=
  let lora_module_names :=
    foldl (λ (names : gset string) '(name, is_linear4bit),
             if is_linear4bit : bool then names ∪ {[last_component name]}
             else names) ∅ modules in
  if decide ("lm_head" ∈ lora_module_names)
  then lora_module_names ∖ {["lm_head"]}
  else lora_module_names.

(** No character of the string is a dot. *)
Fixpoint dotless (s : string) : bool :=
  match s with
  | EmptyString => true
  | String c s' => negb (bool_decide (String c EmptyString = ".")) && dotless s'
  end.

Lemma dotless_app (s t : string) :
  dotless (s +:+ t) = dotless s && dotless t.
Proof.
  induction s as [|c s IH]; [done|].
  change (String c s +:+ t) with (String c (s +:+ t)). simpl.
  by rewrite IH, andb_assoc.
Qed.

Lemma append_assoc (a b c : string) : (a +:+ b) +:+ c = a +:+ (b +:+ c).
Proof.
  induction a as [|x a IH]; [done|].
  change (String x a +:+ b) with (String x (a +:+ b)).
  change (String x (a +:+ b) +:+ c) with (String x ((a +:+ b) +:+ c)).
  change (String x a +:+ (b +:+ c)) with (String x (a +:+ (b +:+ c))).
  by rewrite IH.
Qed.

Lemma append_nil_r (a : string) : a +:+ EmptyString = a.
Proof.
  induction a as [|x a IH]; [done|].
  change (String x a +:+ EmptyString) with (String x (a +:+ EmptyString)).
  by rewrite IH.
Qed.

Lemma last_component_from_spec (name current : string) :
  dotless current = true →
  dotless (last_component_from current name) = true
  ∧ (current +:+ name = last_component_from current name
     ∨ ∃ before, current +:+ name
                 = before +:+ "." +:+ last_component_from current name).
Proof.
  revert current. induction name as [|c name IH]; intros current Hcur.
  - simpl. split; [done|]. left. apply append_nil_r.
  - simpl. case_decide as Hc.
    + destruct (IH EmptyString eq_refl) as [Hd Hsplit]. split; [done|].
      right. injection Hc as ->.
      destruct Hsplit as [Heq | [before Heq]];
        change (EmptyString +:+ name) with name in Heq.
      * exists current. by rewrite <- Heq.
      * exists (current +:+ "." +:+ before).
        rewrite !append_assoc. by rewrite Heq at 1.
    + destruct (IH (current +:+ String c EmptyString)) as [Hd Hsplit].
      { rewrite dotless_app, Hcur. simpl.
        by rewrite bool_decide_eq_false_2. }
      split; [done|].
      by rewrite append_assoc in Hsplit.
Qed.

Lemma collected_names (modules : list (string * bool)) (names : gset string)
    (x : string) :
  x ∈ foldl (λ (names : gset string) '(name, is_linear4bit),
               if is_linear4bit : bool then names ∪ {[last_component name]}
               else names) names modules
  ↔ x ∈ names ∨ ∃ name, (name, true) ∈ modules ∧ x = last_component name.
Proof.
  revert names. induction modules as [|[name b] modules IH]; intros names.
  - simpl. split; [by left|]. intros [? | (? & ?%elem_of_nil & _)]; done.
  - simpl. rewrite IH. destruct b.
    + rewrite elem_of_union, elem_of_singleton. split.
      * intros [[? | ->] | (n & Hn & ->)].
        -- by left.
        -- right. exists name. split; [by left | done].
        -- right. exists n. split; [by right | done].
      * intros [? | (n & [[= -> ] | Hn]%elem_of_cons & ->)].
        -- by left; left.
        -- by left; right.
        -- right. by exists n.
    + split.
      * intros [? | (n & Hn & ->)]; [by left|].
        right. exists n. split; [by right | done].
      * intros [? | (n & [[= ] | Hn]%elem_of_cons & ->)]; [by left|].
        right. by exists n.
Qed.

(** X23: The LoRA targets are exactly the last dot-separated components of the
    names of the [Linear4bit] modules, [lm_head] left out; a component holds
    no dot and ends the name it was taken from. *)
Theorem find_all_linear_names_are_last_components
    (modules : list (string * bool)) :
  (∀ x, x ∈ find_all_linear_names modules
        ↔ x ≠ "lm_head"
          ∧ ∃ name, (name, true) ∈ modules ∧ x = last_component name)
  ∧ ∀ name, dotless (last_component name) = true
            ∧ (name = last_component name
               ∨ ∃ before, name = before +:+ "." +:+ last_component name).
Proof.
  split.
  - intros x. unfold find_all_linear_names. cbv zeta.
    pose proof (collected_names modules ∅ x) as Hc.
    case_decide as Hhead.
    + rewrite elem_of_difference, elem_of_singleton, Hc.
      split.
      * intros [[?%elem_of_empty | ?] ?]; done.
      * intros [? ?]. split; [by right | done].
    + rewrite Hc. split.
      * intros [?%elem_of_empty | Hx]; [done|]. split; [|done].
        intros ->. apply Hhead. apply collected_names. by right.
      * intros [_ ?]. by right.
  - intros name.
    by destruct (last_component_from_spec name EmptyString eq_refl).
Qed.

Example find_all_linear_names_sample :
  find_all_linear_names
    [("model.layers.0.self_attn.q_proj", true);
     ("model.layers.0.input_layernorm", false);
     ("model.layers.0.mlp.up_proj", true);
     ("lm_head", true)]
  = {["q_proj"; "up_proj"]}.
Proof. vm_compute. reflexivity. Qed.

End LoraTargets.

(** ** Evaluation: gold scores and predicted scores *)

Module Evaluation.

Import Loss Collator.

(** The label tensor of a batch: [torch.Tensor] turns the integers into
    floats. *)
Definition label_tensor (b : batch) : list (list R) :=
  fmap (M:=list) IZR <$> b_labels b.

(** The first label of a record, as a float. *)
Definition gold_score (f : feature) : R :=
  IZR (default 0 (head (labels f))).

Lemma evens_rows_of {A} (g : new_feature → A) (features : list feature) :
  evens (g <$> rows_of features)
  = (λ f, g (first_row (split_index f) f)) <$> features.
Proof.
  induction features as [|f features IH]; [done|].
  rewrite rows_of_cons, !fmap_cons. cbn [evens]. by rewrite IH.
Qed.

Lemma column0_Ok_head (t : list (list R)) (y : list R) :
  column0 t = Ok y → Forall2 (λ row v, head row = Some v) t y.
Proof.
  unfold column0. intros Hm%mapM_result_Ok.
  eapply Forall2_impl; [exact Hm|]. intros [|x row] v; [done|]. by intros [= ->].
Qed.

(** The gold scores read from a collated batch. *)
Lemma gold_column (pad : list (list Z) → list (list Z)) (c : bool)
    (features : list feature) (b : batch) :
  call pad c features = Ok b →
  (∀ y, column0 (evens (label_tensor b)) = Ok y → y = gold_score <$> features)
  ∧ (Forall (λ f, labels f ≠ []) features →
     column0 (evens (label_tensor b)) = Ok (gold_score <$> features)).
Proof.
  intros Hcall.
  apply call_Ok_inv in Hcall as (_ & _ & _ & _ & Hlabels & _).
  unfold label_tensor. rewrite Hlabels, <- list_fmap_compose, evens_rows_of.
  cbn [first_row nf_labels compose]. clear Hlabels. split.
  - intros y Hy%column0_Ok_head. revert y Hy.
    induction features as [|f features IH]; intros y Hy.
    + by apply Forall2_nil_inv_l in Hy as ->.
    + rewrite fmap_cons in Hy.
      apply Forall2_cons_inv_l in Hy as (v & y' & Hv & Hy' & ->).
      rewrite fmap_cons, <- (IH y' Hy'). f_equal. unfold gold_score.
      destruct (labels f) as [|l ls]; [done|]. simpl in Hv. by injection Hv as <-.
  - intros Hne. unfold column0. apply mapM_result_Ok.
    induction Hne as [|f features Hf _ IH]; [constructor|].
    rewrite !fmap_cons. constructor; [|done]. unfold gold_score.
    by destruct (labels f).
Qed.

(** X24: The gold score of pair i that [cosine_loss], [angle_loss] and
    [evaluate] read from a collated batch ([labels[::2, 0]]) is the first
    label of record i; a record without a label makes the read raise
    [IndexError]. *)
Theorem gold_scores_are_first_labels (pad : list (list Z) → list (list Z))
    (c : bool) (features : list feature) (b : batch) :
  call pad c features = Ok b →
  (∀ y, column0 (evens (label_tensor b)) = Ok y → y = gold_score <$> features)
  ∧ (Forall (λ f, labels f ≠ []) features →
     column0 (evens (label_tensor b)) = Ok (gold_score <$> features))
  ∧ (Exists (λ f, labels f = []) features →
     column0 (evens (label_tensor b)) = Err IndexError).
Proof.
  intros Hcall. destruct (gold_column pad c features b Hcall) as [H1 H2].
  split; [done|]. split; [done|]. intros Hempty.
  destruct (column0 (evens (label_tensor b))) as [y|e] eqn:Hy.
  - exfalso. pose proof (H1 y eq_refl) as ->.
    apply column0_Ok_head in Hy.
    apply call_Ok_inv in Hcall as (Hne & _ & _ & _ & Hlabels & _).
    assert (Hall : Forall (λ f, labels f ≠ []) features).
    { unfold label_tensor in Hy.
      rewrite Hlabels, <- list_fmap_compose, evens_rows_of in Hy.
      cbn [first_row nf_labels compose] in Hy.
      apply Forall_forall. intros f Hf Hnil.
      apply list_elem_of_lookup in Hf as [i Hi].
      assert (Hrow : ((λ f, IZR <$> labels f) <$> features) !! i = Some []).
      { rewrite list_lookup_fmap, Hi. simpl. by rewrite Hnil. }
      destruct (Forall2_lookup_l _ _ _ _ _ Hy Hrow) as (v & _ & Hv). done. }
    apply Exists_exists in Hempty as (f & Hf & Hnil).
    rewrite Forall_forall in Hall. by apply (Hall f Hf).
  - f_equal. unfold column0 in Hy.
    apply mapM_result_Err in Hy as (row & _ & Hrow).
    destruct row; [by injection Hrow | done].
Qed.

Lemma gold_scores_are_first_labels_witness :
  (∀ y, column0 (evens (label_tensor sample_batch)) = Ok y →
        y = gold_score <$> sample_features)
  ∧ (Forall (λ f, labels f ≠ []) sample_features →
     column0 (evens (label_tensor sample_batch))
     = Ok (gold_score <$> sample_features))
  ∧ (Exists (λ f, labels f = []) sample_features →
     column0 (evens (label_tensor sample_batch)) = Err IndexError).
Proof.
  apply (gold_scores_are_first_labels (pad_longest 0) true sample_features
           sample_batch).
  apply sample_call.
Defined.

(** *** The scores [evaluate] gathers *)

(** [l2_normalize]: every row divided by its norm, clipped from below at
    1e-8. *)
Definition l2_normalize (vecs : list (list R)) : list (list R) :=
  (λ v, (λ x, x / Rmax (norm2 v) 1e-8)%R <$> v) <$> vecs.

(** [(x_vecs[::2] * x_vecs[1::2]).sum(1)]; numpy broadcasts a single odd
    row, and an empty half gives no score. *)
Definition pair_scores (x_vecs : list (list R)) : result (list R) :=
  match odds x_vecs with
  | [] => Ok []
  | [v] => Ok ((λ u, dot u v) <$> evens x_vecs)
  | _ =>
      if decide (length (evens x_vecs) = length (odds x_vecs))
      then Ok (zip_with dot (evens x_vecs) (odds x_vecs))
      else Err ValueError
  end.

(** [chunked_iter(data, size)] for a positive size: chunks of [size]
    records, the last one shorter when the records run out. *)
Fixpoint chunks_from {A} (size : nat) (chunk : list A) (data : list A)
    : list (list A) :=
  match data with
  | [] => match chunk with
          | [] => []
          | _ => [chunk]
          end
  | x :: data' =>
      if decide (length (chunk ++ [x]) = size)
      then (chunk ++ [x]) :: chunks_from size [] data'
      else chunks_from size (chunk ++ [x]) data'
  end.

Section Evaluate.

(** The tokenizer's padding, the hidden states the backbone returns for a
    batch, and the pooler of the instance. *)
Variable pad : list (list Z) → list (list Z).
Variable backbone : batch → list (list (list R)).
Variable pooler : Pooler.Pooler.

(** One turn of the loop of [evaluate]: the gold scores and the predicted
    scores of one chunk. *)
Definition evaluate_batch (features : list feature) : result (list R * list R) :=
  X ← call pad false features;
  y ← column0 (evens (label_tensor X));
  x_vecs ← Pooler.call pooler (backbone X) (Some (b_input_ids X));
  let x_vecs := l2_normalize x_vecs in
  pred ← pair_scores x_vecs;
  Ok (y, pred).

(** The loop of [evaluate]: [y_trues] and [y_preds]. *)
Definition evaluate_scores (data : list feature) (batch_size : nat)
    : result (list R * list R) :=
  if decide (batch_size = 0%nat) then Err ValueError
  else
    for_each (λ '(y_trues, y_preds) features,
                '(y, pred) ← evaluate_batch features;
                Ok (y_trues ++ y, y_preds ++ pred))
      ([], []) (chunks_from batch_size [] data).

End Evaluate.

Lemma chunks_from_concat {A} (size : nat) (data chunk : list A) :
  concat (chunks_from size chunk data) = chunk ++ data.
Proof.
  revert chunk. induction data as [|x data IH]; intros chunk; simpl.
  - destruct chunk; [done|]. simpl. by rewrite !app_nil_r.
  - case_decide; simpl; rewrite IH, <- ?app_assoc; done.
Qed.

Lemma chunks_from_nonempty {A} (size : nat) (data chunk : list A) :
  Forall (λ c, c ≠ []) (chunks_from size chunk data).
Proof.
  revert chunk. induction data as [|x data IH]; intros chunk; simpl.
  - destruct chunk; by repeat constructor.
  - case_decide; [|apply IH]. constructor; [|apply IH]. by destruct chunk.
Qed.

Lemma pair_scores_length (x_vecs : list (list R)) (n : nat) (pred : list R) :
  length x_vecs = (2 * n)%nat → pair_scores x_vecs = Ok pred → length pred = n.
Proof.
  intros Hlen. destruct (LossBounds.evens_odds_length n x_vecs Hlen) as [He Ho].
  unfold pair_scores. destruct (odds x_vecs) as [|v [|w rest]] eqn:Hodds.
  - intros [= <-]. simpl in Ho. by subst.
  - intros [= <-]. rewrite length_fmap. by rewrite He.
  - case_decide; [|done]. intros [= <-]. rewrite length_zip_with. lia.
Qed.

Lemma evaluate_batch_Ok (pad : list (list Z) → list (list Z))
    (backbone : batch → list (list (list R))) (pooler : Pooler.Pooler)
    (features : list feature) (y pred : list R) :
  (∀ rows, length (pad rows) = length rows) →
  (∀ X, length (backbone X) = length (b_input_ids X)) →
  evaluate_batch pad backbone pooler features = Ok (y, pred) →
  y = gold_score <$> features ∧ length pred = length features.
Proof.
  intros Hpad Hbackbone. unfold evaluate_batch.
  destruct (call pad false features) as [X|] eqn:Hcall; [|done].
  cbn [mbind result_bind].
  destruct (column0 (evens (label_tensor X))) as [y'|] eqn:Hy; [|done].
  cbn [mbind result_bind].
  destruct (Pooler.call pooler (backbone X) (Some (b_input_ids X)))
    as [x_vecs|] eqn:Hpool; [|done].
  cbn [mbind result_bind].
  destruct (pair_scores (l2_normalize x_vecs)) as [pred'|] eqn:Hscores; [|done].
  cbn [mbind result_bind]. intros [= <- <-].
  destruct (gold_column pad false features X Hcall) as [Hgold _].
  split; [by apply Hgold|].
  apply (pair_scores_length (l2_normalize x_vecs)); [|done].
  unfold l2_normalize. rewrite length_fmap.
  rewrite (Pooling.call_length _ _ _ _ Hpool), Hbackbone.
  apply call_Ok_inv in Hcall as (_ & _ & -> & _).
  by rewrite Hpad, length_fmap, rows_of_length.
Qed.

Lemma evaluate_loop_Ok (pad : list (list Z) → list (list Z))
    (backbone : batch → list (list (list R))) (pooler : Pooler.Pooler)
    (chunks : list (list feature)) :
  (∀ rows, length (pad rows) = length rows) →
  (∀ X, length (backbone X) = length (b_input_ids X)) →
  ∀ y_trues y_preds ys ps,
    for_each (λ '(y_trues, y_preds) features,
                '(y, pred) ← evaluate_batch pad backbone pooler features;
                Ok (y_trues ++ y, y_preds ++ pred))
      (y_trues, y_preds) chunks = Ok (ys, ps) →
    ys = y_trues ++ (gold_score <$> concat chunks)
    ∧ length ps = (length y_preds + length (concat chunks))%nat.
Proof.
  intros Hpad Hbackbone.
  induction chunks as [|features chunks IH]; intros y_trues y_preds ys ps.
  - intros [= <- <-]. simpl. rewrite app_nil_r. split; [done | lia].
  - cbn [for_each].
    destruct (evaluate_batch pad backbone pooler features) as [[y pred]|] eqn:Hb;
      [|done].
    cbn [mbind result_bind]. intros Hrest.
    destruct (evaluate_batch_Ok pad backbone pooler features y pred
                Hpad Hbackbone Hb) as [-> Hpred].
    destruct (IH _ _ _ _ Hrest) as [-> Hps].
    rewrite concat_cons, fmap_app, length_app, <- app_assoc.
    split; [done|]. rewrite Hps, length_app. lia.
Qed.

(** X25: [evaluate] gathers one gold score and one predicted score per record,
    whatever the batch size: when the loop returns, the gold scores are the
    first labels of the records in their order and there are as many
    predictions as records (for a padding that keeps the number of rows and
    a backbone that returns one sequence of hidden states per row); a batch
    size of 0 raises. *)
Theorem evaluate_scores_align_with_records (pad : list (list Z) → list (list Z))
    (backbone : batch → list (list (list R))) (pooler : Pooler.Pooler)
    (data : list feature) (batch_size : nat) :
  (∀ rows, length (pad rows) = length rows) →
  (∀ X, length (backbone X) = length (b_input_ids X)) →
  (∀ ys ps, evaluate_scores pad backbone pooler data batch_size = Ok (ys, ps) →
     ys = gold_score <$> data ∧ length ps = length data)
  ∧ evaluate_scores pad backbone pooler data 0 = Err ValueError
  ∧ (batch_size ≠ 0%nat →
     evaluate_scores pad backbone pooler [] batch_size = Ok ([], [])).
Proof.
  intros Hpad Hbackbone. split; [|split].
  - intros ys ps. unfold evaluate_scores. case_decide; [done|]. intros Hloop.
    destruct (evaluate_loop_Ok pad backbone pooler _ Hpad Hbackbone
                [] [] ys ps Hloop) as [-> ->].
    by rewrite chunks_from_concat.
  - done.
  - intros Hsize. unfold evaluate_scores. by rewrite decide_False.
Qed.

(** The sample backbone: one hidden vector per token, holding the token id. *)
Definition sample_backbone (X : batch) : list (list (list R)) :=
  (λ row : list Z, (λ t, [IZR t]) <$> row) <$> b_input_ids X.

Definition sample_pooler : Pooler.Pooler :=
  {| Pooler.pooling_strategy := Some "cls"; Pooler.is_llm := false;
     Pooler.pad_token_id := None |}.

Lemma pad_longest_length (p : Z) (rows : list (list Z)) :
  length (pad_longest p rows) = length rows.
Proof. unfold pad_longest. by rewrite length_fmap. Qed.

Lemma evaluate_scores_align_with_records_witness :
  (∀ ys ps, evaluate_scores (pad_longest 0) sample_backbone sample_pooler
              sample_features 1 = Ok (ys, ps) →
     ys = gold_score <$> sample_features ∧ length ps = length sample_features)
  ∧ evaluate_scores (pad_longest 0) sample_backbone sample_pooler
      sample_features 0 = Err ValueError
  ∧ (1%nat ≠ 0%nat →
     evaluate_scores (pad_longest 0) sample_backbone sample_pooler [] 1
     = Ok ([], [])).
Proof.
  apply (evaluate_scores_align_with_records (pad_longest 0) sample_backbone
           sample_pooler sample_features 1).
  - apply pad_longest_length.
  - intros X. unfold sample_backbone. by rewrite length_fmap.
Defined.

(** X26: A decoder-only model whose configuration has no pad token id cannot be
    evaluated: every collated batch has at least two rows, so the pooler
    raises on the first chunk, and [evaluate] returns nothing for any data
    that is not empty. *)
Theorem llm_without_pad_token_never_evaluates
    (pad : list (list Z) → list (list Z))
    (backbone : batch → list (list (list R))) (pooler : Pooler.Pooler)
    (data : list feature) (batch_size : nat) :
  (∀ rows, length (pad rows) = length rows) →
  (∀ X, length (backbone X) = length (b_input_ids X)) →
  Pooler.is_llm pooler = true → Pooler.pad_token_id pooler = None →
  data ≠ [] →
  (∀ features X, call pad false features = Ok X →
     Pooler.call pooler (backbone X) (Some (b_input_ids X)) = Err ValueError)
  ∧ ∃ e, evaluate_scores pad backbone pooler data batch_size = Err e.
Proof.
  intros Hpad Hbackbone Hllm Hnopad Hdata.
  assert (Hpool : ∀ features X, call pad false features = Ok X →
            Pooler.call pooler (backbone X) (Some (b_input_ids X))
            = Err ValueError).
  { intros features X Hcall. apply Pooler.call_no_pad_token; [done | done |].
    rewrite Hbackbone.
    apply call_Ok_inv in Hcall as (_ & _ & -> & _).
    rewrite Hpad, length_fmap, rows_of_length. lia. }
  split; [exact Hpool|].
  unfold evaluate_scores. case_decide; [by eexists|].
  destruct data as [|f data]; [done|]. cbn [chunks_from].
  assert (Hfirst : ∀ features, ∃ e,
            ('(y, pred) ← evaluate_batch pad backbone pooler features;
             Ok (([] : list R) ++ y, ([] : list R) ++ pred)) = Err e).
  { intros features. unfold evaluate_batch.
    destruct (call pad false features) as [X|e] eqn:Hcall; [|by eexists].
    cbn [mbind result_bind].
    destruct (column0 (evens (label_tensor X))) as [y|e]; [|by eexists].
    cbn [mbind result_bind]. rewrite (Hpool features X Hcall). by eexists. }
  assert (Hloop : ∀ (rest : list feature) (chunk : list feature), chunk ≠ [] →
            ∃ e, for_each (λ '(y_trues, y_preds) features,
                   '(y, pred) ← evaluate_batch pad backbone pooler features;
                   Ok (y_trues ++ y, y_preds ++ pred))
                   ([], []) (chunks_from batch_size chunk rest) = Err e).
  { induction rest as [|x rest IH]; intros chunk Hne.
    - destruct chunk as [|c chunk]; [done|]. cbn [chunks_from for_each].
      destruct (Hfirst (c :: chunk)) as [e ->]. by eexists.
    - cbn [chunks_from]. case_decide.
      + cbn [for_each]. destruct (Hfirst (chunk ++ [x])) as [e ->]. by eexists.
      + apply IH. by destruct chunk. }
  case_decide.
  - cbn [for_each]. destruct (Hfirst ([] ++ [f])) as [e ->]. by eexists.
  - apply Hloop. discriminate.
Qed.

Lemma llm_without_pad_token_never_evaluates_witness :
  (∀ features X, call (pad_longest 0) false features = Ok X →
     Pooler.call {| Pooler.pooling_strategy := None; Pooler.is_llm := true;
                    Pooler.pad_token_id := None |}
       (sample_backbone X) (Some (b_input_ids X)) = Err ValueError)
  ∧ ∃ e, evaluate_scores (pad_longest 0) sample_backbone
           {| Pooler.pooling_strategy := None; Pooler.is_llm := true;
              Pooler.pad_token_id := None |} sample_features 32 = Err e.
Proof.
  apply (llm_without_pad_token_never_evaluates (pad_longest 0) sample_backbone
           {| Pooler.pooling_strategy := None; Pooler.is_llm := true;
              Pooler.pad_token_id := None |} sample_features 32).
  - apply pad_longest_length.
  - intros X. unfold sample_backbone. by rewrite length_fmap.
  - reflexivity.
  - reflexivity.
  - discriminate.
Defined.

(** *** The predicted scores, in exact arithmetic *)

Local Open Scope R_scope.

(** The sum of the squares of a vector. *)
Definition sqnorm (v : list R) : R := rsum ((λ x, x * x) <$> v).

Lemma sqnorm_nonneg (v : list R) : 0 <= sqnorm v.
Proof.
  unfold sqnorm. apply LossBounds.rsum_nonneg, Forall_fmap, Forall_forall.
  intros x _. simpl. nra.
Qed.

Lemma sqnorm_scale (v : list R) (c : R) :
  c ≠ 0 → sqnorm ((λ x, x / c) <$> v) = sqnorm v / (c * c).
Proof.
  intros Hc. unfold sqnorm. induction v as [|x v IH].
  - simpl. lra.
  - rewrite !fmap_cons, !LossBounds.rsum_cons, IH. field. done.
Qed.

Lemma norm2_scale (v : list R) (c : R) :
  0 < c → norm2 ((λ x, x / c) <$> v) = norm2 v / c.
Proof.
  intros Hc. unfold norm2. fold (sqnorm ((λ x, x / c) <$> v)). fold (sqnorm v).
  rewrite sqnorm_scale by lra.
  rewrite sqrt_div_alt by nra. by rewrite sqrt_square by lra.
Qed.

Lemma l2_row_norm (v : list R) :
  norm2 ((λ x, x / Rmax (norm2 v) 1e-8) <$> v) <= 1
  ∧ (1e-8 <= norm2 v → norm2 ((λ x, x / Rmax (norm2 v) 1e-8) <$> v) = 1).
Proof.
  assert (Hpos : 0 < Rmax (norm2 v) 1e-8).
  { eapply Rlt_le_trans; [|apply Rmax_r]. lra. }
  rewrite norm2_scale by done.
  assert (Hn : 0 <= norm2 v) by apply sqrt_pos.
  split.
  - apply (Rmult_le_reg_r (Rmax (norm2 v) 1e-8)); [done|].
    unfold Rdiv. rewrite Rmult_assoc, Rinv_l by lra.
    rewrite Rmult_1_r, Rmult_1_l. apply Rmax_l.
  - intros Hbig. rewrite Rmax_left by done. apply Rdiv_diag. lra.
Qed.

Lemma dot_bound (u v : list R) :
  2 * dot u v <= sqnorm u + sqnorm v ∧ - (2 * dot u v) <= sqnorm u + sqnorm v.
Proof.
  revert v. induction u as [|a u IH]; intros v.
  - pose proof (sqnorm_nonneg v).
    change (dot [] v) with 0. change (sqnorm []) with 0. lra.
  - destruct v as [|b v].
    + pose proof (sqnorm_nonneg (a :: u)).
      change (dot (a :: u) []) with 0. change (sqnorm []) with 0. lra.
    + change (dot (a :: u) (b :: v)) with (a * b + dot u v).
      change (sqnorm (a :: u)) with (a * a + sqnorm u).
      change (sqnorm (b :: v)) with (b * b + sqnorm v).
      destruct (IH v) as [H1 H2].
      pose proof (Rle_0_sqr (a - b)) as Hminus.
      pose proof (Rle_0_sqr (a + b)) as Hplus.
      unfold Rsqr in Hminus, Hplus. split; lra.
Qed.

Lemma unit_ball_dot (u v : list R) :
  norm2 u <= 1 → norm2 v <= 1 → -1 <= dot u v <= 1.
Proof.
  assert (Hsq : ∀ w, norm2 w <= 1 → sqnorm w <= 1).
  { intros w Hw. pose proof (sqnorm_nonneg w) as H0.
    rewrite <- (sqrt_sqrt (sqnorm w)) by done.
    pose proof (sqrt_pos (sqnorm w)). unfold norm2 in Hw. fold (sqnorm w) in Hw.
    nra. }
  intros Hu%Hsq Hv%Hsq. destruct (dot_bound u v). lra.
Qed.

Lemma evens_subseteq {A} (l : list A) (x : A) : x ∈ evens l → x ∈ l.
Proof.
  assert (H : ∀ n (k : list A), (length k ≤ n)%nat → x ∈ evens k → x ∈ k).
  { induction n as [|n IH]; intros [|a [|b k]] Hn; try done;
      simpl in Hn; try lia.
    cbn [evens]. intros [-> | Hin]%elem_of_cons; [by left|].
    right. right. apply IH; [lia | done]. }
  by apply (H (length l)).
Qed.

Lemma odds_subseteq {A} (l : list A) (x : A) : x ∈ odds l → x ∈ l.
Proof.
  unfold odds. destruct l as [|a l]; [done|]. simpl.
  intros Hin%evens_subseteq. by right.
Qed.

(** X27: In exact real arithmetic, [l2_normalize] leaves every row with a norm of
    at most 1 (exactly 1 when the row's norm is at least 1e-8, and the zero
    row as it is), so every score [evaluate] predicts, the dot product of
    the two normalized embeddings of a pair, lies between -1 and 1. *)
Theorem predicted_scores_are_bounded (x_vecs : list (list R)) :
  Forall (λ v, norm2 v <= 1) (l2_normalize x_vecs)
  ∧ Forall2 (λ v w, (1e-8 <= norm2 v → norm2 w = 1)
                    ∧ (Forall (λ x, x = 0) v → w = v))
      x_vecs (l2_normalize x_vecs)
  ∧ ∀ pred, pair_scores (l2_normalize x_vecs) = Ok pred →
            Forall (λ s, -1 <= s <= 1) pred.
Proof.
  assert (Hball : Forall (λ v, norm2 v <= 1) (l2_normalize x_vecs)).
  { unfold l2_normalize. apply Forall_fmap, Forall_forall. intros v _. simpl.
    apply l2_row_norm. }
  split; [done|]. split.
  - unfold l2_normalize. apply Forall2_fmap_r, Forall_Forall2_diag, Forall_forall.
    intros v _. split; [apply l2_row_norm|].
    intros Hzero. induction Hzero as [|x v -> _ IH]; [done|].
    rewrite fmap_cons. f_equal; [unfold Rdiv; lra|].
    etransitivity; [|exact IH]. apply list_fmap_ext. intros _ y _. simpl.
    f_equal. f_equal. unfold norm2. f_equal.
    rewrite fmap_cons, LossBounds.rsum_cons. lra.
  - intros pred. unfold pair_scores.
    rewrite Forall_forall in Hball.
    assert (Hdot : ∀ u v, u ∈ evens (l2_normalize x_vecs) →
                          v ∈ odds (l2_normalize x_vecs) → -1 <= dot u v <= 1).
    { intros u v Hu%evens_subseteq Hv%odds_subseteq.
      apply unit_ball_dot; by apply Hball. }
    destruct (odds (l2_normalize x_vecs)) as [|v [|w rest]] eqn:Hodds.
    + by intros [= <-].
    + intros [= <-]. apply Forall_fmap, Forall_forall. intros u Hu. simpl.
      apply Hdot; [done | by left].
    + case_decide; [|done]. intros [= <-]. apply Forall_forall. intros s Hs.
      apply list_elem_of_lookup in Hs as [i Hi].
      apply lookup_zip_with_Some in Hi as (u & v' & -> & Hu & Hv').
      apply Hdot; by eapply list_elem_of_lookup_2.
Qed.

End Evaluation.
